(** * ren-general: filesystem paths and the directory walker

    A shallow embedding of [filesystem.cxx] and the properties of its
    path model and of [DirectoryPath::Walk], with the file streams of
    [inputoutput.cxx] that do their own error handling and buffering.

    - The configuration embedded is the one without the preprocessor
      symbol WINDOWS (root-relative paths, opendir / readdir).
    - The path parser and its helpers ([IsAbsolute],
      [PathStringIterator], [Path::Path], [AsAbsoluteString], [IsRoot],
      [Depth]) also carry their WINDOWS text, selected by the Boolean
      [WINDOWS], since the construction errors are specified for
      drive-letter platforms too.
    - The WINDOWS text of [ProcessDirectoryContents] is not embedded: it
      closes a handle named [DirectorResource], which is not declared,
      so that [filesystem.cxx] builds without WINDOWS only.
    - [size_t] is a 64-bit unsigned integer, carried in [N] with the
      wrap-around written out; [String::npos] is its largest value.
    - [Path::Parts] is a sequence with [push_back], [pop_back] and
      [back]: a list, last segment last.
    - The environment and the C library ([getcwd], [getenv], [mkstemp],
      [opendir], [fprintf], [fgets], errno) are functions given to the
      embedding; what a property needs of them is among its premises. *)

From Stdlib Require Import List Bool Arith NArith ZArith Lia Permutation.
From Stdlib Require Import Ascii String.
Import ListNotations.

Open Scope list_scope.
Open Scope string_scope.

(* ================================================================== *)
(** * Strings and [size_t] *)

Definition size_t_modulus : Z := 2 ^ 64.

(** Reduction of an integer result into [size_t]. *)
Definition size_t_wrap (z : Z) : N := Z.to_N (z mod size_t_modulus).

(** Reduction of an integer result into [unsigned int], 32 bits wide. *)
Definition unsigned_int_wrap (z : Z) : N := Z.to_N (z mod 2 ^ 32).

(** [String::npos], i.e. [size_t(-1)]. *)
Definition npos : N := size_t_wrap (-1).

Definition size (s : string) : N := N.of_nat (String.length s).

Definition empty (s : string) : bool := (size s =? 0)%N.

Fixpoint drop (n : nat) (s : string) : string :=
  match n, s with
  | O, _ => s
  | S _, EmptyString => EmptyString
  | S k, String _ t => drop k t
  end.

Fixpoint take (n : nat) (s : string) : string :=
  match n, s with
  | O, _ => EmptyString
  | S _, EmptyString => EmptyString
  | S k, String a t => String a (take k t)
  end.

(** [s[i]]: the character at index [i]; at [i = size s] the terminating
    null character is read. *)
Definition at_index (s : string) (i : N) : ascii :=
  match String.get (N.to_nat i) s with
  | Some c => c
  | None => zero
  end.

(** Offset of the first occurrence of [c] in [s]. *)
Fixpoint index_of (c : ascii) (s : string) : option nat :=
  match s with
  | EmptyString => None
  | String a t => if Ascii.eqb a c then Some O else option_map S (index_of c t)
  end.

(** [s.find(c, pos)] for a one-character needle: the first index not
    below [pos] holding [c], or [npos]. *)
Definition find (s : string) (c : ascii) (pos : N) : N :=
  if (size s <? pos)%N then npos
  else match index_of c (drop (N.to_nat pos) s) with
       | Some k => (pos + N.of_nat k)%N
       | None => npos
       end.

(* ================================================================== *)
(** * Outcomes of fallible code *)

Inductive Exception : Type :=
| Construction (what : string)   (* Error::Construction *)
| System (what : string)         (* Error::System *)
| out_of_range.                  (* std::out_of_range *)

Inductive Outcome (A : Type) : Type :=
| Return (a : A)
| Throw (e : Exception)
| AssertFail          (* a failed assert *)
| Undefined           (* undefined behaviour: back() or --end() of an empty container *)
| OutOfFuel.          (* the loop bound of the model was reached *)

Arguments Return {A} a.
Arguments Throw {A} e.
Arguments AssertFail {A}.
Arguments Undefined {A}.
Arguments OutOfFuel {A}.

Definition bind {A B : Type} (m : Outcome A) (k : A -> Outcome B) : Outcome B :=
  match m with
  | Return a => k a
  | Throw e => Throw e
  | AssertFail => AssertFail
  | Undefined => Undefined
  | OutOfFuel => OutOfFuel
  end.

Notation "x <- m ;; k" := (bind m (fun x => k))
  (at level 61, m at next level, right associativity).

(** [s.substr(pos, count)]. *)
Definition substr (s : string) (pos count : N) : Outcome string :=
  if (size s <? pos)%N then Throw out_of_range
  else Return (take (N.to_nat (N.min count (size s - pos))) (drop (N.to_nat pos) s)).

(* ================================================================== *)
(** * Path syntax *)

Definition PartCollection : Type := list string.

Definition push_back (Parts : PartCollection) (Part : string) : PartCollection :=
  (Parts ++ [Part])%list.

Definition pop_back (Parts : PartCollection) : PartCollection := removelast Parts.

Definition is_empty (Parts : PartCollection) : bool :=
  match Parts with [] => true | _ => false end.

Definition slash : ascii := "/"%char.
Definition backslash : ascii := "\"%char.
Definition colon : ascii := ":"%char.

Section Platform.

(** Whether the preprocessor symbol WINDOWS is defined. *)
Variable WINDOWS : bool.

Definition IsAbsolute (RawPath : string) : bool :=
  if WINDOWS then
    if (size RawPath <? 2)%N || negb (Ascii.eqb (at_index RawPath 1) colon)
    then false else true
  else
    if negb (Ascii.eqb (at_index RawPath 0) slash) then false else true.

Record PathStringIterator : Type := mkIterator {
  PathString : string;
  PreviousMarker : N;
  Marker : N
}.

Definition PathStringIterator_new (PathString : string) : PathStringIterator :=
  mkIterator PathString 0%N 0%N.

Definition FindNext (it : PathStringIterator) : bool * PathStringIterator :=
  if (Marker it =? npos)%N then (false, it)
  else
    let PreviousMarker' := Marker it in
    let Marker1 := find (PathString it) slash PreviousMarker' in
    let Marker2 :=
      if WINDOWS then
        if (Marker1 =? npos)%N then find (PathString it) backslash PreviousMarker'
        else Marker1
      else Marker1 in
    let Marker3 :=
      if negb (Marker2 =? npos)%N then size_t_wrap (Z.of_N Marker2 + 1) else Marker2 in
    (true, mkIterator (PathString it) PreviousMarker' Marker3).

Definition Read (it : PathStringIterator) : Outcome string :=
  if negb (0 <? Marker it)%N then AssertFail
  else
    let count := size_t_wrap (Z.of_N (Marker it) - 1 - Z.of_N (PreviousMarker it)) in
    if (count =? 0)%N then Return EmptyString
    else substr (PathString it) (PreviousMarker it) count.

Definition root_level_message : string := ".. directory specified at root level!".

(** The [while (AbsoluteIterator.FindNext())] loop of [Path::Path]. *)
Fixpoint Path_scan (fuel : nat) (it : PathStringIterator) (Parts : PartCollection)
  : Outcome PartCollection :=
  match fuel with
  | O => OutOfFuel
  | S fuel' =>
    let (more, it') := FindNext it in
    if more then
      Part <- Read it' ;;
      if String.eqb Part "" then Path_scan fuel' it' Parts
      else if String.eqb Part ".." then
        if is_empty Parts then Throw (Construction root_level_message)
        else if WINDOWS && Nat.eqb (List.length Parts) 1 then
          Throw (Construction root_level_message)
        else Path_scan fuel' it' (pop_back Parts)
      else if String.eqb Part "." then Path_scan fuel' it' Parts
      else Path_scan fuel' it' (push_back Parts Part)
    else Return Parts
  end.

Record Path : Type := mkPath { Parts : PartCollection }.

(** [Path::Path(String const &Absolute)] with an explicit loop bound. *)
Definition Path_new_fuel (fuel : nat) (Absolute : string) : Outcome Path :=
  if empty Absolute then Throw (Construction "Absolute paths must not be empty.")
  else if negb (IsAbsolute Absolute) then
    Throw (Construction "Base paths must be constructed with absolute paths.")
  else
    Parts' <- Path_scan fuel (PathStringIterator_new Absolute) [] ;;
    Return (mkPath Parts').

(** The loop calls [FindNext] once per token and once more to stop; a
    string of [n] characters has at most [n + 1] tokens. *)
Definition Path_new (Absolute : string) : Outcome Path :=
  Path_new_fuel (String.length Absolute + 2) Absolute.

(** [Path::Path(Path const &Other)]: the segments are copied. *)
Definition Path_copy (Other : Path) : Path := mkPath (Parts Other).

Definition AsAbsoluteString (this : Path) : string :=
  if WINDOWS then
    snd (fold_left
           (fun (st : bool * string) (Part : string) =>
              let (First, Out) := st in
              if First then (false, Out ++ Part)
              else (First, (Out ++ "/") ++ Part))
           (Parts this) (true, ""))
  else
    let Out := if is_empty (Parts this) then "/" else "" in
    fold_left (fun (Out : string) (Part : string) => (Out ++ "/") ++ Part)
              (Parts this) Out.

Definition IsRoot (this : Path) : Outcome bool :=
  if WINDOWS then
    if is_empty (Parts this) then AssertFail
    else Return (List.length (Parts this) <=? 1)%nat
  else Return (is_empty (Parts this)).

(** [unsigned int Path::Depth(void)]: the count, a size_t, is narrowed
    to [unsigned int] by the return. *)
Definition Depth (this : Path) : Outcome N :=
  if WINDOWS then
    if is_empty (Parts this) then AssertFail
    else Return (unsigned_int_wrap (Z.of_nat (List.length (Parts this)) - 1))
  else Return (unsigned_int_wrap (Z.of_nat (List.length (Parts this)))).

(** An iterator into a [PartCollection] is carried as the elements from
    its position to [end()]: it equals [end()] when that list is empty,
    [*it] is its head and [++it] its tail. *)
Definition const_iterator : Type := list string.

(** [Path::FindCommonRoot]: returns the matched prefix and, through the
    two reference parameters, the positions where the paths diverge. *)
Fixpoint FindCommonRoot_loop (LocalPart OtherPart : const_iterator) (Out : PartCollection)
  : PartCollection * const_iterator * const_iterator :=
  match LocalPart, OtherPart with
  | l :: LocalPart', o :: OtherPart' =>
      if negb (String.eqb l o) then (Out, LocalPart, OtherPart)
      else FindCommonRoot_loop LocalPart' OtherPart' (push_back Out l)
  | _, _ => (Out, LocalPart, OtherPart)
  end.

Definition Path_FindCommonRoot (this : Path) (OtherParts : PartCollection)
    (LocalDivergence OtherDivergence : const_iterator)
  : PartCollection * const_iterator * const_iterator :=
  FindCommonRoot_loop LocalDivergence OtherDivergence [].

(** The lambda [AppendPart] of [AsRelativeString], over the captured
    stream [Out] and flag [First]. *)
Definition AppendPart (st : string * bool) (Part : string) : string * bool :=
  let (Out, First) := st in
  if First then (Out ++ Part, false) else ((Out ++ "/") ++ Part, First).

Definition AsRelativeString (this : Path) (From : Path) : string :=
  let '(_, HerePart, FromPart) :=
    Path_FindCommonRoot this (Parts From) (Parts this) (Parts From) in
  let st1 := fold_left (fun st (_ : string) => AppendPart st "..") FromPart ("", true) in
  let st2 := fold_left (fun st (Part : string) => AppendPart st Part) HerePart st1 in
  fst st2.

(** ** FilePath and DirectoryPath: [Path] with no further members *)

Definition FilePath : Type := Path.
Definition DirectoryPath : Type := Path.

Definition FilePath_new (Absolute : string) : Outcome FilePath := Path_new Absolute.

Definition DirectoryPath_new (Absolute : string) : Outcome DirectoryPath :=
  Path_new Absolute.

(** [DirectoryPath::DirectoryPath(void)]. *)
Definition DirectoryPath_default : DirectoryPath := mkPath [].

(** [FilePath::FilePath(PartCollection const &Parts, String const &Filename)]. *)
Definition FilePath_of_parts (Parts0 : PartCollection) (Filename : string) : FilePath :=
  mkPath (push_back Parts0 Filename).

Definition File (this : FilePath) : Outcome string :=
  match Parts this with
  | [] => Undefined
  | _ => Return (last (Parts this) "")
  end.

Definition Directory (this : FilePath) : Outcome DirectoryPath :=
  match Parts this with
  | [] => Undefined
  | _ => Return (mkPath (removelast (Parts this)))
  end.

Definition Exit (this : DirectoryPath) : Outcome DirectoryPath :=
  root <- IsRoot this ;;
  if root then AssertFail else Return (mkPath (pop_back (Parts this))).

Definition Enter (this : DirectoryPath) (Directory0 : string) : DirectoryPath :=
  mkPath (push_back (Parts this) Directory0).

Definition Select (this : DirectoryPath) (File0 : string) : FilePath :=
  FilePath_of_parts (Parts this) File0.

Definition DirectoryPath_FindCommonRoot (this Other : DirectoryPath) : DirectoryPath :=
  let '(Out, _, _) := Path_FindCommonRoot this (Parts Other) (Parts this) (Parts Other) in
  mkPath Out.

(** The working directory reported by [getcwd], [None] when it fails. *)
Variable getcwd : option string.

Definition LocateWorkingDirectory : Outcome DirectoryPath :=
  match getcwd with
  | None => Throw (System "Couldn't obtain working directory!")
  | Some WorkingDirectoryBuffer => DirectoryPath_new WorkingDirectoryBuffer
  end.

Definition FilePath_Qualify (RawPath : string) : Outcome FilePath :=
  if IsAbsolute RawPath then FilePath_new RawPath
  else
    cwd <- LocateWorkingDirectory ;;
    FilePath_new ((AsAbsoluteString cwd ++ "/") ++ RawPath).

Definition DirectoryPath_Qualify (RawPath : string) : Outcome DirectoryPath :=
  if IsAbsolute RawPath then DirectoryPath_new RawPath
  else
    cwd <- LocateWorkingDirectory ;;
    DirectoryPath_new ((AsAbsoluteString cwd ++ "/") ++ RawPath).

End Platform.

(* ================================================================== *)
(** * Directory listing and the walker (configuration without WINDOWS) *)

Inductive d_type_t : Type :=
| DT_UNKNOWN | DT_FIFO | DT_CHR | DT_DIR | DT_BLK | DT_REG | DT_LNK | DT_SOCK.

Definition d_type_eqb (a b : d_type_t) : bool :=
  match a, b with
  | DT_UNKNOWN, DT_UNKNOWN | DT_FIFO, DT_FIFO | DT_CHR, DT_CHR | DT_DIR, DT_DIR
  | DT_BLK, DT_BLK | DT_REG, DT_REG | DT_LNK, DT_LNK | DT_SOCK, DT_SOCK => true
  | _, _ => false
  end.

Record dirent : Type := mkDirent { d_name : string; d_type : d_type_t }.

Module Walker.

Section Filesystem.

(** The filesystem as the listing code observes it: [opendir name] is
    [None] when the directory cannot be opened, otherwise the entries
    that successive [readdir] calls return, in their order.  It is not
    changed by the code of this section. *)
Variable opendir : string -> option (list dirent).

Definition ProcessDirectoryContents {St : Type} (DirectoryName : string)
    (Process : St -> string -> bool -> St) (st : St) : St :=
  match opendir DirectoryName with
  | None => st
  | Some DirectoryResource =>
      fold_left
        (fun (st : St) (ElementInfo : dirent) =>
           let ElementName := d_name ElementInfo in
           if String.eqb ElementName "." || String.eqb ElementName ".." then st
           else Process st ElementName (negb (d_type_eqb (d_type ElementInfo) DT_DIR)))
        DirectoryResource st
  end.

Definition ListFiles (this : DirectoryPath) : list string :=
  ProcessDirectoryContents (AsAbsoluteString false this)
    (fun (Out : list string) (Element : string) (IsFile : bool) =>
       if IsFile then (Out ++ [Element])%list else Out)
    [].

Definition ListDirectories (this : DirectoryPath) : list string :=
  ProcessDirectoryContents (AsAbsoluteString false this)
    (fun (Out : list string) (Element : string) (IsFile : bool) =>
       if negb IsFile then (Out ++ [Element])%list else Out)
    [].

(** State of [DirectoryPath::Walk]: its two locals, and the arguments
    the callback [Process] has been invoked with so far, oldest first. *)
Record WalkState : Type := mkWalk {
  Transitions : list string;
  Marker : DirectoryPath;
  Calls : list FilePath
}.

Definition ProcessFiles (st : WalkState) : WalkState :=
  fold_left
    (fun (st : WalkState) (File0 : string) =>
       mkWalk (Transitions st) (Marker st) (Calls st ++ [Select (Marker st) File0])%list)
    (ListFiles (Marker st)) st.

Definition QueueNewTransitions (st : WalkState) : WalkState :=
  let Directories := ListDirectories (Marker st) in
  mkWalk (Directories ++ Transitions st)%list (Marker st) (Calls st).

(** The statements of [Walk] before its loop. *)
Definition Walk_begin (this : DirectoryPath) : WalkState :=
  QueueNewTransitions (ProcessFiles (mkWalk [] (Path_copy this) [])).

(** One execution of the loop body, [NextTransition] being the popped
    front of the list. *)
Definition Walk_body (st : WalkState) (NextTransition : string) : Outcome WalkState :=
  if empty NextTransition then
    Marker' <- Exit false (Marker st) ;;
    Return (mkWalk (Transitions st) Marker' (Calls st))
  else
    let st1 := mkWalk (Transitions st) (Enter (Marker st) NextTransition) (Calls st) in
    let st2 := mkWalk ("" :: Transitions st1) (Marker st1) (Calls st1) in
    Return (ProcessFiles (QueueNewTransitions st2)).

Fixpoint Walk_loop (fuel : nat) (st : WalkState) : Outcome WalkState :=
  match fuel with
  | O => OutOfFuel
  | S fuel' =>
      match Transitions st with
      | [] => Return st
      | NextTransition :: rest =>
          st' <- Walk_body (mkWalk rest (Marker st) (Calls st)) NextTransition ;;
          Walk_loop fuel' st'
      end
  end.

Definition Walk (fuel : nat) (this : DirectoryPath) : Outcome WalkState :=
  Walk_loop fuel (Walk_begin this).

End Filesystem.

(** ** Reference definitions for the walker *)

#[local] Set Warnings "-register-all".

(** A finite directory tree: a directory that can be opened, with its
    entries in [readdir] order and under each entry the tree found below
    it (looked at only for entries the walker descends into); or a place
    that cannot be opened. *)
Inductive FsTree : Type :=
| Listing (entries : list (dirent * FsTree))
| NoListing.

Definition is_dot (name : string) : bool :=
  String.eqb name "." || String.eqb name "..".

(** Entries reported as files, and as directories, by the listing. *)
Definition is_file (e : dirent) : bool :=
  negb (is_dot (d_name e)) && negb (d_type_eqb (d_type e) DT_DIR).

Definition is_subdirectory (e : dirent) : bool :=
  negb (is_dot (d_name e)) && d_type_eqb (d_type e) DT_DIR.

(** Depth-first pre-order of section 4.5: the immediate files of a
    directory in listing order, then each subdirectory in listing order,
    treated the same way. *)
Fixpoint preorder_files (at_ : list string) (t : FsTree) : list FilePath :=
  match t with
  | NoListing => []
  | Listing es =>
      (map (fun e : dirent => mkPath (at_ ++ [d_name e])) (filter is_file (map fst es)) ++
       (fix below (es : list (dirent * FsTree)) : list FilePath :=
          match es with
          | [] => []
          | (e, sub) :: es' =>
              (if is_subdirectory e then preorder_files (at_ ++ [d_name e]) sub else [])
              ++ below es'
          end) es)%list
  end.

(** Loop iterations the walker spends below a directory: one descend
    and one ascend for every directory under it. *)
Fixpoint iterations (t : FsTree) : nat :=
  match t with
  | NoListing => 0
  | Listing es =>
      (fix below (es : list (dirent * FsTree)) : nat :=
         match es with
         | [] => 0
         | (e, sub) :: es' =>
             (if is_subdirectory e then 2 + iterations sub else 0) + below es'
         end) es
  end.

(** The transitions a walk executes below a directory: for every
    subdirectory in listing order its name (the descend), what is
    executed below it, and the empty transition (the ascend) that
    answers the descend. *)
Fixpoint paired_transitions (t : FsTree) : list string :=
  match t with
  | NoListing => []
  | Listing es =>
      (fix below (es : list (dirent * FsTree)) : list string :=
         match es with
         | [] => []
         | (e, sub) :: es' =>
             ((if is_subdirectory e
               then d_name e :: paired_transitions sub ++ [""] else [])
              ++ below es')%list
         end) es
  end.

Fixpoint paired_transitions_below (es : list (dirent * FsTree)) : list string :=
  match es with
  | [] => []
  | (e, sub) :: es' =>
      ((if is_subdirectory e then d_name e :: paired_transitions sub ++ [""] else [])
       ++ paired_transitions_below es')%list
  end.

(** The two parts of [preorder_files] and the part of [iterations]
    for the entries of one directory. *)
Definition files_here (at_ : list string) (es : list (dirent * FsTree)) : list FilePath :=
  map (fun e : dirent => mkPath (at_ ++ [d_name e])%list) (filter is_file (map fst es)).

Fixpoint files_below (at_ : list string) (es : list (dirent * FsTree)) : list FilePath :=
  match es with
  | [] => []
  | (e, sub) :: es' =>
      ((if is_subdirectory e then preorder_files (at_ ++ [d_name e])%list sub else [])
       ++ files_below at_ es')%list
  end.

Fixpoint iterations_below (es : list (dirent * FsTree)) : nat :=
  match es with
  | [] => 0
  | (e, sub) :: es' =>
      (if is_subdirectory e then 2 + iterations sub else 0) + iterations_below es'
  end.

Section Reference.

Variable opendir : string -> option (list dirent).

(** What [readdir] yields for a directory name; nothing when it cannot
    be opened. *)
Definition entries_of (name : string) : list dirent :=
  match opendir name with
  | Some es => es
  | None => []
  end.

(** The state at the head of the loop after at most [n] executions of
    its body. *)
Fixpoint Walk_after (n : nat) (st : WalkState) : Outcome WalkState :=
  match n with
  | O => Return st
  | S n' =>
      match Transitions st with
      | [] => Return st
      | NextTransition :: rest =>
          st' <- Walk_body opendir (mkWalk rest (Marker st) (Calls st)) NextTransition ;;
          Walk_after n' st'
      end
  end.

(** The transitions popped, in order, by at most [n] executions of the
    loop body. *)
Fixpoint Walk_executed (n : nat) (st : WalkState) : list string :=
  match n with
  | O => []
  | S n' =>
      match Transitions st with
      | [] => []
      | NextTransition :: rest =>
          match Walk_body opendir (mkWalk rest (Marker st) (Calls st)) NextTransition with
          | Return st' => NextTransition :: Walk_executed n' st'
          | _ => [NextTransition]
          end
      end
  end.

(** [readdir] never reports an entry with an empty name. *)
Definition names_nonempty : Prop :=
  forall (name : string) (es : list dirent) (e : dirent),
    opendir name = Some es -> In e es -> d_name e <> "".

(** The filesystem below the directory of segments [at_] is the tree [t]. *)
Inductive Represents : list string -> FsTree -> Prop :=
| Represents_none (at_ : list string) :
    opendir (AsAbsoluteString false (mkPath at_)) = None ->
    Represents at_ NoListing
| Represents_listing (at_ : list string) (es : list (dirent * FsTree)) :
    opendir (AsAbsoluteString false (mkPath at_)) = Some (map fst es) ->
    (forall e sub, In (e, sub) es -> is_subdirectory e = true ->
                   Represents (at_ ++ [d_name e])%list sub) ->
    Represents at_ (Listing es).

(** The pending work the walker holds when its marker is at [M], below
    the walk root: for every level entered and not yet left, the
    subdirectories of that level still to be visited, followed by the
    empty transition that leaves the level. *)
Inductive Pending (root : list string) : list string -> list string -> Prop :=
| Pending_root (ds : list string) :
    incl ds (ListDirectories opendir (mkPath root)) ->
    Pending root root ds
| Pending_below (M T : list string) (name : string) (ds : list string) :
    Pending root M T ->
    name <> "" ->
    incl ds (ListDirectories opendir (mkPath (M ++ [name])%list)) ->
    Pending root (M ++ [name])%list (ds ++ "" :: T)%list.

(** Descending into a directory whose contents are the tree [t] comes
    back to the same marker with the same pending entries, after the
    files of [t] have been reported in pre-order. *)
Definition visits (t : FsTree) : Prop :=
  forall (M : list string) (name : string) (rest : list string) (C : list FilePath)
         (fuel : nat),
    name <> "" ->
    Represents (M ++ [name])%list t ->
    Walk_loop opendir (2 + iterations t + fuel) (mkWalk (name :: rest) (mkPath M) C) =
    Walk_loop opendir fuel
              (mkWalk rest (mkPath M) (C ++ preorder_files (M ++ [name])%list t)%list).

(** The same for the transitions executed. *)
Definition executes (t : FsTree) : Prop :=
  forall (M : list string) (name : string) (rest : list string) (C : list FilePath)
         (k : nat),
    name <> "" ->
    Represents (M ++ [name])%list t ->
    Walk_executed (2 + iterations t + k) (mkWalk (name :: rest) (mkPath M) C) =
    (name :: paired_transitions t ++ "" ::
       Walk_executed k
         (mkWalk rest (mkPath M) (C ++ preorder_files (M ++ [name])%list t)%list))%list.

End Reference.

End Walker.

(* ================================================================== *)
(** * Environment helpers (configuration without WINDOWS) *)

Section Environment.

(** The process environment: [getenv name] is [None] for a null result. *)
Variable getenv : string -> option string.

Definition GetUserConfigDirectory : Outcome string :=
  match getenv "XDG_CONFIG_HOME" with
  | Some HomePath => Return HomePath
  | None =>
      match getenv "HOME" with
      | Some HomePath => Return HomePath
      | None =>
          Throw (System "User's local config directory and home directory are undefined!")
      end
  end.

Definition GetGlobalConfigDirectory : Outcome string := Return "/etc".

Definition LocateUserConfigFile (Filename : string) : Outcome FilePath :=
  dir <- GetUserConfigDirectory ;;
  d <- DirectoryPath_new false dir ;;
  Return (Select d Filename).

Definition LocateUserConfigFile_in (Project Filename : string) : Outcome FilePath :=
  dir <- GetUserConfigDirectory ;;
  d <- DirectoryPath_new false dir ;;
  Return (Select (Enter d Project) Filename).

Definition LocateGlobalConfigFile (Filename : string) : Outcome FilePath :=
  dir <- GetGlobalConfigDirectory ;;
  d <- DirectoryPath_new false dir ;;
  Return (Select d Filename).

Definition LocateGlobalConfigFile_in (Project Filename : string) : Outcome FilePath :=
  dir <- GetGlobalConfigDirectory ;;
  d <- DirectoryPath_new false dir ;;
  Return (Select (Enter d Project) Filename).

Definition LocateDocumentDirectory : Outcome DirectoryPath :=
  match getenv "HOME" with
  | None => Throw (System "User's home directory is undefined!")
  | Some HomePath => DirectoryPath_new false HomePath
  end.

Definition LocateDocumentDirectory_in (Project : string) : Outcome DirectoryPath :=
  d <- LocateDocumentDirectory ;;
  Return (Enter d Project).

Definition LocateTemporaryDirectory : Outcome DirectoryPath :=
  let TemporaryPath :=
    match getenv "TMPDIR" with
    | Some v => v
    | None =>
        match getenv "P_tmpdir" with
        | Some v => v
        | None => "/tmp"
        end
    end in
  DirectoryPath_new false TemporaryPath.

(** [mkstemp] on a template: [None] for the result -1, otherwise the
    contents it leaves in the buffer. *)
Variable mkstemp : string -> option string.

(** [CreateTemporaryFile]; the stream [Output] it opens on the file is
    not part of the FilePath it returns. *)
Definition CreateTemporaryFile (TempDirectory : DirectoryPath) : Outcome FilePath :=
  let Template := AsAbsoluteString false TempDirectory ++ "/XXXXXX" in
  match mkstemp Template with
  | None =>
      Throw (System (("Failed to locate temporary file in "
                        ++ AsAbsoluteString false TempDirectory) ++ "!"))
  | Some Filename => FilePath_new false Filename
  end.

End Environment.

(** The example of the specification: a root R holding the file f1,
    the subdirectory D (holding the file f2) and the file f3; here also
    a subdirectory E that cannot be opened. *)
Definition example_fs (name : string) : option (list dirent) :=
  if String.eqb name "/R" then
    Some [mkDirent "." DT_DIR; mkDirent ".." DT_DIR; mkDirent "f1" DT_REG;
          mkDirent "D" DT_DIR; mkDirent "f3" DT_REG; mkDirent "E" DT_DIR]
  else if String.eqb name "/R/D" then
    Some [mkDirent "." DT_DIR; mkDirent ".." DT_DIR; mkDirent "f2" DT_REG]
  else None.

Definition example_tree : Walker.FsTree :=
  Walker.Listing
    [(mkDirent "." DT_DIR, Walker.NoListing);
     (mkDirent ".." DT_DIR, Walker.NoListing);
     (mkDirent "f1" DT_REG, Walker.NoListing);
     (mkDirent "D" DT_DIR,
      Walker.Listing [(mkDirent "." DT_DIR, Walker.NoListing);
                      (mkDirent ".." DT_DIR, Walker.NoListing);
                      (mkDirent "f2" DT_REG, Walker.NoListing)]);
     (mkDirent "f3" DT_REG, Walker.NoListing);
     (mkDirent "E" DT_DIR, Walker.NoListing)].

(** A root R holding a subdirectory E that cannot be opened, listed in
    front of its sibling F, which holds the file g, and the file f1. *)
Definition sibling_fs (name : string) : option (list dirent) :=
  if String.eqb name "/R" then
    Some [mkDirent "." DT_DIR; mkDirent ".." DT_DIR; mkDirent "E" DT_DIR;
          mkDirent "F" DT_DIR; mkDirent "f1" DT_REG]
  else if String.eqb name "/R/F" then
    Some [mkDirent "." DT_DIR; mkDirent ".." DT_DIR; mkDirent "g" DT_REG]
  else None.

(* ================================================================== *)
(** * File streams (src/inputoutput.cxx) *)

(** The null character that ends a C string. *)
Definition NUL : ascii := Ascii.zero.

(** The String made from a [char *]: the characters before the first
    null character. *)
Fixpoint c_str (Buffer : string) : string :=
  match Buffer with
  | EmptyString => EmptyString
  | String a t => if Ascii.eqb a NUL then EmptyString else String a (c_str t)
  end.

(** The [for] loop of [FileInput::operator >>(String &)] from
    BufferIndex on: [rest] is the initialised part of the buffer from
    that index, [prev] the character before it.  The result is the
    buffer from BufferIndex - 1 on, [None] when the loop runs into the
    part of the buffer that was never written. *)
Fixpoint strip_from (prev : ascii) (rest : string) : option string :=
  match rest with
  | EmptyString => None
  | String a t =>
      if Ascii.eqb a NUL then Some (String NUL (String a t))
      else option_map (String prev) (strip_from a t)
  end.

Module FileStreams.
Section Stdio.

(** The state of the C library: the open streams and errno. *)
Variable World : Type.

(** A stream, i.e. a [FILE *] that is not null. *)
Variable FILE : Type.
Variable feof ferror : FILE -> World -> bool.

Definition CheckOutput (File : option FILE) (w : World) : Outcome unit :=
  match File with
  | None => AssertFail
  | Some f =>
      if feof f w then Throw (System "Received end-of-file while writing to file.")
      else if ferror f w then Throw (System "File is in the error state.")
      else Return tt
  end.

(** [Result] is a size_t, so [Result <= 0] holds for 0 only. *)
Definition CheckWriteResult (File : option FILE) (Result : N) (w : World)
  : Outcome unit :=
  if (Result <=? 0)%N then
    match File with
    | None => Undefined
    | Some f =>
        if ferror f w then
          Throw (System "Encountered error while writing; write failed.")
        else if feof f w then
          Throw (System "Received end-of-file while writing; write failed.")
        else Return tt
    end
  else Return tt.

(** The [FileOutput::operator <<] of char, int, long int, long unsigned
    int, unsigned int, float, double and String: [print f w] is the
    call [fprintf(File, format, Data)], giving the int it returns and
    the state it leaves. *)
Definition FileOutput_print (print : FILE -> World -> Z * World)
    (File : option FILE) (w : World) : Outcome World :=
  _ <- CheckOutput File w ;;
  match File with
  | None => Undefined
  | Some f =>
      let (r, w') := print f w in
      let Result := size_t_wrap r in
      _ <- CheckWriteResult File Result w' ;;
      Return w'
  end.

(** [fprintf(stdout, "%02x", byte)]: the int returned and the state left. *)
Variable print_hex_stdout : ascii -> World -> Z * World.

(** The loop of [FileOutput::operator <<(HexToken const &)] over the
    bytes of [Data]; both [NewResult] and [Result] are size_t. *)
Fixpoint HexToken_loop (Data : list ascii) (Result : N) (w : World) : N * World :=
  match Data with
  | [] => (Result, w)
  | byte :: Data' =>
      let (r, w') := print_hex_stdout byte w in
      let NewResult := size_t_wrap r in
      let Result' :=
        if (NewResult <? 0)%N && (0 <=? Result)%N then NewResult else Result in
      HexToken_loop Data' Result' w'
  end.

Definition FileOutput_HexToken (File : option FILE) (Data : list ascii) (w : World)
  : Outcome World :=
  let (Result, w') := HexToken_loop Data 0%N w in
  _ <- CheckWriteResult File Result w' ;;
  Return w'.

(** [fgets(Buffer, BufferSize, File)] on the stream of a FileInput:
    [None] for a null result, otherwise the characters stored in the
    buffer in front of the terminating null character. *)
Variable fgets : N -> World -> option string * World.
Variable errno : World -> Z.
Variable EINVAL : Z.

(** The buffer of [BufferSize] characters after a successful [fgets]:
    its initialised part.  Storing more than the buffer holds is
    undefined. *)
Definition fgets_buffer (BufferSize : N) (c : string) : Outcome string :=
  if (BufferSize <=? size c)%N then Undefined
  else Return (c ++ String NUL EmptyString).

(** The [for] loop that ends the string one character early.  The
    assignment [Buffer[BufferSize - 1] = 0] after it writes behind a
    null character or over one, and does not change the String that is
    read from the buffer. *)
Definition strip (Buffer : string) : Outcome string :=
  match Buffer with
  | EmptyString => Undefined
  | String b0 rest =>
      match strip_from b0 rest with
      | Some Buffer' => Return Buffer'
      | None => Undefined
      end
  end.

(** The [while] loop of [FileInput::operator >>(String &)]; memory for
    the buffer is taken to be available. *)
Fixpoint FileInput_read_loop (fuel : nat) (BufferSize : N) (w : World) (Data : string)
  : Outcome (string * World) :=
  match fuel with
  | O => OutOfFuel
  | S fuel' =>
      if (BufferSize <? 1024 * 1024 * 10)%N then
        let (Result, w') := fgets BufferSize w in
        match Result with
        | Some c =>
            Buffer <- fgets_buffer BufferSize c ;;
            Buffer' <- strip Buffer ;;
            Return (c_str Buffer', w')
        | None =>
            if negb (errno w' =? EINVAL)%Z then Return (Data, w')
            else FileInput_read_loop fuel' (size_t_wrap (Z.of_N BufferSize * 2)) w' Data
        end
      else Return (Data, w)
  end.

(** [FileInput::operator >>(String &Data)]: the buffer starts at 4096
    characters and doubles, so the loop test is evaluated at most
    thirteen times. *)
Definition FileInput_read_String (w : World) (Data : string)
  : Outcome (string * World) :=
  FileInput_read_loop 13 (1024 * 4)%N w Data.

End Stdio.

Arguments CheckOutput {World FILE} feof ferror File w.
Arguments CheckWriteResult {World FILE} feof ferror File Result w.
Arguments FileOutput_print {World FILE} feof ferror print File w.
Arguments HexToken_loop {World} print_hex_stdout Data Result w.
Arguments FileOutput_HexToken {World FILE} feof ferror print_hex_stdout File Data w.
Arguments FileInput_read_loop {World} fgets errno EINVAL fuel BufferSize w Data.
Arguments FileInput_read_String {World} fgets errno EINVAL w Data.

End FileStreams.

(* ================================================================== *)
(** * Reference definitions, following the specification's wording *)

(** Tokens of a string delimited by the character [c] (section 4.1):
    consecutive separators give empty tokens, a trailing separator a
    final empty token, and the last token runs to the end. *)
Fixpoint split_on (c : ascii) (s : string) : list string :=
  match s with
  | EmptyString => [EmptyString]
  | String a t =>
      if Ascii.eqb a c then EmptyString :: split_on c t
      else match split_on c t with
           | h :: r => String a h :: r
           | [] => [String a EmptyString]
           end
  end.

(** Offset of the separator that ends the first token of [r]: the next
    "/", and with WINDOWS the next "\" when no "/" is left. *)
Definition next_separator (WINDOWS : bool) (r : string) : option nat :=
  match index_of slash r with
  | Some k => Some k
  | None => if WINDOWS then index_of backslash r else None
  end.

(** The tokens of [r] as [PathStringIterator] cuts them; [n] bounds the
    number of separators and is taken to be the length of [r]. *)
Fixpoint tokens_upto (WINDOWS : bool) (n : nat) (r : string) : list string :=
  match next_separator WINDOWS r with
  | None => [r]
  | Some k =>
      match n with
      | O => [r]
      | S n' => take k r :: tokens_upto WINDOWS n' (drop (S k) r)
      end
  end.

Definition tokens (WINDOWS : bool) (s : string) : list string :=
  tokens_upto WINDOWS (String.length s) s.

(** Number of leading segments that ".." never removes: the drive
    segment with WINDOWS, none otherwise. *)
Definition reserved (WINDOWS : bool) : nat := if WINDOWS then 1 else 0.

(** The normalizer of section 4.2 over a token list and a segment
    stack; [None] is the root escape. *)
Fixpoint normalize (WINDOWS : bool) (toks : list string) (stack : list string)
  : option (list string) :=
  match toks with
  | [] => Some stack
  | t :: toks' =>
      if String.eqb t "" then normalize WINDOWS toks' stack
      else if String.eqb t "." then normalize WINDOWS toks' stack
      else if String.eqb t ".." then
        if (List.length stack <=? reserved WINDOWS)%nat then None
        else normalize WINDOWS toks' (removelast stack)
      else normalize WINDOWS toks' (stack ++ [t])%list
  end.

(** A ".." token arrives when the stack holds nothing it may pop. *)
Definition root_escape (WINDOWS : bool) (toks : list string) : Prop :=
  exists pre post stack,
    toks = (pre ++ ".." :: post)%list /\
    normalize WINDOWS pre [] = Some stack /\
    (List.length stack <= reserved WINDOWS)%nat.

(** A segment: not empty, not "." and not "..". *)
Definition is_segment (p : string) : Prop := p <> "" /\ p <> "." /\ p <> "..".

Definition normalized (ps : list string) : Prop := Forall is_segment ps.

(** The loop of [Path::Path] with the tokens collected instead of
    being consumed. *)
Fixpoint Tokenize (WINDOWS : bool) (fuel : nat) (it : PathStringIterator)
  : Outcome (list string) :=
  match fuel with
  | O => OutOfFuel
  | S fuel' =>
      let (more, it') := FindNext WINDOWS it in
      if more then
        Part <- Read it' ;;
        rest <- Tokenize WINDOWS fuel' it' ;;
        Return (Part :: rest)
      else Return []
  end.

(** A string that a [size_t] can measure: shorter than [npos]. *)
Definition fits (s : string) : Prop := (size s < npos)%N.

(** The absolute string of a non-empty segment list on a root-relative
    platform: every segment preceded by one separator. *)
Fixpoint separator_prefixed (ps : list string) : string :=
  match ps with
  | [] => ""
  | p :: ps' => "/" ++ p ++ separator_prefixed ps'
  end.

(** Characters a segment list takes in a string, one separator each. *)
Fixpoint weight (ps : list string) : nat :=
  match ps with
  | [] => 0
  | p :: ps' => S (String.length p) + weight ps'
  end.

Definition separator_free (p : string) : Prop := index_of slash p = None.

(** Length of the common segment prefix (section 4.4): lock-step exact
    comparison from index 0, stopping at the first mismatch or when
    either sequence is exhausted. *)
Fixpoint common_prefix_length (a b : list string) : nat :=
  match a, b with
  | x :: a', y :: b' => if String.eqb x y then S (common_prefix_length a' b') else 0
  | _, _ => 0
  end.

(** The tokens of the relative string (section 4.3): one ".." per
    segment of the origin beyond the common prefix, then the segments of
    the path beyond it. *)
Definition relative_tokens (here from : list string) : list string :=
  let k := common_prefix_length here from in
  (repeat ".." (List.length from - k) ++ skipn k here)%list.

(** A use of the navigation interface of a DirectoryPath. *)
Inductive Navigation : Type :=
| DoEnter (Directory0 : string)
| DoExit
| DoSelect (File0 : string).

(** A sequence of navigation calls on one DirectoryPath object; the
    FilePaths that [Select] returned are collected, oldest first. *)
Fixpoint navigate (WINDOWS : bool) (calls : list Navigation) (d : DirectoryPath)
    (selected : list FilePath) : Outcome (DirectoryPath * list FilePath) :=
  match calls with
  | [] => Return (d, selected)
  | DoEnter name :: calls' => navigate WINDOWS calls' (Enter d name) selected
  | DoExit :: calls' => d' <- Exit WINDOWS d ;; navigate WINDOWS calls' d' selected
  | DoSelect name :: calls' =>
      navigate WINDOWS calls' d (selected ++ [Select d name])%list
  end.

Definition argument (call : Navigation) : option string :=
  match call with
  | DoEnter name | DoSelect name => Some name
  | DoExit => None
  end.

Definition argument_is_segment (call : Navigation) : Prop :=
  match argument call with
  | Some name => is_segment name
  | None => True
  end.

Definition argument_separator_free (call : Navigation) : Prop :=
  match argument call with
  | Some name => separator_free name
  | None => True
  end.

Definition backslash_free (p : string) : Prop := index_of backslash p = None.

(** The directories a walk can stand in: the walk root, and every
    subdirectory that [ListDirectories] returns for one of them. *)
Inductive Descended (opendir : string -> option (list dirent)) (root : list string)
  : list string -> Prop :=
| Descended_root : Descended opendir root root
| Descended_below (M : list string) (name : string) :
    Descended opendir root M ->
    In name (Walker.ListDirectories opendir (mkPath M)) ->
    Descended opendir root (M ++ [name])%list.

(** A callback argument that lies below the walk root: the segments of
    the root, then the names of directories each listed as a
    subdirectory of the one before, then a name that [ListFiles]
    returns for the last of them. *)
Definition reported_below (opendir : string -> option (list dirent))
    (root : list string) (f : FilePath) : Prop :=
  exists path name,
    Parts f = (root ++ path ++ [name])%list /\
    Descended opendir root (root ++ path)%list /\
    In name (Walker.ListFiles opendir (mkPath (root ++ path)%list)).

(** A filesystem of unbounded depth: every directory holds the file
    "note" and a subdirectory "again". *)
Definition cyclic_fs (name : string) : option (list dirent) :=
  Some [mkDirent "." DT_DIR; mkDirent "again" DT_DIR; mkDirent "note" DT_REG].

(** A directory "/srv" holding the file "motd" and the directory "www",
    which holds the directory "site", which holds the file "index". *)
Definition nested_fs (name : string) : option (list dirent) :=
  if String.eqb name "/srv" then
    Some [mkDirent "." DT_DIR; mkDirent ".." DT_DIR; mkDirent "motd" DT_REG;
          mkDirent "www" DT_DIR]
  else if String.eqb name "/srv/www" then
    Some [mkDirent "." DT_DIR; mkDirent ".." DT_DIR; mkDirent "site" DT_DIR]
  else if String.eqb name "/srv/www/site" then
    Some [mkDirent "." DT_DIR; mkDirent ".." DT_DIR; mkDirent "index" DT_REG]
  else None.

(** Number of occurrences of a character in a string. *)
Fixpoint occurrences (c : ascii) (s : string) : nat :=
  match s with
  | EmptyString => 0
  | String a t => (if Ascii.eqb a c then 1 else 0) + occurrences c t
  end.

(** A string without its last character. *)
Definition without_last (s : string) : string := take (String.length s - 1) s.

(** The line feed character. *)
Definition newline : ascii := "010"%char.

(** A string that holds no null character. *)
Definition nul_free (s : string) : Prop := index_of NUL s = None.

(** The state a sequence of writes to the standard output leaves. *)
Definition after_prints {World : Type} (print : ascii -> World -> Z * World)
    (Data : list ascii) (w : World) : World :=
  fold_left (fun w byte => snd (print byte w)) Data w.

(* ================================================================== *)
(** * Facts about strings *)

Lemma npos_value : npos = 18446744073709551615%N.
Proof. reflexivity. Qed.

Lemma size_t_wrap_small (z : Z) :
  (0 <= z < 18446744073709551616)%Z -> size_t_wrap z = Z.to_N z.
Proof.
  intros H. unfold size_t_wrap, size_t_modulus.
  change (2 ^ 64)%Z with 18446744073709551616%Z.
  rewrite Z.mod_small by lia. reflexivity.
Qed.

Lemma length_drop (n : nat) (s : string) :
  String.length (drop n s) = String.length s - n.
Proof.
  revert s. induction n as [|n IH]; intros s; simpl.
  - lia.
  - destruct s as [|a t]; simpl; [reflexivity | apply IH].
Qed.

Lemma drop_drop (a b : nat) (s : string) : drop a (drop b s) = drop (b + a) s.
Proof.
  revert s. induction b as [|b IH]; intros s; simpl.
  - reflexivity.
  - destruct s as [|c t].
    + destruct a; reflexivity.
    + apply IH.
Qed.

Lemma take_all (n : nat) (s : string) : String.length s <= n -> take n s = s.
Proof.
  revert s. induction n as [|n IH]; intros s H.
  - destruct s; simpl in *; [reflexivity | lia].
  - destruct s as [|a t]; simpl in *; [reflexivity|].
    f_equal. apply IH. lia.
Qed.

Lemma index_of_bound (c : ascii) (s : string) (k : nat) :
  index_of c s = Some k -> k < String.length s.
Proof.
  revert k. induction s as [|a t IH]; intros k H; simpl in *.
  - discriminate.
  - destruct (Ascii.eqb a c).
    + injection H as <-. lia.
    + destruct (index_of c t) as [j|]; simpl in H; [|discriminate].
      injection H as <-. specialize (IH j eq_refl). lia.
Qed.

Lemma next_separator_bound (W : bool) (r : string) (k : nat) :
  next_separator W r = Some k -> k < String.length r.
Proof.
  unfold next_separator. intros H.
  destruct (index_of slash r) as [j|] eqn:E.
  - injection H as <-. eapply index_of_bound; eassumption.
  - destruct W; [|discriminate]. eapply index_of_bound; eassumption.
Qed.

Lemma tokens_upto_irrelevant (W : bool) (n : nat) :
  forall m r, String.length r <= n -> String.length r <= m ->
              tokens_upto W n r = tokens_upto W m r.
Proof.
  induction n as [|n IH]; intros m r Hn Hm.
  - destruct r; [|simpl in Hn; lia]. destruct m, W; reflexivity.
  - destruct m as [|m].
    + destruct r; [|simpl in Hm; lia]. destruct W; reflexivity.
    + cbn [tokens_upto]. destruct (next_separator W r) as [k|] eqn:E; [|reflexivity].
      f_equal. apply next_separator_bound in E.
      apply IH; rewrite length_drop; lia.
Qed.

Lemma tokens_upto_enough (W : bool) (n : nat) (r : string) :
  String.length r <= n -> tokens_upto W n r = tokens W r.
Proof. intros H. apply tokens_upto_irrelevant; [exact H | lia]. Qed.

Lemma drop_all (n : nat) (s : string) : String.length s <= n -> drop n s = "".
Proof.
  revert s. induction n as [|n IH]; intros s H.
  - destruct s; simpl in *; [reflexivity | lia].
  - destruct s as [|a t]; simpl in *; [reflexivity | apply IH; lia].
Qed.

Lemma take_O (s : string) : take 0 s = "".
Proof. destruct s; reflexivity. Qed.

(* ================================================================== *)
(** * The tokenizer *)

Section Tokenizer.

Variable W : bool.
Variable s : string.
Hypothesis s_fits : fits s.

Lemma FindNext_at (prev : N) (m : nat) :
  m <= String.length s ->
  FindNext W (mkIterator s prev (N.of_nat m)) =
  (true, mkIterator s (N.of_nat m)
           match next_separator W (drop m s) with
           | Some k => N.of_nat (m + k + 1)
           | None => npos
           end).
Proof.
  intros Hm. pose proof npos_value as Hn. unfold fits, size in s_fits.
  unfold FindNext. cbn [Marker PathString]. cbv zeta.
  destruct (N.eqb_spec (N.of_nat m) npos) as [E|_]; [lia|].
  unfold find, size.
  destruct (N.ltb_spec (N.of_nat (String.length s)) (N.of_nat m)) as [E|_]; [lia|].
  rewrite Nat2N.id. unfold next_separator.
  assert (Hwrap : forall k, k < String.length (drop m s) ->
            ((N.of_nat m + N.of_nat k =? npos)%N = false) /\
            size_t_wrap (Z.of_N (N.of_nat m + N.of_nat k) + 1) = N.of_nat (m + k + 1)).
  { intros k Hk. rewrite length_drop in Hk. split.
    - apply N.eqb_neq. lia.
    - rewrite size_t_wrap_small by lia. lia. }
  destruct (index_of slash (drop m s)) as [k|] eqn:E1.
  - apply index_of_bound in E1. destruct (Hwrap k E1) as [H1 H2].
    destruct W; repeat (rewrite H1; cbv iota); cbn [negb]; rewrite H2; reflexivity.
  - destruct W.
    + rewrite N.eqb_refl.
      destruct (index_of backslash (drop m s)) as [k|] eqn:E2.
      * apply index_of_bound in E2. destruct (Hwrap k E2) as [H1 H2].
        repeat (rewrite H1; cbv iota); cbn [negb]; rewrite H2; reflexivity.
      * rewrite N.eqb_refl. reflexivity.
    + rewrite N.eqb_refl. reflexivity.
Qed.

Lemma FindNext_done (it : PathStringIterator) :
  Marker it = npos -> FindNext W it = (false, it).
Proof. intros H. unfold FindNext. rewrite H, N.eqb_refl. reflexivity. Qed.

Lemma Read_separated (m k : nat) :
  m + k < String.length s ->
  Read (mkIterator s (N.of_nat m) (N.of_nat (m + k + 1))) = Return (take k (drop m s)).
Proof.
  intros Hk. pose proof npos_value as Hn. unfold fits, size in s_fits.
  unfold Read. cbn [Marker PreviousMarker PathString].
  destruct (N.ltb_spec 0 (N.of_nat (m + k + 1))) as [_|E]; [|lia]. cbn [negb].
  rewrite size_t_wrap_small by lia.
  replace (Z.to_N (Z.of_N (N.of_nat (m + k + 1)) - 1 - Z.of_N (N.of_nat m)))
    with (N.of_nat k) by lia.
  destruct (N.eqb_spec (N.of_nat k) 0) as [E|E].
  - assert (k = 0) as -> by lia. rewrite take_O. reflexivity.
  - unfold substr, size.
    destruct (N.ltb_spec (N.of_nat (String.length s)) (N.of_nat m)) as [E'|_]; [lia|].
    rewrite Nat2N.id. do 2 f_equal. lia.
Qed.

Lemma Read_final (m : nat) :
  m <= String.length s ->
  Read (mkIterator s (N.of_nat m) npos) = Return (drop m s).
Proof.
  intros Hm. pose proof npos_value as Hn. unfold fits, size in s_fits.
  unfold Read. cbn [Marker PreviousMarker PathString].
  destruct (N.ltb_spec 0 npos) as [_|E]; [|lia]. cbn [negb].
  rewrite size_t_wrap_small by lia.
  destruct (N.eqb_spec (Z.to_N (Z.of_N npos - 1 - Z.of_N (N.of_nat m))) 0) as [E|E].
  - rewrite drop_all by lia. reflexivity.
  - unfold substr, size.
    destruct (N.ltb_spec (N.of_nat (String.length s)) (N.of_nat m)) as [E'|_]; [lia|].
    rewrite Nat2N.id. f_equal. apply take_all. rewrite length_drop. lia.
Qed.

(** With enough fuel the iterator yields exactly the tokens of the rest
    of the string. *)
Lemma Tokenize_from (fuel : nat) :
  forall (prev : N) (m : nat),
    m <= String.length s ->
    String.length s - m + 2 <= fuel ->
    Tokenize W fuel (mkIterator s prev (N.of_nat m)) = Return (tokens W (drop m s)).
Proof.
  induction fuel as [|fuel IH]; intros prev m Hm Hf; [lia|].
  cbn [Tokenize]. rewrite (FindNext_at prev m Hm).
  unfold tokens. rewrite length_drop.
  destruct (next_separator W (drop m s)) as [k|] eqn:E.
  - pose proof (next_separator_bound _ _ _ E) as Hk. rewrite length_drop in Hk.
    rewrite Read_separated by lia. cbn [bind].
    rewrite IH by lia. cbn [bind].
    destruct (String.length s - m) as [|n] eqn:En; [lia|].
    cbn [tokens_upto]. rewrite E. rewrite drop_drop.
    replace (m + S k) with (m + k + 1) by lia.
    rewrite (tokens_upto_enough W n) by (rewrite length_drop; lia).
    reflexivity.
  - rewrite Read_final by exact Hm. cbn [bind].
    destruct fuel as [|fuel']; [lia|]. cbn [Tokenize].
    rewrite FindNext_done by reflexivity. cbn [bind].
    destruct (String.length s - m); cbn [tokens_upto]; rewrite E; reflexivity.
Qed.

Lemma Tokenize_all (fuel : nat) :
  String.length s + 2 <= fuel ->
  Tokenize W fuel (PathStringIterator_new s) = Return (tokens W s).
Proof.
  intros H. unfold PathStringIterator_new.
  change 0%N with (N.of_nat 0). rewrite Tokenize_from by lia. reflexivity.
Qed.

End Tokenizer.

(* ================================================================== *)
(** * The normalizer *)

Lemma split_on_no_separator (c : ascii) (r : string) :
  index_of c r = None -> split_on c r = [r].
Proof.
  induction r as [|a t IH]; intros H; simpl in *; [reflexivity|].
  destruct (Ascii.eqb a c); [discriminate|].
  destruct (index_of c t); [discriminate|]. rewrite IH; reflexivity.
Qed.

Lemma split_on_separator (c : ascii) (r : string) (k : nat) :
  index_of c r = Some k -> split_on c r = take k r :: split_on c (drop (S k) r).
Proof.
  revert k. induction r as [|a t IH]; intros k H; simpl in *; [discriminate|].
  destruct (Ascii.eqb a c).
  - injection H as <-. reflexivity.
  - destruct (index_of c t) as [j|]; [|discriminate]. injection H as <-.
    rewrite (IH j eq_refl). reflexivity.
Qed.

Lemma tokens_upto_split (n : nat) :
  forall r, String.length r <= n -> tokens_upto false n r = split_on slash r.
Proof.
  induction n as [|n IH]; intros r H.
  - destruct r; [reflexivity | simpl in H; lia].
  - cbn [tokens_upto]. unfold next_separator.
    destruct (index_of slash r) as [k|] eqn:E.
    + rewrite (split_on_separator _ _ _ E). f_equal.
      apply index_of_bound in E. apply IH. rewrite length_drop. lia.
    + symmetry. apply split_on_no_separator. exact E.
Qed.

(** Without WINDOWS the iterator's tokens are the "/"-delimited ones. *)
Lemma tokens_posix (s : string) : tokens false s = split_on slash s.
Proof. apply tokens_upto_split. lia. Qed.

(** The constructor's loop is the normalizer run over the tokens. *)
Lemma Path_scan_normalize (W : bool) (fuel : nat) :
  forall it toks Parts0,
    Tokenize W fuel it = Return toks ->
    Path_scan W fuel it Parts0 =
    match normalize W toks Parts0 with
    | Some ps => Return ps
    | None => Throw (Construction root_level_message)
    end.
Proof.
  induction fuel as [|fuel IH]; intros it toks Parts0 H; [discriminate|].
  cbn [Tokenize Path_scan] in *.
  destruct (FindNext W it) as [[|] it'].
  - destruct (Read it') as [Part| | | |]; cbn [bind] in *; try discriminate.
    destruct (Tokenize W fuel it') as [rest| | | |] eqn:ET; cbn [bind] in H;
      try discriminate.
    injection H as <-. cbn [normalize].
    destruct (String.eqb_spec Part "") as [->|N1]; [apply IH; exact ET|].
    destruct (String.eqb_spec Part "..") as [->|N2].
    + cbn [String.eqb Ascii.eqb Bool.eqb].
      destruct Parts0 as [|a [|b l]]; cbn [is_empty List.length Nat.eqb Nat.leb andb].
      * reflexivity.
      * destruct W; cbn [reserved Nat.leb andb]; [reflexivity|].
        apply IH; exact ET.
      * destruct W; cbn [reserved Nat.leb andb]; apply IH; exact ET.
    + destruct (String.eqb_spec Part ".") as [->|N3]; apply IH; exact ET.
  - injection H as <-. reflexivity.
Qed.

Lemma Path_scan_run (W : bool) (s : string) (fuel : nat) :
  fits s -> String.length s + 2 <= fuel ->
  Path_scan W fuel (PathStringIterator_new s) [] =
  match normalize W (tokens W s) [] with
  | Some ps => Return ps
  | None => Throw (Construction root_level_message)
  end.
Proof.
  intros Hs Hf. apply Path_scan_normalize. apply Tokenize_all; assumption.
Qed.

(** The loop bound of [Path_new] is never reached, and a larger one
    changes nothing. *)
Lemma Path_new_fuel_enough (W : bool) (s : string) (fuel : nat) :
  fits s -> String.length s + 2 <= fuel -> Path_new_fuel W fuel s = Path_new W s.
Proof.
  intros Hs Hf. unfold Path_new, Path_new_fuel.
  destruct (empty s); [reflexivity|].
  destruct (negb (IsAbsolute W s)); [reflexivity|].
  rewrite !Path_scan_run by (assumption || lia). reflexivity.
Qed.

Lemma Path_new_unfold (W : bool) (s : string) :
  fits s ->
  Path_new W s =
  if empty s then Throw (Construction "Absolute paths must not be empty.")
  else if negb (IsAbsolute W s) then
    Throw (Construction "Base paths must be constructed with absolute paths.")
  else match normalize W (tokens W s) [] with
       | Some ps => Return (mkPath ps)
       | None => Throw (Construction root_level_message)
       end.
Proof.
  intros Hs. unfold Path_new, Path_new_fuel.
  destruct (empty s); [reflexivity|].
  destruct (negb (IsAbsolute W s)); [reflexivity|].
  rewrite Path_scan_run by (assumption || lia).
  destruct (normalize W (tokens W s) []); reflexivity.
Qed.

Lemma empty_iff (s : string) : empty s = true <-> s = "".
Proof.
  unfold empty, size. rewrite N.eqb_eq. split.
  - destruct s; [reflexivity | simpl; lia].
  - intros ->. reflexivity.
Qed.

Lemma normalize_escape (W : bool) (toks : list string) :
  forall st,
    normalize W toks st = None <->
    exists pre post stack,
      toks = (pre ++ ".." :: post)%list /\
      normalize W pre st = Some stack /\
      List.length stack <= reserved W.
Proof.
  induction toks as [|t toks IH]; intros st; cbn [normalize].
  - split; [discriminate|]. intros (pre & post & stack & E & _).
    destruct pre; discriminate.
  - destruct (String.eqb t "") eqn:E1;
      [|destruct (String.eqb t ".") eqn:E2;
        [|destruct (String.eqb t "..") eqn:E3;
          [destruct (Nat.leb_spec (List.length st) (reserved W)) as [L|L]|]]].
    all: split.
    all: try (rewrite IH; intros (pre & post & stack & E & Hn & Hl);
              exists (t :: pre), post, stack; cbn [normalize app];
              rewrite ?E1, ?E2, ?E3; rewrite E;
              try (destruct (Nat.leb_spec (List.length st) (reserved W)); [lia|]);
              auto; fail).
    all: try (intros (pre & post & stack & E & Hn & Hl);
              destruct pre as [|t' pre];
              [ cbn [app] in E; injection E as -> _; discriminate
              | cbn [app] in E; injection E as <- ->; cbn [normalize] in Hn;
                rewrite ?E1, ?E2, ?E3 in Hn; apply IH;
                try (destruct (Nat.leb_spec (List.length st) (reserved W)); [lia|]);
                exists pre, post, stack; auto ]; fail).
    + intros _. apply String.eqb_eq in E3. subst t.
      exists [], toks, st. auto.
    + reflexivity.
    + intros (pre & post & stack & E & Hn & Hl). destruct pre as [|t' pre].
      * cbn [normalize] in Hn. injection Hn as <-. lia.
      * cbn [app] in E. injection E as <- ->. cbn [normalize] in Hn.
        rewrite E1, E2, E3 in Hn.
        destruct (Nat.leb_spec (List.length st) (reserved W)); [lia|].
        apply IH. exists pre, post, stack. auto.
Qed.

Lemma normalize_root_escape (W : bool) (toks : list string) :
  normalize W toks [] = None <-> root_escape W toks.
Proof. apply normalize_escape. Qed.

Lemma removelast_Forall {A : Type} (P : A -> Prop) (l : list A) :
  Forall P l -> Forall P (removelast l).
Proof.
  induction l as [|a l IH]; intros H; [constructor|].
  inversion H; subst. destruct l as [|b l]; [constructor|].
  cbn [removelast]. constructor; [assumption | apply IH; assumption].
Qed.

(** Whatever holds of the initial stack and of every token that is
    pushed holds of every segment of the result. *)
Lemma normalize_Forall (W : bool) (P : string -> Prop) (toks : list string) :
  forall st ps,
    (forall t, In t toks -> t <> "" -> t <> "." -> t <> ".." -> P t) ->
    Forall P st ->
    normalize W toks st = Some ps ->
    Forall P ps.
Proof.
  induction toks as [|t toks IH]; intros st ps Ht Hst H; cbn [normalize] in H.
  - injection H as <-. exact Hst.
  - assert (Ht' : forall t0, In t0 toks -> t0 <> "" -> t0 <> "." -> t0 <> ".." -> P t0)
      by (intros; apply Ht; [right|..]; assumption).
    destruct (String.eqb_spec t "") as [->|N1]; [eapply IH; eassumption|].
    destruct (String.eqb_spec t ".") as [->|N2]; [eapply IH; eassumption|].
    destruct (String.eqb_spec t "..") as [->|N3].
    + destruct (List.length st <=? reserved W)%nat; [discriminate|].
      eapply IH; [exact Ht' | | exact H]. apply removelast_Forall. exact Hst.
    + eapply IH; [exact Ht' | | exact H]. apply Forall_app. split; [exact Hst|].
      constructor; [|constructor]. apply Ht; [left; reflexivity | assumption..].
Qed.

Lemma normalize_normalized (W : bool) (toks ps : list string) :
  normalize W toks [] = Some ps -> normalized ps.
Proof.
  intros H. eapply normalize_Forall; [| constructor | exact H].
  intros t _ N1 N2 N3. repeat split; assumption.
Qed.

(* ================================================================== *)
(** * Path construction *)

(** C2. Constructing a Path from a valid absolute string (one that a
    [size_t] can measure, not empty, absolute, with no ".." escaping the
    root) returns a Path whose segments are the result of the section 4.2
    normalizer over the tokens: empty and "." tokens discarded, ".."
    popping the last pushed segment.  The segments hold no "", "." or
    "..".  The tokens are those [PathStringIterator] reads; without
    WINDOWS they are the "/"-delimited ones, and "/a/./b/../c" and
    "/a/c" construct the same Path, of segments a, c. *)
Theorem Path_new_normalizes :
  (forall (W : bool) (s : string),
      fits s -> s <> "" -> IsAbsolute W s = true -> ~ root_escape W (tokens W s) ->
      exists p, Path_new W s = Return p /\
                normalize W (tokens W s) [] = Some (Parts p) /\
                normalized (Parts p)) /\
  (forall (W : bool) (s : string),
      fits s ->
      Tokenize W (String.length s + 2) (PathStringIterator_new s) = Return (tokens W s)) /\
  (forall s, tokens false s = split_on slash s) /\
  Path_new false "/a/./b/../c" = Return (mkPath ["a"; "c"]) /\
  Path_new false "/a/c" = Return (mkPath ["a"; "c"]).
Proof.
  split; [|split; [|split; [exact tokens_posix | split; reflexivity]]].
  2:{ intros W s Hfit. apply Tokenize_all; [exact Hfit | lia]. }
  intros W s Hfit Hne Habs Hesc.
  rewrite Path_new_unfold by exact Hfit.
  destruct (empty s) eqn:Ee; [apply empty_iff in Ee; contradiction|].
  rewrite Habs. cbn [negb].
  destruct (normalize W (tokens W s) []) as [ps|] eqn:En.
  - exists (mkPath ps). cbn [Parts]. repeat split; try reflexivity.
    all: eapply normalize_normalized; exact En.
  - apply normalize_root_escape in En. contradiction.
Qed.

Lemma Path_new_normalizes_witness :
  exists p, Path_new false "//usr/./lib/../bin/" = Return p /\
            normalize false (tokens false "//usr/./lib/../bin/") [] = Some (Parts p) /\
            normalized (Parts p).
Proof.
  apply (proj1 Path_new_normalizes false "//usr/./lib/../bin/").
  - reflexivity.
  - discriminate.
  - reflexivity.
  - intros H. apply normalize_root_escape in H. vm_compute in H. discriminate.
Defined.

(** C3. Path construction raises a Construction error exactly when the
    input is empty, or fails the platform's absolute-prefix predicate, or
    a ".." token arrives while the segment stack is empty (with WINDOWS:
    while it holds at most the drive segment).  Every other input returns
    a Path: nothing else is raised and the loop always ends.  The error
    is the constructor's own outcome, so it reaches the caller. *)
Theorem Path_new_raises_iff (W : bool) (s : string) :
  fits s ->
  ((exists what, Path_new W s = Throw (Construction what)) <->
   (s = "" \/ IsAbsolute W s = false \/ root_escape W (tokens W s))) /\
  ((exists what, Path_new W s = Throw (Construction what)) \/
   (exists p, Path_new W s = Return p)).
Proof.
  intros Hfit. rewrite Path_new_unfold by exact Hfit.
  destruct (empty s) eqn:Ee.
  { apply empty_iff in Ee. split; [split|]; eauto. }
  assert (Hne : s <> "") by (intros E; apply empty_iff in E; congruence).
  destruct (IsAbsolute W s) eqn:Ea; cbn [negb].
  2:{ split; [split|]; eauto. }
  destruct (normalize W (tokens W s) []) as [ps|] eqn:En.
  - split; [split|].
    + intros [what H]. discriminate.
    + intros [E|[E|E]]; [contradiction | discriminate |].
      apply normalize_root_escape in E. congruence.
    + right. eauto.
  - apply normalize_root_escape in En. split; [split|]; eauto.
Qed.

Lemma Path_new_raises_iff_witness :
  exists what, Path_new false "/../x" = Throw (Construction what).
Proof.
  apply (proj1 (Path_new_raises_iff false "/../x" eq_refl)).
  right; right. exists [""], ["x"], []. repeat split. cbn. lia.
Defined.

(** The drive-letter text of the parser on some inputs: a "\" ends a
    token only once no "/" is left, and ".." stops at the drive
    segment. *)
Example Path_new_drive_letter :
  Path_new true "C:\Users/guest/../admin" = Return (mkPath ["C:\Users"; "admin"]) /\
  Path_new true "C:\Users\guest" = Return (mkPath ["C:"; "Users"; "guest"]) /\
  Path_new true "C:/.." = Throw (Construction root_level_message) /\
  Path_new true "/usr" = Throw (Construction "Base paths must be constructed with absolute paths.").
Proof. repeat split. Qed.

(* ================================================================== *)
(** * Absolute strings *)

Lemma append_assoc (a b c : string) : (a ++ b) ++ c = a ++ (b ++ c).
Proof. induction a as [|x a IH]; simpl; [reflexivity | rewrite IH; reflexivity]. Qed.

Lemma append_empty_r (a : string) : a ++ "" = a.
Proof. induction a as [|x a IH]; simpl; [reflexivity | rewrite IH; reflexivity]. Qed.

Lemma length_append (a b : string) :
  String.length (a ++ b) = String.length a + String.length b.
Proof. induction a as [|x a IH]; simpl; [reflexivity | rewrite IH; reflexivity]. Qed.

Lemma fold_left_separator_prefixed (ps : list string) :
  forall Out,
    fold_left (fun (Out : string) (Part : string) => (Out ++ "/") ++ Part) ps Out =
    Out ++ separator_prefixed ps.
Proof.
  induction ps as [|p ps IH]; intros Out; cbn [fold_left separator_prefixed].
  - symmetry. apply append_empty_r.
  - rewrite IH. rewrite !append_assoc. reflexivity.
Qed.

Lemma AsAbsoluteString_posix (p : Path) :
  AsAbsoluteString false p =
  match Parts p with
  | [] => "/"
  | _ :: _ => separator_prefixed (Parts p)
  end.
Proof.
  unfold AsAbsoluteString. rewrite fold_left_separator_prefixed.
  destruct (Parts p); reflexivity.
Qed.

Lemma length_separator_prefixed (ps : list string) :
  String.length (separator_prefixed ps) = weight ps.
Proof.
  induction ps as [|p ps IH]; [reflexivity|].
  cbn [separator_prefixed weight]. rewrite !length_append, IH. reflexivity.
Qed.

Lemma split_on_nonempty (c : ascii) (s : string) : split_on c s <> [].
Proof.
  induction s as [|a t IH]; simpl; [discriminate|].
  destruct (Ascii.eqb a c); [discriminate|].
  destruct (split_on c t); [contradiction | discriminate].
Qed.

Lemma split_on_after_free (p x : string) :
  separator_free p ->
  split_on slash (p ++ x) =
  match split_on slash x with
  | h :: r => (p ++ h) :: r
  | [] => [p]
  end.
Proof.
  unfold separator_free. induction p as [|a t IH]; intros H; simpl in *.
  - pose proof (split_on_nonempty slash x). destruct (split_on slash x); congruence.
  - destruct (Ascii.eqb a slash); [discriminate|].
    destruct (index_of slash t); [discriminate|].
    rewrite IH by reflexivity.
    pose proof (split_on_nonempty slash x). destruct (split_on slash x); congruence.
Qed.

Lemma split_on_separator_prefixed (ps : list string) :
  Forall separator_free ps ->
  split_on slash (separator_prefixed ps) =
  match ps with
  | [] => [""]
  | _ :: _ => "" :: ps
  end.
Proof.
  induction ps as [|p ps IH]; intros H; [reflexivity|].
  inversion H as [|? ? Hp Hps]; subst.
  cbn [separator_prefixed]. change ("/" ++ p ++ separator_prefixed ps)
    with (String slash (p ++ separator_prefixed ps)).
  cbn [split_on]. rewrite Ascii.eqb_refl.
  rewrite split_on_after_free by exact Hp. rewrite IH by exact Hps.
  destruct ps; rewrite ?append_empty_r; reflexivity.
Qed.

Lemma split_on_separator_free (s : string) : Forall separator_free (split_on slash s).
Proof.
  induction s as [|a t IH]; simpl.
  - constructor; [reflexivity | constructor].
  - destruct (Ascii.eqb a slash) eqn:E.
    + constructor; [reflexivity | exact IH].
    + destruct (split_on slash t) as [|h r]; [constructor; [|constructor]|].
      * unfold separator_free. simpl. rewrite E. reflexivity.
      * inversion IH as [|? ? Hh Hr]; subst. constructor; [|exact Hr].
        unfold separator_free in *. simpl. rewrite E, Hh. reflexivity.
Qed.

Lemma weight_app (a b : list string) : weight (a ++ b)%list = weight a + weight b.
Proof. induction a as [|x a IH]; cbn [weight app]; [reflexivity | rewrite IH; lia]. Qed.

Lemma weight_removelast (a : list string) : weight (removelast a) <= weight a.
Proof.
  induction a as [|x a IH]; [simpl; lia|].
  destruct a as [|y a]; [simpl; lia|].
  change (removelast (x :: y :: a)) with (x :: removelast (y :: a)).
  cbn [weight] in *. lia.
Qed.

Lemma weight_split_on (c : ascii) (s : string) :
  weight (split_on c s) = S (String.length s).
Proof.
  induction s as [|a t IH]; [reflexivity|]. cbn [split_on].
  destruct (Ascii.eqb a c).
  - cbn [weight String.length] in *. lia.
  - pose proof (split_on_nonempty c t).
    destruct (split_on c t) as [|h r]; [contradiction|].
    cbn [weight String.length] in *. lia.
Qed.

Lemma normalize_weight (W : bool) (toks : list string) :
  forall st ps, normalize W toks st = Some ps -> weight ps <= weight st + weight toks.
Proof.
  induction toks as [|t toks IH]; intros st ps H; cbn [normalize] in H.
  - injection H as <-. lia.
  - cbn [weight].
    destruct (String.eqb t ""); [apply IH in H; lia|].
    destruct (String.eqb t "."); [apply IH in H; lia|].
    destruct (String.eqb t "..").
    + destruct (List.length st <=? reserved W)%nat; [discriminate|].
      apply IH in H. pose proof (weight_removelast st). lia.
    + apply IH in H. rewrite weight_app in H. cbn [weight] in H. lia.
Qed.

Lemma normalize_segments (W : bool) (ps : list string) :
  forall st, normalized ps -> normalize W ps st = Some (st ++ ps)%list.
Proof.
  induction ps as [|p ps IH]; intros st H; cbn [normalize].
  - rewrite app_nil_r. reflexivity.
  - inversion H as [|? ? (N1 & N2 & N3) Hps]; subst.
    destruct (String.eqb_spec p ""); [contradiction|].
    destruct (String.eqb_spec p "."); [contradiction|].
    destruct (String.eqb_spec p ".."); [contradiction|].
    rewrite IH by exact Hps. rewrite <- app_assoc. reflexivity.
Qed.

Lemma IsAbsolute_posix (s : string) :
  IsAbsolute false s = true <-> exists t, s = String slash t.
Proof.
  unfold IsAbsolute, at_index. split.
  - destruct s as [|a t]; cbn; [discriminate|].
    destruct (Ascii.eqb_spec a slash) as [->|]; [eauto | discriminate].
  - intros [t ->]. reflexivity.
Qed.

(** What a successful root-relative construction establishes. *)
Lemma Path_new_posix_inv (s : string) (p : Path) :
  fits s -> Path_new false s = Return p ->
  normalized (Parts p) /\ Forall separator_free (Parts p) /\
  weight (Parts p) <= String.length s.
Proof.
  intros Hfit H. rewrite Path_new_unfold in H by exact Hfit.
  destruct (empty s); [discriminate|].
  destruct (IsAbsolute false s) eqn:Ea; cbn [negb] in H; [|discriminate].
  apply IsAbsolute_posix in Ea. destruct Ea as [t ->].
  rewrite tokens_posix in H. cbn [split_on] in H. rewrite Ascii.eqb_refl in H.
  cbn [normalize String.eqb] in H.
  destruct (normalize false (split_on slash t) []) as [ps|] eqn:En; [|discriminate].
  injection H as <-. cbn [Parts]. repeat split.
  - eapply normalize_normalized; exact En.
  - eapply normalize_Forall; [| constructor | exact En].
    intros x Hx _ _ _. pose proof (split_on_separator_free t) as F.
    rewrite Forall_forall in F. apply F. exact Hx.
  - apply normalize_weight in En. rewrite weight_split_on in En.
    cbn [weight String.length] in *. lia.
Qed.

(** ** The drive-letter text *)

Lemma index_of_drop (c : ascii) (k : nat) :
  forall r, index_of c r = None -> index_of c (drop k r) = None.
Proof.
  induction k as [|k IH]; intros r H; [exact H|].
  destruct r as [|a t]; [reflexivity|]. cbn [drop]. apply IH.
  cbn [index_of] in H. destruct (Ascii.eqb a c); [discriminate|].
  destruct (index_of c t); [discriminate | reflexivity].
Qed.

Lemma tokens_upto_no_backslash (n : nat) :
  forall r, backslash_free r -> tokens_upto true n r = tokens_upto false n r.
Proof.
  unfold backslash_free.
  induction n as [|n IH]; intros r H; cbn [tokens_upto]; unfold next_separator;
    rewrite H; destruct (index_of slash r); try reflexivity.
  f_equal. apply IH. apply index_of_drop. exact H.
Qed.

(** A string without "\" is cut at "/" only, with WINDOWS too. *)
Lemma tokens_no_backslash (s : string) :
  backslash_free s -> tokens true s = split_on slash s.
Proof.
  intros H. unfold tokens. rewrite tokens_upto_no_backslash by exact H.
  apply tokens_posix.
Qed.

Lemma index_of_append (c : ascii) (a b : string) :
  index_of c a = None -> index_of c b = None -> index_of c (a ++ b) = None.
Proof.
  induction a as [|x a IH]; intros Ha Hb; [exact Hb|].
  cbn [index_of append] in *. destruct (Ascii.eqb x c); [discriminate|].
  destruct (index_of c a); [discriminate|]. rewrite IH by auto. reflexivity.
Qed.

Lemma split_on_backslash_free (s : string) :
  backslash_free s -> Forall backslash_free (split_on slash s).
Proof.
  unfold backslash_free.
  induction s as [|a t IH]; intros H; cbn [split_on].
  - constructor; [reflexivity | constructor].
  - cbn [index_of] in H. destruct (Ascii.eqb a backslash) eqn:Eb; [discriminate|].
    destruct (index_of backslash t) eqn:Et; [discriminate|].
    specialize (IH eq_refl).
    destruct (Ascii.eqb a slash).
    + constructor; [reflexivity | exact IH].
    + destruct (split_on slash t) as [|h r]; [constructor; [|constructor]|].
      * cbn [index_of]. rewrite Eb. reflexivity.
      * inversion IH as [|? ? Hh Hr]; subst. constructor; [|exact Hr].
        cbn [index_of]. rewrite Eb, Hh. reflexivity.
Qed.

Lemma separator_prefixed_backslash_free (ps : list string) :
  Forall backslash_free ps -> backslash_free (separator_prefixed ps).
Proof.
  unfold backslash_free. induction 1 as [|q ps Hq Hps IH]; [reflexivity|].
  cbn [separator_prefixed].
  change ("/" ++ q ++ separator_prefixed ps)
    with (String slash (q ++ separator_prefixed ps)).
  cbn [index_of]. change (Ascii.eqb slash backslash) with false.
  rewrite index_of_append by assumption. reflexivity.
Qed.

(** With WINDOWS the first segment on the stack is never popped. *)
Lemma normalize_keeps_first (toks : list string) :
  forall a st ps,
    normalize true toks (a :: st) = Some ps -> exists ps', ps = a :: ps'.
Proof.
  induction toks as [|t toks IH]; intros a st ps H; cbn [normalize] in H.
  - injection H as <-. eauto.
  - destruct (String.eqb t ""); [eapply IH; exact H|].
    destruct (String.eqb t "."); [eapply IH; exact H|].
    destruct (String.eqb t "..").
    + destruct st as [|b st]; [discriminate|].
      cbn [List.length reserved Nat.leb] in H.
      change (removelast (a :: b :: st)) with (a :: removelast (b :: st)) in H.
      eapply IH; exact H.
    + cbn [app] in H. eapply IH; exact H.
Qed.

Lemma fold_drive_separated (ps : list string) :
  forall Out,
    fold_left
      (fun (st : bool * string) (Part : string) =>
         let (First, Out) := st in
         if First then (false, Out ++ Part) else (First, (Out ++ "/") ++ Part))
      ps (false, Out) = (false, Out ++ separator_prefixed ps).
Proof.
  induction ps as [|q ps IH]; intros Out; cbn [fold_left separator_prefixed].
  - rewrite append_empty_r. reflexivity.
  - rewrite IH. rewrite !append_assoc. reflexivity.
Qed.

Lemma AsAbsoluteString_drive (q : string) (ps : list string) :
  AsAbsoluteString true (mkPath (q :: ps)) = q ++ separator_prefixed ps.
Proof.
  unfold AsAbsoluteString. cbn [Parts fold_left]. rewrite fold_drive_separated.
  reflexivity.
Qed.

(** In the text under WINDOWS, an input with no "\" that does not begin
    with a separator has the round trip as well. *)
Lemma drive_letter_round_trip (s : string) (p : Path) :
  fits s -> backslash_free s -> at_index s 0 <> slash ->
  Path_new true s = Return p ->
  Path_new true (AsAbsoluteString true p) = Return p.
Proof.
  intros Hfit Hb H0 H. rewrite Path_new_unfold in H by exact Hfit.
  destruct (empty s); [discriminate|].
  destruct (IsAbsolute true s) eqn:Ea; cbn [negb] in H; [|discriminate].
  rewrite tokens_no_backslash in H by exact Hb.
  destruct (normalize true (split_on slash s) []) as [ps|] eqn:En; [|discriminate].
  injection H as <-.
  (* the shape of the input: a character that is not "/", then ":" *)
  unfold IsAbsolute in Ea.
  destruct s as [|a [|b u]]; try discriminate.
  change (at_index (String a (String b u)) 0) with a in H0.
  change (at_index (String a (String b u)) 1) with b in Ea.
  destruct (Ascii.eqb_spec b colon) as [->|];
    [|rewrite orb_true_r in Ea; discriminate].
  clear Ea.
  (* its tokens: the drive token first *)
  pose proof (split_on_separator_free (String a (String colon u))) as Hfree.
  pose proof (split_on_backslash_free _ Hb) as Hbs.
  pose proof (weight_split_on slash (String a (String colon u))) as Hw.
  cbn [split_on] in En, Hfree, Hbs, Hw.
  destruct (Ascii.eqb_spec a slash) as [|Na]; [contradiction|].
  change (Ascii.eqb colon slash) with false in *.
  pose proof (split_on_nonempty slash u) as Hne.
  destruct (split_on slash u) as [|h ts]; [contradiction|].
  set (t0 := String a (String colon h)) in *.
  assert (Ht0 : is_segment t0).
  { unfold t0. repeat split; intros E; discriminate. }
  destruct Ht0 as (N1 & N2 & N3).
  cbn [normalize] in En.
  destruct (String.eqb_spec t0 ""); [contradiction|].
  destruct (String.eqb_spec t0 "."); [contradiction|].
  destruct (String.eqb_spec t0 ".."); [contradiction|].
  cbn [app] in En.
  destruct (normalize_keeps_first _ _ _ _ En) as [ps' ->].
  inversion Hfree as [|? ? Hf0 Hfts]; subst.
  inversion Hbs as [|? ? Hb0 Hbts]; subst.
  assert (Hn : normalized (t0 :: ps')).
  { eapply normalize_Forall; [| | exact En].
    - intros x _ ? ? ?. repeat split; assumption.
    - constructor; [repeat split; assumption | constructor]. }
  assert (Hf : Forall separator_free (t0 :: ps')).
  { eapply normalize_Forall; [| | exact En].
    - intros x Hx _ _ _. rewrite Forall_forall in Hfts. apply Hfts. exact Hx.
    - constructor; [exact Hf0 | constructor]. }
  assert (Hbf : Forall backslash_free (t0 :: ps')).
  { eapply normalize_Forall; [| | exact En].
    - intros x Hx _ _ _. rewrite Forall_forall in Hbts. apply Hbts. exact Hx.
    - constructor; [exact Hb0 | constructor]. }
  apply normalize_weight in En. cbn [weight] in En, Hw.
  inversion Hf as [|? ? _ Hf']; subst. inversion Hbf as [|? ? _ Hbf']; subst.
  rewrite AsAbsoluteString_drive.
  assert (Hfit' : fits (t0 ++ separator_prefixed ps')).
  { unfold fits, size in *. rewrite length_append, length_separator_prefixed.
    cbn [String.length] in *. lia. }
  rewrite Path_new_unfold by exact Hfit'.
  rewrite tokens_no_backslash
    by (apply index_of_append; [exact Hb0 | apply separator_prefixed_backslash_free; exact Hbf']).
  rewrite split_on_after_free by exact Hf0.
  rewrite split_on_separator_prefixed by exact Hf'.
  replace (empty (t0 ++ separator_prefixed ps')) with false
    by (unfold empty, size, t0; cbn [append String.length]; symmetry;
        apply N.eqb_neq; lia).
  replace (IsAbsolute true (t0 ++ separator_prefixed ps')) with true.
  2:{ unfold IsAbsolute, size, at_index, t0. cbn [append String.length String.get].
      symmetry. rewrite Ascii.eqb_refl. cbn [negb orb].
      destruct (N.ltb_spec (N.of_nat (S (S (String.length (h ++ separator_prefixed ps'))))) 2);
        [lia | reflexivity]. }
  cbn [negb].
  replace (match ps' with [] => [""] | _ :: _ => "" :: ps' end)
    with ("" :: ps') by (destruct ps'; reflexivity).
  rewrite append_empty_r.
  rewrite normalize_segments by exact Hn. reflexivity.
Qed.



(** The text under WINDOWS, which belongs to no configuration that
    builds, does not have the round trip for every input.  "/:"
    satisfies its absolute-prefix test and gives the one segment ":",
    whose absolute string ":" is rejected; and since [FindNext] looks
    for a backslash only where no "/" is left, "C:/a\b/" gives the
    segments "C:" and "a\b", whose absolute string is cut into three
    segments. *)
Lemma drive_letter_round_trip_lost :
  Path_new true "/:" = Return (mkPath [":"]) /\
  Path_new true (AsAbsoluteString true (mkPath [":"])) =
    Throw (Construction "Base paths must be constructed with absolute paths.") /\
  Path_new true "C:/a\b/" = Return (mkPath ["C:"; "a\b"]) /\
  Path_new true (AsAbsoluteString true (mkPath ["C:"; "a\b"])) =
    Return (mkPath ["C:"; "a"; "b"]).
Proof. repeat split. Qed.

(* ================================================================== *)
(** * Relative strings *)

Lemma FindCommonRoot_loop_spec (L : list string) :
  forall O Out,
    FindCommonRoot_loop L O Out =
    ((Out ++ firstn (common_prefix_length L O) L)%list,
     skipn (common_prefix_length L O) L,
     skipn (common_prefix_length L O) O).
Proof.
  induction L as [|l L IH]; intros O Out.
  - destruct O; cbn; rewrite app_nil_r; reflexivity.
  - destruct O as [|o O]; [cbn; rewrite app_nil_r; reflexivity|].
    cbn [FindCommonRoot_loop common_prefix_length].
    destruct (String.eqb l o); cbn [negb].
    + rewrite IH. unfold push_back. cbn [firstn skipn]. rewrite <- app_assoc.
      reflexivity.
    + cbn [firstn skipn]. rewrite app_nil_r. reflexivity.
Qed.

Lemma concat_cons (x : string) (xs : list string) :
  String.concat "/" (x :: xs) = x ++ separator_prefixed xs.
Proof.
  revert x. induction xs as [|y xs IH]; intros x.
  - cbn. rewrite append_empty_r. reflexivity.
  - change (String.concat "/" (x :: y :: xs))
      with (x ++ "/" ++ String.concat "/" (y :: xs)).
    rewrite IH. reflexivity.
Qed.

Lemma fold_AppendPart_rest (xs : list string) :
  forall Out,
    fold_left AppendPart xs (Out, false) = (Out ++ separator_prefixed xs, false).
Proof.
  induction xs as [|x xs IH]; intros Out; cbn [fold_left AppendPart separator_prefixed].
  - rewrite append_empty_r. reflexivity.
  - rewrite IH. rewrite !append_assoc. reflexivity.
Qed.

Lemma fold_AppendPart_first (xs : list string) :
  fold_left AppendPart xs ("", true) = (String.concat "/" xs, is_empty xs).
Proof.
  destruct xs as [|x xs]; [reflexivity|].
  cbn [fold_left AppendPart is_empty]. rewrite fold_AppendPart_rest.
  rewrite concat_cons. reflexivity.
Qed.

Lemma fold_left_constant {A B : Type} (f : A -> B -> A) (b : B) (l : list B) :
  forall a,
    fold_left (fun st (_ : B) => f st b) l a = fold_left f (repeat b (List.length l)) a.
Proof. induction l as [|x l IH]; intros a; cbn; [reflexivity | apply IH]. Qed.

Lemma common_prefix_length_same (a : list string) : common_prefix_length a a = List.length a.
Proof.
  induction a as [|x a IH]; [reflexivity|].
  cbn [common_prefix_length List.length]. rewrite String.eqb_refl, IH. reflexivity.
Qed.

(** C5. With k the length of the common segment prefix of the path and
    the origin directory, [AsRelativeString] is the "/"-join (no leading
    or trailing separator) of one ".." per origin segment beyond k
    followed by the path's segments beyond k; [FindCommonRoot] returns
    that prefix; equal segment sequences give the empty string;
    /a/b/c relative to /a/x/y is "../../b/c"; and segments differing
    only in case do not match. *)
Theorem AsRelativeString_spec :
  (forall (here from : Path),
      let k := common_prefix_length (Parts here) (Parts from) in
      AsRelativeString here from =
      String.concat "/"
        (repeat ".." (List.length (Parts from) - k) ++ skipn k (Parts here))%list /\
      Path_FindCommonRoot here (Parts from) (Parts here) (Parts from) =
      (firstn k (Parts here), skipn k (Parts here), skipn k (Parts from))) /\
  (forall (here from : Path),
      Parts here = Parts from -> AsRelativeString here from = "") /\
  AsRelativeString (mkPath ["a"; "b"; "c"]) (mkPath ["a"; "x"; "y"]) = "../../b/c" /\
  AsRelativeString (mkPath ["A"; "b"]) (mkPath ["a"; "b"]) = "../../A/b".
Proof.
  assert (G : forall here from : Path,
             AsRelativeString here from =
             String.concat "/" (relative_tokens (Parts here) (Parts from))).
  { intros here from. unfold AsRelativeString, Path_FindCommonRoot, relative_tokens.
    rewrite FindCommonRoot_loop_spec. cbv zeta.
    rewrite (fold_left_constant AppendPart).
    change (fun st (Part : string) => AppendPart st Part) with AppendPart.
    rewrite <- fold_left_app, fold_AppendPart_first. cbn [fst].
    rewrite length_skipn. reflexivity. }
  split; [|split].
  - intros here from k. split; [apply G|].
    unfold Path_FindCommonRoot. rewrite FindCommonRoot_loop_spec. reflexivity.
  - intros here from E. rewrite G. unfold relative_tokens. rewrite E.
    rewrite common_prefix_length_same, Nat.sub_diag, skipn_all. reflexivity.
  - split; reflexivity.
Qed.

Lemma AsRelativeString_spec_witness :
  AsRelativeString (mkPath ["srv"; "www"]) (mkPath ["srv"; "www"]) = "".
Proof.
  apply (proj1 (proj2 AsRelativeString_spec) (mkPath ["srv"; "www"]) (mkPath ["srv"; "www"])).
  reflexivity.
Defined.

(* ================================================================== *)
(** * FilePath and navigation *)

(** C6, as the code has it.  A FilePath made by [Select] holds the
    directory's segments followed by the selected name, so [File]
    returns that name and [Directory] the directory selected from.  For
    any FilePath with at least one segment [File] returns its last
    segment and [Directory] the Path of the segments before it; with no
    segment both are undefined.  Construction from a string and
    [Qualify] give whatever segments the normalizer leaves. *)
Theorem FilePath_Select_nonempty :
  (forall (d : DirectoryPath) (name : string),
      Parts (Select d name) = (Parts d ++ [name])%list /\
      Parts (Select d name) <> [] /\
      File (Select d name) = Return name /\
      Directory (Select d name) = Return d) /\
  (forall (f : FilePath),
      Parts f <> [] ->
      File f = Return (last (Parts f) "") /\
      Directory f = Return (mkPath (removelast (Parts f))) /\
      Parts f = (removelast (Parts f) ++ [last (Parts f) ""])%list) /\
  (forall (f : FilePath), Parts f = [] -> File f = Undefined /\ Directory f = Undefined) /\
  (forall (W : bool) (s : string), FilePath_new W s = Path_new W s) /\
  (forall (W : bool) (cwd : option string) (s : string),
      IsAbsolute W s = true -> FilePath_Qualify W cwd s = Path_new W s).
Proof.
  split; [|split; [|split; [|split]]].
  - intros [ps] name. unfold Select, FilePath_of_parts, push_back, File, Directory.
    cbn [Parts].
    assert (N : (ps ++ [name])%list <> []) by (destruct ps; discriminate).
    repeat split; try exact N.
    + destruct (ps ++ [name])%list eqn:E; [contradiction|]. rewrite <- E.
      rewrite last_last. reflexivity.
    + destruct (ps ++ [name])%list eqn:E; [contradiction|]. rewrite <- E.
      rewrite removelast_last. reflexivity.
  - intros [ps] N. unfold File, Directory. cbn [Parts] in *.
    destruct ps as [|a l]; [contradiction|]. repeat split.
    apply app_removelast_last. discriminate.
  - intros [ps] E. cbn [Parts] in E. subst ps. split; reflexivity.
  - reflexivity.
  - intros W cwd s H. unfold FilePath_Qualify. rewrite H. reflexivity.
Qed.

Lemma FilePath_Select_nonempty_witness :
  File (mkPath ["etc"; "passwd"]) = Return (last ["etc"; "passwd"] "") /\
  Directory (mkPath ["etc"; "passwd"]) = Return (mkPath (removelast ["etc"; "passwd"])) /\
  ["etc"; "passwd"] = (removelast ["etc"; "passwd"] ++ [last ["etc"; "passwd"] ""])%list.
Proof.
  apply (proj1 (proj2 FilePath_Select_nonempty) (mkPath ["etc"; "passwd"])).
  discriminate.
Defined.

(** C6 fails as stated: the FilePath constructed from "/" (also through
    [Qualify]) has no segment, and [File] and [Directory] are undefined
    on it. *)
Lemma FilePath_without_segment :
  FilePath_new false "/" = Return (mkPath []) /\
  FilePath_Qualify false (Some "/home") "/" = Return (mkPath []) /\
  FilePath_Qualify false (Some "/") "" = Return (mkPath []) /\
  File (mkPath []) = Undefined /\
  Directory (mkPath []) = Undefined.
Proof. repeat split. Qed.

Lemma navigate_normalized (W : bool) (calls : list Navigation) :
  forall d selected d' selected',
    normalized (Parts d) ->
    Forall (fun f : FilePath => normalized (Parts f)) selected ->
    Forall argument_is_segment calls ->
    navigate W calls d selected = Return (d', selected') ->
    normalized (Parts d') /\
    Forall (fun f : FilePath => normalized (Parts f)) selected'.
Proof.
  induction calls as [|c calls IH]; intros d sel d' sel' Hd Hs Hc H.
  - injection H as <- <-. split; assumption.
  - inversion Hc as [|? ? Hc1 Hc2]; subst.
    destruct c as [name| |name]; cbn [navigate] in H.
    + eapply IH; [| exact Hs | exact Hc2 | exact H].
      unfold Enter, push_back. cbn [Parts]. apply Forall_app. split; [exact Hd|].
      constructor; [exact Hc1 | constructor].
    + unfold Exit in H. destruct (IsRoot W d) as [[|]| | | |]; cbn [bind] in H;
        try discriminate.
      eapply IH; [| exact Hs | exact Hc2 | exact H].
      cbn [Parts]. apply removelast_Forall. exact Hd.
    + eapply IH; [exact Hd | | exact Hc2 | exact H].
      apply Forall_app. split; [exact Hs|]. constructor; [|constructor].
      unfold Select, FilePath_of_parts, push_back. cbn [Parts].
      apply Forall_app. split; [exact Hd|]. constructor; [exact Hc1 | constructor].
Qed.

(** A navigation sequence fails only at the assertion of [Exit]. *)
Lemma navigate_outcome (W : bool) (calls : list Navigation) :
  forall d selected,
    (exists r, navigate W calls d selected = Return r) \/
    navigate W calls d selected = AssertFail.
Proof.
  induction calls as [|c calls IH]; intros d sel; [left; eexists; reflexivity|].
  destruct c as [name| |name]; cbn [navigate]; try apply IH.
  unfold Exit, IsRoot.
  destruct W, (is_empty (Parts d)); cbn [bind];
    try destruct (List.length (Parts d) <=? 1)%nat; auto; apply IH.
Qed.

(** Navigation keeps whatever holds of every segment and of every
    argument. *)
Lemma navigate_Forall (P : string -> Prop) (W : bool) (calls : list Navigation) :
  forall d selected d' selected',
    Forall P (Parts d) ->
    Forall (fun f : FilePath => Forall P (Parts f)) selected ->
    Forall (fun call => match argument call with
                        | Some name => P name
                        | None => True
                        end) calls ->
    navigate W calls d selected = Return (d', selected') ->
    Forall P (Parts d') /\
    Forall (fun f : FilePath => Forall P (Parts f)) selected'.
Proof.
  induction calls as [|c calls IH]; intros d sel d' sel' Hd Hs Hc H.
  - injection H as <- <-. split; assumption.
  - inversion Hc as [|? ? Hc1 Hc2]; subst.
    destruct c as [name| |name]; cbn [navigate argument] in *.
    + eapply IH; [| exact Hs | exact Hc2 | exact H].
      unfold Enter, push_back. cbn [Parts]. apply Forall_app. split; [exact Hd|].
      constructor; [exact Hc1 | constructor].
    + unfold Exit in H. destruct (IsRoot W d) as [[|]| | | |]; cbn [bind] in H;
        try discriminate.
      eapply IH; [| exact Hs | exact Hc2 | exact H].
      cbn [Parts]. apply removelast_Forall. exact Hd.
    + eapply IH; [exact Hd | | exact Hc2 | exact H].
      apply Forall_app. split; [exact Hs|]. constructor; [|constructor].
      unfold Select, FilePath_of_parts, push_back. cbn [Parts].
      apply Forall_app. split; [exact Hd|]. constructor; [exact Hc1 | constructor].
Qed.

(** The absolute string of segments that hold no separator is
    normalized into these segments again. *)
Lemma Path_new_of_segments (ps : list string) :
  normalized ps -> Forall separator_free ps ->
  fits (AsAbsoluteString false (mkPath ps)) ->
  Path_new false (AsAbsoluteString false (mkPath ps)) = Return (mkPath ps).
Proof.
  intros Hn Hf Hfit. rewrite Path_new_unfold by exact Hfit.
  rewrite AsAbsoluteString_posix. cbn [Parts].
  destruct ps as [|q ps]; [reflexivity|].
  rewrite tokens_posix, split_on_separator_prefixed by exact Hf.
  cbn [separator_prefixed].
  change ("/" ++ q ++ separator_prefixed ps)
    with (String slash (q ++ separator_prefixed ps)).
  replace (empty (String slash (q ++ separator_prefixed ps))) with false
    by (unfold empty, size; cbn [String.length]; symmetry; apply N.eqb_neq; lia).
  replace (IsAbsolute false (String slash (q ++ separator_prefixed ps))) with true
    by reflexivity.
  cbn [negb]. change (normalize false ("" :: q :: ps) [])
    with (normalize false (q :: ps) []).
  rewrite normalize_segments by exact Hn. reflexivity.
Qed.

(** What [Exit] does: it fails its assertion on a sequence that holds
    no more than the reserved segments, and otherwise returns the
    sequence without its last segment. *)
Lemma Exit_outcome (W : bool) (d : DirectoryPath) :
  (List.length (Parts d) <= reserved W /\ Exit W d = AssertFail) \/
  (reserved W < List.length (Parts d) /\
   Exit W d = Return (mkPath (removelast (Parts d))) /\
   Parts d = (removelast (Parts d) ++ [last (Parts d) ""])%list).
Proof.
  destruct d as [ps]. unfold Exit, IsRoot, pop_back. cbn [Parts].
  destruct W, ps as [|a l]; cbn [is_empty reserved bind List.length].
  - left. split; [lia | reflexivity].
  - destruct (Nat.leb_spec (S (List.length l)) 1) as [L|L]; cbn [bind].
    + left. split; [lia | reflexivity].
    + right. split; [lia|]. split; [reflexivity|].
      apply app_removelast_last. discriminate.
  - left. split; [lia | reflexivity].
  - right. split; [lia|]. split; [reflexivity|].
    apply app_removelast_last. discriminate.
Qed.

(** C7, as the code has it.  [Enter] and [Select] append their argument
    as it is.  [Exit] removes the last segment: it returns the sequence
    without that segment and nothing else changed, and at the root (and
    on an empty sequence) it stops at its assertion.  On a DirectoryPath
    built from a string, any sequence of Enter, Exit and Select calls
    whose arguments are segments (not empty, not "." and not "..")
    leaves a sequence with no "", "." or ".." in the directory and in
    every selected FilePath.  When the arguments hold no separator
    either, then without WINDOWS no segment of the directory or of a
    selected FilePath holds one, and the absolute string of each is
    normalized into the same segments again.  Such a sequence of calls
    either returns or stops at the assertion of an [Exit]. *)
Theorem navigation_preserves_normalized :
  (forall (d : DirectoryPath) (name : string),
      Parts (Enter d name) = (Parts d ++ [name])%list /\
      Parts (Select d name) = (Parts d ++ [name])%list) /\
  (forall (W : bool) (d : DirectoryPath),
      (Exit W d = AssertFail <-> List.length (Parts d) <= reserved W) /\
      (reserved W < List.length (Parts d) ->
       exists d', Exit W d = Return d' /\
                  Parts d = (Parts d' ++ [last (Parts d) ""])%list /\
                  Parts d' = removelast (Parts d) /\
                  List.length (Parts d) = S (List.length (Parts d')))) /\
  (forall (W : bool) (s : string) (d : DirectoryPath) (calls : list Navigation)
          (d' : DirectoryPath) (selected : list FilePath),
      fits s ->
      DirectoryPath_new W s = Return d ->
      Forall argument_is_segment calls ->
      navigate W calls d [] = Return (d', selected) ->
      normalized (Parts d') /\
      Forall (fun f : FilePath => normalized (Parts f)) selected) /\
  (forall (s : string) (d : DirectoryPath) (calls : list Navigation)
          (d' : DirectoryPath) (selected : list FilePath),
      fits s ->
      DirectoryPath_new false s = Return d ->
      Forall argument_is_segment calls ->
      Forall argument_separator_free calls ->
      navigate false calls d [] = Return (d', selected) ->
      Forall separator_free (Parts d') /\
      (fits (AsAbsoluteString false d') ->
       Path_new false (AsAbsoluteString false d') = Return d') /\
      Forall (fun f : FilePath =>
                Forall separator_free (Parts f) /\
                (fits (AsAbsoluteString false f) ->
                 Path_new false (AsAbsoluteString false f) = Return f)) selected) /\
  (forall (W : bool) (calls : list Navigation) (d : DirectoryPath),
      (exists r, navigate W calls d [] = Return r) \/
      navigate W calls d [] = AssertFail).
Proof.
  assert (N : forall (W : bool) (s : string) (d : DirectoryPath)
                     (calls : list Navigation) (d' : DirectoryPath)
                     (selected : list FilePath),
             fits s ->
             DirectoryPath_new W s = Return d ->
             Forall argument_is_segment calls ->
             navigate W calls d [] = Return (d', selected) ->
             normalized (Parts d') /\
             Forall (fun f : FilePath => normalized (Parts f)) selected).
  { intros W s d calls d' selected Hfit Hd Hc H.
    eapply navigate_normalized; [| constructor | exact Hc | exact H].
    unfold DirectoryPath_new in Hd. rewrite Path_new_unfold in Hd by exact Hfit.
    destruct (empty s); [discriminate|].
    destruct (negb (IsAbsolute W s)); [discriminate|].
    destruct (normalize W (tokens W s) []) as [ps|] eqn:En; [|discriminate].
    injection Hd as <-. eapply normalize_normalized. exact En. }
  split; [intros d name; split; reflexivity|].
  split; [|split; [exact N | split; [|intros W calls d; apply navigate_outcome]]].
  - intros W d. destruct (Exit_outcome W d) as [[L E]|(L & E & P)].
    + split; [split; [intros _; exact L | intros _; exact E] | intros K; lia].
    + split; [rewrite E; split; [discriminate | intros K; lia]|].
      intros _. exists (mkPath (removelast (Parts d))). cbn [Parts].
      split; [exact E|]. split; [exact P|]. split; [reflexivity|].
      apply (f_equal (@List.length string)) in P. rewrite length_app in P.
      cbn [List.length] in P. lia.
  - intros s d calls d' selected Hfit Hd Hc Hsep H.
    destruct (N false s d calls d' selected Hfit Hd Hc H) as [Nd Ns].
    destruct (Path_new_posix_inv s d Hfit Hd) as (_ & Hf & _).
    destruct (navigate_Forall separator_free false calls d [] d' selected Hf
                (Forall_nil _) Hsep H) as [Fd Fs].
    split; [exact Fd|]. split.
    + intros K. destruct d' as [ps]. apply Path_new_of_segments; assumption.
    + rewrite Forall_forall in *. intros f Hin. split; [apply Fs; exact Hin|].
      intros K. destruct f as [ps]. apply Path_new_of_segments;
        [apply (Ns _ Hin) | apply (Fs _ Hin) | exact K].
Qed.

Lemma navigation_preserves_normalized_witness :
  (normalized (Parts (mkPath ["srv"; "log"])) /\
   Forall (fun f : FilePath => normalized (Parts f)) [mkPath ["srv"; "www"; "index"]]) /\
  Path_new false (AsAbsoluteString false (mkPath ["srv"; "log"])) =
    Return (mkPath ["srv"; "log"]).
Proof.
  split.
  - apply (proj1 (proj2 (proj2 navigation_preserves_normalized)) false "/srv"
             (mkPath ["srv"])
             [DoEnter "www"; DoSelect "index"; DoExit; DoEnter "log"]).
    + reflexivity.
    + reflexivity.
    + repeat constructor; discriminate.
    + reflexivity.
  - apply (proj1 (proj2 (proj2 (proj2 navigation_preserves_normalized))) "/srv"
             (mkPath ["srv"])
             [DoEnter "www"; DoSelect "index"; DoExit; DoEnter "log"]
             (mkPath ["srv"; "log"]) [mkPath ["srv"; "www"; "index"]]).
    + reflexivity.
    + reflexivity.
    + repeat constructor; discriminate.
    + repeat constructor.
    + reflexivity.
    + reflexivity.
Defined.

(** C7 fails as stated: [Enter] and [Select] take any string, so after
    Enter("..") on the DirectoryPath of "/a" the segments hold "..",
    and Select("") appends an empty segment. *)
Lemma Enter_breaks_normalized :
  DirectoryPath_new false "/a" = Return (mkPath ["a"]) /\
  navigate false [DoEnter ".."] (mkPath ["a"]) [] = Return (mkPath ["a"; ".."], []) /\
  In ".." (Parts (Enter (mkPath ["a"]) "..")) /\
  In "" (Parts (Select (mkPath ["a"]) "")).
Proof. repeat split; cbn; auto. Qed.

(* ================================================================== *)
(** * Directory listing *)

Import Walker.

Section Listing.

Variable opendir : string -> option (list dirent).

Lemma readdir_loop_collect (keep : bool -> bool) (es : list dirent) :
  forall Out : list string,
    fold_left
      (fun (st : list string) (ElementInfo : dirent) =>
         let ElementName := d_name ElementInfo in
         if String.eqb ElementName "." || String.eqb ElementName ".." then st
         else if keep (negb (d_type_eqb (d_type ElementInfo) DT_DIR))
              then (st ++ [ElementName])%list else st)
      es Out =
    (Out ++ map d_name
         (filter (fun e => negb (is_dot (d_name e)) &&
                           keep (negb (d_type_eqb (d_type e) DT_DIR))) es))%list.
Proof.
  induction es as [|e es IH]; intros Out.
  - cbn. rewrite app_nil_r. reflexivity.
  - cbn [fold_left filter]. cbv zeta. unfold is_dot at 1.
    destruct (String.eqb (d_name e) "." || String.eqb (d_name e) ".."); cbn [negb andb].
    + apply IH.
    + destruct (keep (negb (d_type_eqb (d_type e) DT_DIR))).
      * rewrite IH. cbn [map]. rewrite <- !app_assoc. reflexivity.
      * apply IH.
Qed.

Lemma ProcessDirectoryContents_collect (keep : bool -> bool) (name : string) :
  ProcessDirectoryContents opendir name
    (fun (Out : list string) (Element : string) (IsFile : bool) =>
       if keep IsFile then (Out ++ [Element])%list else Out) [] =
  map d_name
      (filter (fun e => negb (is_dot (d_name e)) &&
                        keep (negb (d_type_eqb (d_type e) DT_DIR)))
              (entries_of opendir name)).
Proof.
  unfold ProcessDirectoryContents, entries_of.
  destruct (opendir name) as [es|]; [|reflexivity].
  apply (readdir_loop_collect keep es []).
Qed.

Lemma ListFiles_filter (d : DirectoryPath) :
  ListFiles opendir d =
  map d_name (filter is_file (entries_of opendir (AsAbsoluteString false d))).
Proof.
  unfold ListFiles.
  rewrite (ProcessDirectoryContents_collect (fun b => b)). reflexivity.
Qed.

Lemma ListDirectories_filter (d : DirectoryPath) :
  ListDirectories opendir d =
  map d_name (filter is_subdirectory (entries_of opendir (AsAbsoluteString false d))).
Proof.
  unfold ListDirectories.
  rewrite (ProcessDirectoryContents_collect negb).
  f_equal. apply filter_ext. intros e. unfold is_subdirectory.
  rewrite negb_involutive. reflexivity.
Qed.

Lemma is_dot_name (name : string) :
  is_dot name = false -> name <> "." /\ name <> "..".
Proof.
  unfold is_dot. intros H. apply orb_false_elim in H. destruct H as [H1 H2].
  apply String.eqb_neq in H1, H2. split; assumption.
Qed.

Lemma listed_entry (keep : dirent -> bool) (name x : string) :
  In x (map d_name (filter keep (entries_of opendir name))) ->
  exists es e, opendir name = Some es /\ In e es /\ d_name e = x /\ keep e = true.
Proof.
  unfold entries_of. intros H. apply in_map_iff in H. destruct H as (e & E & H).
  apply filter_In in H. destruct H as [H K].
  destruct (opendir name) as [es|]; [|contradiction].
  exists es, e. auto.
Qed.

End Listing.

(** C10. For every directory, [ListFiles] and [ListDirectories] return
    the names of the entries [readdir] gave, "." and ".." left out, in
    [readdir] order: the entries that are not directories and those
    that are.  Neither list holds "." or "..", and every name returned
    is the name of an entry of that directory. *)
Theorem listings_exclude_dot_entries
    (opendir : string -> option (list dirent)) (d : DirectoryPath) :
  ListFiles opendir d =
    map d_name (filter is_file (entries_of opendir (AsAbsoluteString false d))) /\
  ListDirectories opendir d =
    map d_name (filter is_subdirectory (entries_of opendir (AsAbsoluteString false d))) /\
  (forall x, In x (ListFiles opendir d) \/ In x (ListDirectories opendir d) ->
             x <> "." /\ x <> ".." /\
             exists es e, opendir (AsAbsoluteString false d) = Some es /\
                          In e es /\ d_name e = x).
Proof.
  split; [apply ListFiles_filter | split; [apply ListDirectories_filter|]].
  intros x H. rewrite ListFiles_filter, ListDirectories_filter in H.
  assert (G : exists es e, opendir (AsAbsoluteString false d) = Some es /\
                           In e es /\ d_name e = x /\ is_dot (d_name e) = false).
  { destruct H as [H|H]; apply listed_entry in H;
      destruct H as (es & e & H1 & H2 & H3 & H4); exists es, e;
      repeat split; try assumption.
    - unfold is_file in H4. apply andb_prop in H4. destruct H4 as [H4 _].
      apply negb_true_iff in H4. exact H4.
    - unfold is_subdirectory in H4. apply andb_prop in H4. destruct H4 as [H4 _].
      apply negb_true_iff in H4. exact H4. }
  destruct G as (es & e & H1 & H2 & H3 & H4). subst x.
  destruct (is_dot_name _ H4). repeat split; eauto.
Qed.

(* ================================================================== *)
(** * The walker *)

Section WalkerSteps.

Variable opendir : string -> option (list dirent).

Lemma empty_false (name : string) : name <> "" -> empty name = false.
Proof.
  intros H. destruct (empty name) eqn:E; [|reflexivity].
  apply empty_iff in E. contradiction.
Qed.

Lemma ProcessFiles_calls (st : WalkState) :
  ProcessFiles opendir st =
  mkWalk (Transitions st) (Marker st)
         (Calls st ++ map (Select (Marker st)) (ListFiles opendir (Marker st)))%list.
Proof.
  unfold ProcessFiles. destruct st as [T M C]. cbn [Transitions Marker Calls].
  generalize (ListFiles opendir M) as files. intros files. revert C.
  induction files as [|f files IH]; intros C; cbn [fold_left map].
  - rewrite app_nil_r. reflexivity.
  - cbn [Transitions Marker Calls]. rewrite IH. rewrite <- app_assoc. reflexivity.
Qed.

Lemma Walk_body_descend (T : list string) (M : DirectoryPath) (C : list FilePath)
    (name : string) :
  name <> "" ->
  Walk_body opendir (mkWalk T M C) name =
  Return (mkWalk (ListDirectories opendir (Enter M name) ++ "" :: T)%list
                 (Enter M name)
                 (C ++ map (Select (Enter M name)) (ListFiles opendir (Enter M name)))%list).
Proof.
  intros H. unfold Walk_body. rewrite (empty_false name H).
  cbn [Transitions Marker Calls]. rewrite ProcessFiles_calls. reflexivity.
Qed.

Lemma Exit_Enter (ps : list string) (name : string) :
  Exit false (mkPath (ps ++ [name])%list) = Return (mkPath ps).
Proof.
  unfold Exit, IsRoot, pop_back. cbn [Parts bind].
  destruct ps; cbn [app is_empty]; rewrite ?removelast_last; try reflexivity.
  change (s :: ps ++ [name])%list with ((s :: ps) ++ [name])%list.
  rewrite removelast_last. reflexivity.
Qed.

Lemma Walk_body_ascend (T : list string) (ps : list string) (name : string)
    (C : list FilePath) :
  Walk_body opendir (mkWalk T (mkPath (ps ++ [name])%list) C) "" =
  Return (mkWalk T (mkPath ps) C).
Proof.
  unfold Walk_body. change (empty "") with true. cbn [Transitions Marker Calls].
  rewrite Exit_Enter. reflexivity.
Qed.

Lemma Walk_loop_step (fuel : nat) (NextTransition : string) (rest : list string)
    (M : DirectoryPath) (C : list FilePath) :
  Walk_loop opendir (S fuel) (mkWalk (NextTransition :: rest) M C) =
  (st' <- Walk_body opendir (mkWalk rest M C) NextTransition ;;
   Walk_loop opendir fuel st').
Proof. reflexivity. Qed.

(** Entering a directory that cannot be opened and leaving it again. *)
Lemma Walk_loop_unreadable (fuel : nat) (M : list string) (name : string)
    (rest : list string) (C : list FilePath) :
  name <> "" ->
  opendir (AsAbsoluteString false (mkPath (M ++ [name])%list)) = None ->
  Walk_loop opendir (S (S fuel)) (mkWalk (name :: rest) (mkPath M) C) =
  Walk_loop opendir fuel (mkWalk rest (mkPath M) C).
Proof.
  intros Hn Ho. rewrite Walk_loop_step, Walk_body_descend by exact Hn. cbn [bind].
  unfold Enter, push_back. cbn [Parts].
  rewrite ListFiles_filter, ListDirectories_filter. unfold entries_of. rewrite Ho.
  cbn [filter map app]. rewrite app_nil_r.
  rewrite Walk_loop_step, Walk_body_ascend. reflexivity.
Qed.

End WalkerSteps.

Section WalkerInvariant.

Variable opendir : string -> option (list dirent).
Hypothesis nonempty : names_nonempty opendir.
Variable root : list string.

Lemma ListDirectories_names (d : DirectoryPath) (x : string) :
  In x (ListDirectories opendir d) -> x <> "".
Proof.
  rewrite ListDirectories_filter. intros H. apply listed_entry in H.
  destruct H as (es & e & H1 & H2 & H3 & _). subst x.
  eapply nonempty; eassumption.
Qed.

Lemma Pending_step (M : list string) (NextTransition : string) (rest : list string)
    (C : list FilePath) :
  Pending opendir root M (NextTransition :: rest) ->
  exists st',
    Walk_body opendir (mkWalk rest (mkPath M) C) NextTransition = Return st' /\
    Pending opendir root (Parts (Marker st')) (Transitions st').
Proof.
  intros H. inversion H as [ds Hds E1 E2 | M0 T name ds HP Hname Hds E1 E2].
  - subst. assert (Hn : NextTransition <> "").
    { eapply ListDirectories_names. apply Hds. left. reflexivity. }
    eexists. split; [apply Walk_body_descend; exact Hn|].
    cbn [Marker Transitions]. unfold Enter, push_back. cbn [Parts].
    apply Pending_below; [| exact Hn | apply incl_refl].
    apply Pending_root. intros x Hx. apply Hds. right. exact Hx.
  - destruct ds as [|d ds]; cbn [app] in E2; injection E2 as <- <-.
    + subst M. eexists. split; [apply Walk_body_ascend|].
      cbn [Marker Transitions Parts]. exact HP.
    + subst M. assert (Hn : d <> "").
      { eapply ListDirectories_names. apply Hds. left. reflexivity. }
      eexists. split; [apply Walk_body_descend; exact Hn|].
      cbn [Marker Transitions]. unfold Enter, push_back. cbn [Parts].
      apply Pending_below; [| exact Hn | apply incl_refl].
      apply Pending_below; [exact HP | exact Hname |].
      intros x Hx. apply Hds. right. exact Hx.
Qed.

Lemma Pending_after (n : nat) :
  forall st,
    Pending opendir root (Parts (Marker st)) (Transitions st) ->
    exists st',
      Walk_after opendir n st = Return st' /\
      Pending opendir root (Parts (Marker st')) (Transitions st').
Proof.
  induction n as [|n IH]; intros st H; [exists st; split; [reflexivity | exact H]|].
  destruct st as [T [M] C]. cbn [Marker Transitions Parts Calls] in *.
  cbn [Walk_after Transitions Marker Calls].
  destruct T as [|NextTransition rest].
  - eexists. split; [reflexivity | exact H].
  - destruct (Pending_step M NextTransition rest C H) as (st1 & B & H1).
    rewrite B. cbn [bind]. apply IH. exact H1.
Qed.

Lemma count_occ_names (ds : list string) :
  (forall x, In x ds -> x <> "") -> count_occ string_dec ds "" = 0.
Proof.
  intros H. apply count_occ_not_In. intros Hin. apply (H "" Hin). reflexivity.
Qed.

Lemma Pending_depth (M T : list string) :
  Pending opendir root M T ->
  exists path, M = (root ++ path)%list /\
               count_occ string_dec T "" = List.length path.
Proof.
  induction 1 as [ds Hds | M T name ds HP IH Hname Hds].
  - exists []. rewrite app_nil_r. split; [reflexivity|].
    apply count_occ_names. intros x Hx. eapply ListDirectories_names. apply Hds, Hx.
  - destruct IH as (path & -> & Hc). exists (path ++ [name])%list.
    rewrite app_assoc. split; [reflexivity|].
    rewrite count_occ_app, count_occ_cons_eq by reflexivity.
    rewrite count_occ_names
      by (intros x Hx; eapply ListDirectories_names; apply Hds, Hx).
    rewrite Hc, length_app. cbn [List.length]. lia.
Qed.

Lemma Pending_descend_target (M T : list string) (name : string) (rest : list string) :
  Pending opendir root M T -> T = name :: rest -> name <> "" ->
  In name (ListDirectories opendir (mkPath M)).
Proof.
  intros H E Hn. destruct H as [ds Hds | M T name' ds HP Hname Hds].
  - subst ds. apply Hds. left. reflexivity.
  - destruct ds as [|d ds]; cbn [app] in E; injection E as <- <-; [contradiction|].
    apply Hds. left. reflexivity.
Qed.

Lemma Pending_ascend_target (M T : list string) (rest : list string) :
  Pending opendir root M T -> T = "" :: rest ->
  exists parent x, M = (parent ++ [x])%list /\ Pending opendir root parent rest.
Proof.
  intros H E. destruct H as [ds Hds | M T name' ds HP Hname Hds].
  - subst ds. exfalso. eapply ListDirectories_names; [apply Hds; left|]; reflexivity.
  - destruct ds as [|d ds]; cbn [app] in E.
    + injection E as E2. subst. eauto.
    + injection E as E1 E2. subst d. exfalso.
      eapply ListDirectories_names; [apply Hds; left|]; reflexivity.
Qed.

Lemma Pending_done (M : list string) : Pending opendir root M [] -> M = root.
Proof.
  intros H. inversion H as [ds Hds E1 E2 | M0 T name ds HP Hname Hds E1 E2].
  - reflexivity.
  - destruct ds; discriminate.
Qed.

End WalkerInvariant.

Lemma Walk_loop_after (opendir : string -> option (list dirent)) (fuel : nat) :
  forall st st',
    Walk_loop opendir fuel st = Return st' ->
    Walk_after opendir fuel st = Return st' /\ Transitions st' = [].
Proof.
  induction fuel as [|fuel IH]; intros st st' H; [discriminate|].
  cbn [Walk_loop Walk_after] in *.
  destruct (Transitions st) as [|NextTransition rest] eqn:E.
  - injection H as <-. split; [reflexivity | exact E].
  - destruct (Walk_body opendir (mkWalk rest (Marker st) (Calls st)) NextTransition);
      cbn [bind] in *; try discriminate.
    apply IH. exact H.
Qed.

Lemma Pending_begin (opendir : string -> option (list dirent)) (this : DirectoryPath) :
  Pending opendir (Parts this)
          (Parts (Marker (Walk_begin opendir this)))
          (Transitions (Walk_begin opendir this)).
Proof.
  unfold Walk_begin, QueueNewTransitions, Path_copy. rewrite ProcessFiles_calls.
  cbn [Transitions Marker Calls Parts]. apply Pending_root.
  rewrite app_nil_r. apply incl_refl.
Qed.

(* ================================================================== *)
(** * The walk over a finite tree *)

Lemma FsTree_induction (P : FsTree -> Prop) :
  P NoListing ->
  (forall es, Forall (fun p => P (snd p)) es -> P (Listing es)) ->
  forall t, P t.
Proof.
  intros HN HL.
  exact (fix go (t : FsTree) : P t :=
           match t with
           | NoListing => HN
           | Listing es =>
               HL es
                  ((fix all (es : list (dirent * FsTree))
                     : Forall (fun p => P (snd p)) es :=
                      match es with
                      | [] => Forall_nil _
                      | p :: es' => Forall_cons p (go (snd p)) (all es')
                      end) es)
           end).
Qed.

Lemma preorder_files_Listing (at_ : list string) (es : list (dirent * FsTree)) :
  preorder_files at_ (Listing es) = (files_here at_ es ++ files_below at_ es)%list.
Proof.
  cbn [preorder_files]. unfold files_here. f_equal.
  induction es as [|[e sub] es IH]; [reflexivity|].
  cbn [files_below]. rewrite <- IH. reflexivity.
Qed.

Lemma iterations_Listing (es : list (dirent * FsTree)) :
  iterations (Listing es) = iterations_below es.
Proof.
  cbn [iterations]. induction es as [|[e sub] es IH]; [reflexivity|].
  cbn [iterations_below]. rewrite <- IH. reflexivity.
Qed.

Section WalkerTree.

Variable opendir : string -> option (list dirent).
Hypothesis nonempty : names_nonempty opendir.

Lemma visits_below (es : list (dirent * FsTree)) :
  Forall (fun p => visits opendir (snd p)) es ->
  forall (M : list string) (rest : list string) (C : list FilePath) (fuel : nat),
    (forall e sub, In (e, sub) es -> is_subdirectory e = true ->
                   d_name e <> "" /\ Represents opendir (M ++ [d_name e])%list sub) ->
    Walk_loop opendir (iterations_below es + fuel)
              (mkWalk (map d_name (filter is_subdirectory (map fst es)) ++ rest)%list
                      (mkPath M) C) =
    Walk_loop opendir fuel (mkWalk rest (mkPath M) (C ++ files_below M es)%list).
Proof.
  induction es as [|[e sub] es IH]; intros HF M rest C fuel HR.
  - cbn. rewrite app_nil_r. reflexivity.
  - inversion HF as [|? ? Hsub Hes]; subst. cbn [snd] in Hsub.
    assert (HR' : forall e0 sub0, In (e0, sub0) es -> is_subdirectory e0 = true ->
                    d_name e0 <> "" /\ Represents opendir (M ++ [d_name e0])%list sub0)
      by (intros; apply HR; [right|]; assumption).
    cbn [map fst filter iterations_below files_below].
    destruct (is_subdirectory e) eqn:Ed.
    + destruct (HR e sub (or_introl eq_refl) Ed) as [Hn Hr].
      cbn [map app]. rewrite <- Nat.add_assoc.
      rewrite (Hsub M (d_name e) _ C _ Hn Hr).
      rewrite (IH Hes M rest _ fuel HR'). rewrite <- app_assoc. reflexivity.
    + cbn [app Nat.add]. apply (IH Hes M rest C fuel HR').
Qed.

Lemma listing_of_tree (at_ : list string) (es : list (dirent * FsTree)) :
  opendir (AsAbsoluteString false (mkPath at_)) = Some (map fst es) ->
  ListDirectories opendir (mkPath at_) =
    map d_name (filter is_subdirectory (map fst es)) /\
  map (Select (mkPath at_)) (ListFiles opendir (mkPath at_)) = files_here at_ es.
Proof.
  intros H. rewrite ListDirectories_filter, ListFiles_filter. unfold entries_of.
  rewrite H. split; [reflexivity|]. unfold files_here. rewrite map_map. reflexivity.
Qed.

Lemma represented_entries (at_ : list string) (es : list (dirent * FsTree)) :
  Represents opendir at_ (Listing es) ->
  opendir (AsAbsoluteString false (mkPath at_)) = Some (map fst es) /\
  forall e sub, In (e, sub) es -> is_subdirectory e = true ->
                d_name e <> "" /\ Represents opendir (at_ ++ [d_name e])%list sub.
Proof.
  intros H. inversion H as [|? ? Ho Hs]; subst. split; [exact Ho|].
  intros e sub Hin Hd. split; [|apply Hs; assumption].
  eapply nonempty; [exact Ho|]. apply in_map_iff. exists (e, sub). auto.
Qed.

Lemma visits_all (t : FsTree) : visits opendir t.
Proof.
  induction t as [|es IH] using FsTree_induction;
    intros M name rest C fuel Hn HR.
  - inversion HR as [? Ho|]; subst.
    cbn [iterations preorder_files]. rewrite app_nil_r.
    apply Walk_loop_unreadable; assumption.
  - destruct (represented_entries _ _ HR) as [Ho Hs].
    destruct (listing_of_tree _ _ Ho) as [LD LF].
    rewrite iterations_Listing, preorder_files_Listing.
    change (2 + iterations_below es + fuel) with (S (S (iterations_below es + fuel))).
    rewrite Walk_loop_step, Walk_body_descend by exact Hn. cbn [bind].
    unfold Enter, push_back. cbn [Parts]. rewrite LD, LF.
    replace (S (iterations_below es + fuel)) with (iterations_below es + S fuel) by lia.
    rewrite (visits_below es IH (M ++ [name])%list ("" :: rest) _ (S fuel) Hs).
    rewrite Walk_loop_step, Walk_body_ascend. cbn [bind].
    rewrite <- app_assoc. reflexivity.
Qed.

Lemma paired_transitions_Listing (es : list (dirent * FsTree)) :
  paired_transitions (Listing es) = paired_transitions_below es.
Proof.
  cbn [paired_transitions]. induction es as [|[e sub] es IH]; [reflexivity|].
  cbn [paired_transitions_below]. rewrite <- IH. reflexivity.
Qed.

Lemma Walk_executed_step (n : nat) (NextTransition : string) (rest : list string)
    (M : DirectoryPath) (C : list FilePath) (st' : WalkState) :
  Walk_body opendir (mkWalk rest M C) NextTransition = Return st' ->
  Walk_executed opendir (S n) (mkWalk (NextTransition :: rest) M C) =
  NextTransition :: Walk_executed opendir n st'.
Proof. intros H. cbn [Walk_executed Transitions Marker Calls]. rewrite H. reflexivity. Qed.

Lemma executes_below (es : list (dirent * FsTree)) :
  Forall (fun p => executes opendir (snd p)) es ->
  forall (M : list string) (rest : list string) (C : list FilePath) (k : nat),
    (forall e sub, In (e, sub) es -> is_subdirectory e = true ->
                   d_name e <> "" /\ Represents opendir (M ++ [d_name e])%list sub) ->
    Walk_executed opendir (iterations_below es + k)
              (mkWalk (map d_name (filter is_subdirectory (map fst es)) ++ rest)%list
                      (mkPath M) C) =
    (paired_transitions_below es ++
     Walk_executed opendir k (mkWalk rest (mkPath M) (C ++ files_below M es)%list))%list.
Proof.
  induction es as [|[e sub] es IH]; intros HF M rest C k HR.
  - cbn. rewrite app_nil_r. reflexivity.
  - inversion HF as [|? ? Hsub Hes]; subst. cbn [snd] in Hsub.
    assert (HR' : forall e0 sub0, In (e0, sub0) es -> is_subdirectory e0 = true ->
                    d_name e0 <> "" /\ Represents opendir (M ++ [d_name e0])%list sub0)
      by (intros; apply HR; [right|]; assumption).
    cbn [map fst filter iterations_below files_below paired_transitions_below].
    destruct (is_subdirectory e) eqn:Ed.
    + destruct (HR e sub (or_introl eq_refl) Ed) as [Hn Hr].
      cbn [map app]. rewrite <- Nat.add_assoc.
      rewrite (Hsub M (d_name e) _ C _ Hn Hr).
      rewrite (IH Hes M rest _ k HR'). rewrite <- ?app_assoc. cbn [app].
      rewrite <- ?app_assoc. reflexivity.
    + cbn [app Nat.add]. apply (IH Hes M rest C k HR').
Qed.

Lemma executes_all (t : FsTree) : executes opendir t.
Proof.
  induction t as [|es IH] using FsTree_induction;
    intros M name rest C k Hn HR.
  - inversion HR as [? Ho|]; subst.
    cbn [iterations paired_transitions preorder_files app]. rewrite app_nil_r.
    change (2 + 0 + k) with (S (S k)).
    assert (B : Walk_body opendir (mkWalk rest (mkPath M) C) name =
                Return (mkWalk ("" :: rest) (mkPath (M ++ [name])%list) C)).
    { rewrite Walk_body_descend by exact Hn. unfold Enter, push_back. cbn [Parts].
      rewrite ListFiles_filter, ListDirectories_filter. unfold entries_of. rewrite Ho.
      cbn [filter map app]. rewrite app_nil_r. reflexivity. }
    rewrite (Walk_executed_step _ _ _ _ _ _ B).
    rewrite (Walk_executed_step _ _ _ _ _ _ (Walk_body_ascend opendir rest M name C)).
    reflexivity.
  - destruct (represented_entries _ _ HR) as [Ho Hs].
    destruct (listing_of_tree _ _ Ho) as [LD LF].
    rewrite iterations_Listing, preorder_files_Listing, paired_transitions_Listing.
    change (2 + iterations_below es + k) with (S (S (iterations_below es + k))).
    assert (B : Walk_body opendir (mkWalk rest (mkPath M) C) name =
                Return (mkWalk (map d_name (filter is_subdirectory (map fst es))
                                  ++ "" :: rest)%list
                               (mkPath (M ++ [name])%list)
                               (C ++ files_here (M ++ [name])%list es)%list)).
    { rewrite Walk_body_descend by exact Hn. unfold Enter, push_back. cbn [Parts].
      rewrite LD, LF. reflexivity. }
    rewrite (Walk_executed_step _ _ _ _ _ _ B).
    replace (S (iterations_below es + k)) with (iterations_below es + S k) by lia.
    rewrite (executes_below es IH (M ++ [name])%list ("" :: rest) _ (S k) Hs).
    rewrite (Walk_executed_step _ _ _ _ _ _
               (Walk_body_ascend opendir rest M name _)).
    rewrite <- !app_assoc. reflexivity.
Qed.

(** The transitions executed by the whole walk of a finite tree. *)
Lemma Walk_executed_tree (this : DirectoryPath) (t : FsTree) (n : nat) :
  Represents opendir (Parts this) t ->
  iterations t <= n ->
  Walk_executed opendir n (Walk_begin opendir this) = paired_transitions t.
Proof.
  intros HR Hf. unfold Walk_begin, QueueNewTransitions, Path_copy.
  rewrite ProcessFiles_calls. cbn [Transitions Marker Calls app].
  destruct t as [es|].
  - destruct (represented_entries _ _ HR) as [Ho Hs].
    destruct (listing_of_tree _ _ Ho) as [LD LF]. rewrite LD, LF.
    rewrite iterations_Listing in Hf. rewrite paired_transitions_Listing.
    replace n with (iterations_below es + (n - iterations_below es)) by lia.
    rewrite (executes_below es) with (rest := []).
    + destruct (n - iterations_below es); cbn [Walk_executed Transitions];
        rewrite app_nil_r; reflexivity.
    + apply Forall_forall. intros p _. apply executes_all.
    + exact Hs.
  - inversion HR as [? Ho|]; subst.
    rewrite ListDirectories_filter, ListFiles_filter. unfold entries_of. rewrite Ho.
    destruct n; reflexivity.
Qed.

(** The whole walk of a finite tree. *)
Lemma Walk_tree (this : DirectoryPath) (t : FsTree) (fuel : nat) :
  Represents opendir (Parts this) t ->
  iterations t < fuel ->
  Walk opendir fuel this =
  Return (mkWalk [] (mkPath (Parts this)) (preorder_files (Parts this) t)).
Proof.
  intros HR Hf. unfold Walk, Walk_begin, QueueNewTransitions, Path_copy.
  rewrite ProcessFiles_calls. cbn [Transitions Marker Calls app].
  destruct t as [es|].
  - destruct (represented_entries _ _ HR) as [Ho Hs].
    destruct (listing_of_tree _ _ Ho) as [LD LF]. rewrite LD, LF.
    rewrite iterations_Listing in Hf. rewrite preorder_files_Listing.
    replace fuel with (iterations_below es + (fuel - iterations_below es)) by lia.
    rewrite (visits_below es) with (rest := []).
    + destruct (fuel - iterations_below es) as [|k] eqn:E; [lia|]. reflexivity.
    + apply Forall_forall. intros p _. apply visits_all.
    + exact Hs.
  - inversion HR as [? Ho|]; subst.
    rewrite ListDirectories_filter, ListFiles_filter. unfold entries_of. rewrite Ho.
    destruct fuel; [lia|]. reflexivity.
Qed.

End WalkerTree.

Lemma example_names_nonempty : names_nonempty example_fs.
Proof.
  intros name es e H Hin. unfold example_fs in H.
  destruct (String.eqb name "/R"); [|destruct (String.eqb name "/R/D")];
    try discriminate; injection H as <-; cbn [In] in Hin;
    repeat (destruct Hin as [<-|Hin]; [discriminate|]); contradiction.
Qed.

Lemma example_represents : Represents example_fs ["R"] example_tree.
Proof.
  apply Represents_listing; [reflexivity|].
  intros e sub Hin Hd. cbn [In] in Hin.
  repeat (destruct Hin as [Hin|Hin]; [injection Hin as <- <-; try discriminate|]);
    try contradiction.
  - apply Represents_listing; [reflexivity|].
    intros e sub Hin Hd'. cbn [In] in Hin.
    repeat (destruct Hin as [Hin|Hin]; [injection Hin as <- <-; discriminate|]).
    contradiction.
  - apply Represents_none. reflexivity.
Qed.

(** C1. For a finite directory tree, with [readdir] never reporting an
    empty name, the walk returns when given more fuel than the number
    of iterations the tree needs, and the callback has then received
    exactly the pre-order of the tree: for every directory its immediate
    files in listing order, then its subdirectories in listing order,
    each treated the same way; the marker is back at the walk root. *)
Theorem Walk_reports_preorder
    (opendir : string -> option (list dirent)) (this : DirectoryPath)
    (t : FsTree) (fuel : nat) :
  names_nonempty opendir ->
  Represents opendir (Parts this) t ->
  iterations t < fuel ->
  (exists st, Walk opendir fuel this = Return st /\
              Calls st = preorder_files (Parts this) t /\
              Parts (Marker st) = Parts this /\
              Transitions st = []) /\
  (forall at_ es,
      preorder_files at_ (Listing es) = (files_here at_ es ++ files_below at_ es)%list).
Proof.
  intros Hne HR Hf. split; [|exact preorder_files_Listing].
  eexists. split; [apply Walk_tree; eassumption|]. repeat split.
Qed.

Lemma Walk_reports_preorder_witness :
  exists st, Walk example_fs 5 (mkPath ["R"]) = Return st /\
             Calls st = [mkPath ["R"; "f1"]; mkPath ["R"; "f3"]; mkPath ["R"; "D"; "f2"]] /\
             Parts (Marker st) = ["R"] /\
             Transitions st = [].
Proof.
  exact (proj1 (Walk_reports_preorder example_fs (mkPath ["R"]) example_tree 5
                  example_names_nonempty example_represents (le_n 5))).
Defined.

(** C8. With [readdir] never reporting an empty name, every state the
    loop of [Walk] reaches is well formed: the pending list is, level by
    level from the marker up to the walk root, the subdirectories still
    to visit followed by one empty (ascend) entry per level entered, so
    the number of pending ascends is the marker's depth below the root;
    a descend at the front names a subdirectory listed in the marker's
    directory; an ascend at the front finds the marker one level below
    its target, and its [Exit] succeeds; with nothing pending the marker
    is the walk root.  Hence a walk that returns leaves the marker at
    the root.  Over a finite tree the walk does return, and the
    transitions it executed are the paired ones of the tree: every
    descend followed, after the transitions of its subtree, by its
    ascend. *)
Theorem Walk_marker_invariant
    (opendir : string -> option (list dirent)) (this : DirectoryPath) :
  names_nonempty opendir ->
  (forall n, exists st,
      Walk_after opendir n (Walk_begin opendir this) = Return st /\
      Pending opendir (Parts this) (Parts (Marker st)) (Transitions st) /\
      (exists path, Parts (Marker st) = (Parts this ++ path)%list /\
                    count_occ string_dec (Transitions st) "" = List.length path) /\
      (forall name rest, Transitions st = name :: rest -> name <> "" ->
                         In name (ListDirectories opendir (Marker st))) /\
      (forall rest, Transitions st = "" :: rest ->
                    exists parent x,
                      Parts (Marker st) = (parent ++ [x])%list /\
                      Walk_body opendir (mkWalk rest (Marker st) (Calls st)) "" =
                      Return (mkWalk rest (mkPath parent) (Calls st))) /\
      (Transitions st = [] -> Parts (Marker st) = Parts this)) /\
  (forall fuel st, Walk opendir fuel this = Return st ->
                   Transitions st = [] /\ Parts (Marker st) = Parts this) /\
  (forall t fuel, Represents opendir (Parts this) t -> iterations t < fuel ->
                  (exists st, Walk opendir fuel this = Return st /\
                              Parts (Marker st) = Parts this) /\
                  Walk_executed opendir fuel (Walk_begin opendir this) =
                  paired_transitions t).
Proof.
  intros Hne.
  assert (A : forall n, exists st,
             Walk_after opendir n (Walk_begin opendir this) = Return st /\
             Pending opendir (Parts this) (Parts (Marker st)) (Transitions st)).
  { intros n. apply Pending_after; [exact Hne | apply Pending_begin]. }
  split; [|split].
  - intros n. destruct (A n) as (st & Hst & HP). exists st.
    destruct st as [T [M] C]. cbn [Marker Transitions Parts Calls] in *.
    split; [exact Hst|]. split; [exact HP|]. split; [|split; [|split]].
    + eapply Pending_depth; eassumption.
    + intros name rest E Hn. eapply Pending_descend_target; eassumption.
    + intros rest E.
      destruct (Pending_ascend_target opendir Hne _ _ _ rest HP E) as (parent & x & -> & _).
      exists parent, x. split; [reflexivity | apply Walk_body_ascend].
    + intros E. subst T. eapply Pending_done; eassumption.
  - intros fuel st H. apply Walk_loop_after in H. destruct H as [H E].
    split; [exact E|]. destruct (A fuel) as (st' & Hst & HP).
    rewrite H in Hst. injection Hst as <-. rewrite E in HP.
    eapply Pending_done; eassumption.
  - intros t fuel HR Hf. split.
    + eexists. split; [eapply Walk_tree; eassumption|]. reflexivity.
    + apply Walk_executed_tree; [exact Hne | exact HR | lia].
Qed.

Lemma Walk_marker_invariant_witness :
  (exists st,
      Walk_after example_fs 1 (Walk_begin example_fs (mkPath ["R"])) = Return st /\
      Pending example_fs ["R"] (Parts (Marker st)) (Transitions st) /\
      (exists path, Parts (Marker st) = (["R"] ++ path)%list /\
                    count_occ string_dec (Transitions st) "" = List.length path) /\
      (forall name rest, Transitions st = name :: rest -> name <> "" ->
                         In name (ListDirectories example_fs (Marker st))) /\
      (forall rest, Transitions st = "" :: rest ->
                    exists parent x,
                      Parts (Marker st) = (parent ++ [x])%list /\
                      Walk_body example_fs (mkWalk rest (Marker st) (Calls st)) "" =
                      Return (mkWalk rest (mkPath parent) (Calls st))) /\
      (Transitions st = [] -> Parts (Marker st) = ["R"])) /\
  Walk_executed example_fs 5 (Walk_begin example_fs (mkPath ["R"])) = ["D"; ""; "E"; ""].
Proof.
  split.
  - exact (proj1 (Walk_marker_invariant example_fs (mkPath ["R"])
                    example_names_nonempty) 1).
  - exact (proj2 (proj2 (proj2 (Walk_marker_invariant example_fs (mkPath ["R"])
                                  example_names_nonempty))
                   example_tree 5 example_represents (le_n 5))).
Defined.

(* ================================================================== *)
(** * A directory that cannot be opened *)

Lemma files_here_app (at_ : list string) (a b : list (dirent * FsTree)) :
  files_here at_ (a ++ b) = (files_here at_ a ++ files_here at_ b)%list.
Proof. unfold files_here. rewrite map_app, filter_app, map_app. reflexivity. Qed.

Lemma files_below_app (at_ : list string) (a b : list (dirent * FsTree)) :
  files_below at_ (a ++ b) = (files_below at_ a ++ files_below at_ b)%list.
Proof.
  induction a as [|[e sub] a IH]; [reflexivity|].
  cbn [app files_below]. rewrite IH, app_assoc. reflexivity.
Qed.

Lemma files_below_incl (at_ : list string) (es : list (dirent * FsTree))
    (e : dirent) (sub : FsTree) :
  In (e, sub) es -> is_subdirectory e = true ->
  incl (preorder_files (at_ ++ [d_name e])%list sub) (files_below at_ es).
Proof.
  induction es as [|[e0 sub0] es IH]; intros Hin Hd; [contradiction|].
  cbn [files_below]. destruct Hin as [E|Hin].
  - injection E as -> ->. rewrite Hd. apply incl_appl, incl_refl.
  - apply incl_appr, IH; assumption.
Qed.

Lemma is_subdirectory_not_file (e : dirent) : is_subdirectory e = true -> is_file e = false.
Proof.
  unfold is_subdirectory, is_file. destruct (negb (is_dot (d_name e))); [|discriminate].
  cbn [andb]. intros ->. reflexivity.
Qed.

(** Leaving an entry that cannot be opened out of a listing changes
    nothing in the pre-order. *)
Lemma preorder_files_without (at_ : list string) (before after : list (dirent * FsTree))
    (e : dirent) :
  is_subdirectory e = true ->
  preorder_files at_ (Listing (before ++ (e, NoListing) :: after)) =
  preorder_files at_ (Listing (before ++ after)).
Proof.
  intros Hd. rewrite !preorder_files_Listing, !files_here_app, !files_below_app.
  replace (files_here at_ ((e, NoListing) :: after)) with (files_here at_ after)
    by (unfold files_here; cbn [map filter fst];
        rewrite (is_subdirectory_not_file e Hd); reflexivity).
  cbn [files_below preorder_files]. rewrite Hd. reflexivity.
Qed.

(** C9. When the directory a pending entry names cannot be opened, both
    listings of it are empty and nothing is raised: descending into it
    adds no call and queues only the ascend, and two iterations later
    the walk is back at the same marker with the remaining pending
    entries.  It goes on with them: when the next pending entry names a
    sibling, the third iteration descends into the sibling, reports its
    files and queues its subdirectories.  Over a finite tree the walk
    returns having reported exactly what it reports without the entry
    that cannot be opened, the files of every sibling directory among
    them.  A root that cannot be opened gives a walk that returns at
    once with no call. *)
Theorem unreadable_directory_is_skipped
    (opendir : string -> option (list dirent))
    (M : list string) (name : string) (rest : list string) (calls : list FilePath) :
  name <> "" ->
  opendir (AsAbsoluteString false (Enter (mkPath M) name)) = None ->
  ListFiles opendir (Enter (mkPath M) name) = [] /\
  ListDirectories opendir (Enter (mkPath M) name) = [] /\
  Walk_body opendir (mkWalk rest (mkPath M) calls) name =
    Return (mkWalk ("" :: rest) (Enter (mkPath M) name) calls) /\
  (forall fuel,
      Walk_loop opendir (S (S fuel)) (mkWalk (name :: rest) (mkPath M) calls) =
      Walk_loop opendir fuel (mkWalk rest (mkPath M) calls)) /\
  (forall fuel sibling rest',
      rest = sibling :: rest' -> sibling <> "" ->
      Walk_loop opendir (S (S (S fuel))) (mkWalk (name :: rest) (mkPath M) calls) =
      Walk_loop opendir fuel
        (mkWalk (ListDirectories opendir (Enter (mkPath M) sibling) ++ "" :: rest')%list
                (Enter (mkPath M) sibling)
                (calls ++ map (Select (Enter (mkPath M) sibling))
                              (ListFiles opendir (Enter (mkPath M) sibling)))%list)) /\
  (forall (e : dirent) (before after : list (dirent * FsTree)) (fuel : nat),
      names_nonempty opendir ->
      d_name e = name -> is_subdirectory e = true ->
      Represents opendir M (Listing (before ++ (e, NoListing) :: after)) ->
      iterations (Listing (before ++ (e, NoListing) :: after)) < fuel ->
      exists st,
        Walk opendir fuel (mkPath M) = Return st /\
        Marker st = mkPath M /\
        Calls st = preorder_files M (Listing (before ++ after)) /\
        (forall sibling sub,
            In (sibling, sub) (before ++ after) -> is_subdirectory sibling = true ->
            incl (preorder_files (M ++ [d_name sibling])%list sub) (Calls st) /\
            forall file,
              In file (ListFiles opendir (Enter (mkPath M) (d_name sibling))) ->
              In (Select (Enter (mkPath M) (d_name sibling)) file) (Calls st))) /\
  (forall fuel,
      opendir (AsAbsoluteString false (mkPath M)) = None ->
      Walk opendir (S fuel) (mkPath M) = Return (mkWalk [] (mkPath M) [])).
Proof.
  intros Hname Hnone.
  assert (LF : ListFiles opendir (Enter (mkPath M) name) = []).
  { rewrite ListFiles_filter. unfold entries_of. rewrite Hnone. reflexivity. }
  assert (LD : ListDirectories opendir (Enter (mkPath M) name) = []).
  { rewrite ListDirectories_filter. unfold entries_of. rewrite Hnone. reflexivity. }
  assert (B : Walk_body opendir (mkWalk rest (mkPath M) calls) name =
              Return (mkWalk ("" :: rest) (Enter (mkPath M) name) calls)).
  { rewrite Walk_body_descend by exact Hname. rewrite LF, LD.
    cbn [map app]. rewrite app_nil_r. reflexivity. }
  split; [exact LF|]. split; [exact LD|]. split; [exact B|].
  split; [intros fuel; apply Walk_loop_unreadable; assumption|].
  split; [|split].
  - intros fuel sibling rest' -> Hs.
    rewrite Walk_loop_unreadable by assumption.
    rewrite Walk_loop_step, Walk_body_descend by exact Hs. reflexivity.
  - intros e before after fuel Hne He Hd HR Hf.
    eexists. split; [apply (Walk_tree opendir Hne (mkPath M)); [exact HR | exact Hf]|].
    cbn [Marker Calls Parts]. split; [reflexivity|].
    split; [apply preorder_files_without; exact Hd|].
    intros sibling sub Hin Hsd.
    assert (Hin' : In (sibling, sub) (before ++ (e, NoListing) :: after)).
    { apply in_app_or in Hin. apply in_or_app.
      destruct Hin as [Hin|Hin]; [left; exact Hin | right; right; exact Hin]. }
    assert (I : incl (preorder_files (M ++ [d_name sibling])%list sub)
                     (preorder_files M (Listing (before ++ (e, NoListing) :: after)))).
    { rewrite preorder_files_Listing. apply incl_appr.
      apply files_below_incl; assumption. }
    split; [exact I|]. intros file Hfile. apply I.
    destruct (represented_entries opendir Hne _ _ HR) as [_ Hs].
    destruct (Hs sibling sub Hin' Hsd) as [_ HRs].
    unfold Enter, push_back in *. cbn [Parts] in *.
    destruct sub as [es|].
    + inversion HRs as [|? ? Ho _]; subst.
      destruct (listing_of_tree opendir _ _ Ho) as [_ LFs].
      rewrite preorder_files_Listing. apply in_or_app. left.
      rewrite <- LFs. apply in_map. exact Hfile.
    + inversion HRs as [? Ho|]; subst. exfalso.
      rewrite ListFiles_filter in Hfile. unfold entries_of in Hfile.
      rewrite Ho in Hfile. exact Hfile.
  - intros fuel Hroot. unfold Walk, Walk_begin, QueueNewTransitions, Path_copy.
    rewrite ProcessFiles_calls. cbn [Transitions Marker Calls Parts].
    rewrite ListFiles_filter, ListDirectories_filter. unfold entries_of.
    rewrite Hroot. reflexivity.
Qed.

Lemma sibling_names_nonempty : names_nonempty sibling_fs.
Proof.
  intros name es e H Hin. unfold sibling_fs in H.
  destruct (String.eqb name "/R");
    [|destruct (String.eqb name "/R/F"); [|discriminate]];
    injection H as <-; cbn [In] in Hin;
    repeat (destruct Hin as [<-|Hin]; [discriminate|]); contradiction.
Qed.

Lemma sibling_represents :
  Represents sibling_fs ["R"]
    (Listing ([(mkDirent "." DT_DIR, NoListing); (mkDirent ".." DT_DIR, NoListing)] ++
              (mkDirent "E" DT_DIR, NoListing) ::
              [(mkDirent "F" DT_DIR,
                Listing [(mkDirent "." DT_DIR, NoListing); (mkDirent ".." DT_DIR, NoListing);
                         (mkDirent "g" DT_REG, NoListing)]);
               (mkDirent "f1" DT_REG, NoListing)])).
Proof.
  apply Represents_listing; [reflexivity|].
  intros e sub Hin Hd. cbn [In app] in Hin.
  repeat (destruct Hin as [Hin|Hin]; [injection Hin as <- <-; try discriminate|]);
    try contradiction.
  - apply Represents_none. reflexivity.
  - apply Represents_listing; [reflexivity|].
    intros e sub Hin Hd'. cbn [In] in Hin.
    repeat (destruct Hin as [Hin|Hin]; [injection Hin as <- <-; discriminate|]).
    contradiction.
Qed.

Lemma unreadable_directory_is_skipped_witness :
  ListFiles sibling_fs (Enter (mkPath ["R"]) "E") = [] /\
  Walk_loop sibling_fs 5 (mkWalk ["E"; "F"] (mkPath ["R"]) [mkPath ["R"; "f1"]]) =
    Return (mkWalk [] (mkPath ["R"]) [mkPath ["R"; "f1"]; mkPath ["R"; "F"; "g"]]) /\
  exists st,
    Walk sibling_fs 5 (mkPath ["R"]) = Return st /\
    Marker st = mkPath ["R"] /\
    Calls st = [mkPath ["R"; "f1"]; mkPath ["R"; "F"; "g"]].
Proof.
  destruct (unreadable_directory_is_skipped sibling_fs ["R"] "E" ["F"]
              [mkPath ["R"; "f1"]])
    as (LF & _ & _ & _ & S3 & T & _).
  - discriminate.
  - reflexivity.
  - split; [exact LF|]. split.
    + rewrite (S3 2 "F" [] eq_refl); [reflexivity | discriminate].
    + destruct (T (mkDirent "E" DT_DIR)
                  [(mkDirent "." DT_DIR, NoListing); (mkDirent ".." DT_DIR, NoListing)]
                  [(mkDirent "F" DT_DIR,
                    Listing [(mkDirent "." DT_DIR, NoListing);
                             (mkDirent ".." DT_DIR, NoListing);
                             (mkDirent "g" DT_REG, NoListing)]);
                   (mkDirent "f1" DT_REG, NoListing)]
                  5 sibling_names_nonempty eq_refl eq_refl sibling_represents (le_n 5))
        as (st & W & Mk & Cl & _).
      exists st. split; [exact W|]. split; [exact Mk | exact Cl].
Defined.

(* ================================================================== *)
(** * Further properties: strings resolved under a directory *)

Lemma split_on_append_separator (c : ascii) (x y : string) :
  split_on c (x ++ String c y) = (split_on c x ++ split_on c y)%list.
Proof.
  induction x as [|a t IH]; cbn [append split_on].
  - rewrite Ascii.eqb_refl. reflexivity.
  - rewrite IH. destruct (Ascii.eqb a c); [reflexivity|].
    pose proof (split_on_nonempty c t) as N.
    destruct (split_on c t); [contradiction | reflexivity].
Qed.

Lemma normalize_app (W : bool) (a b : list string) :
  forall st,
    normalize W (a ++ b) st =
    match normalize W a st with
    | Some st' => normalize W b st'
    | None => None
    end.
Proof.
  induction a as [|t a IH]; intros st; cbn [app normalize]; [reflexivity|].
  destruct (String.eqb t ""); [apply IH|].
  destruct (String.eqb t "."); [apply IH|].
  destruct (String.eqb t ".."); [|apply IH].
  destruct (List.length st <=? reserved W)%nat; [reflexivity | apply IH].
Qed.

(** A normalized, "/"-free segment list is what its absolute string
    parses to. *)
Lemma normalize_AsAbsoluteString (ps : list string) :
  normalized ps -> Forall separator_free ps ->
  normalize false (split_on slash (AsAbsoluteString false (mkPath ps))) [] = Some ps.
Proof.
  intros Hn Hf. rewrite AsAbsoluteString_posix. cbn [Parts].
  destruct ps as [|q ps]; [reflexivity|].
  rewrite split_on_separator_prefixed by exact Hf.
  change (normalize false ("" :: q :: ps) []) with (normalize false (q :: ps) []).
  apply (normalize_segments false (q :: ps) [] Hn).
Qed.

Lemma AsAbsoluteString_posix_head (ps : list string) :
  exists t, AsAbsoluteString false (mkPath ps) = String slash t.
Proof.
  rewrite AsAbsoluteString_posix. cbn [Parts].
  destruct ps as [|q ps]; [exists ""; reflexivity|].
  exists (q ++ separator_prefixed ps). reflexivity.
Qed.

(** Parsing the absolute string of a directory followed by "/" and any
    string continues the normalizer from the directory's segments. *)
Lemma Path_new_under (ps : list string) (raw : string) :
  normalized ps -> Forall separator_free ps ->
  fits ((AsAbsoluteString false (mkPath ps) ++ "/") ++ raw) ->
  Path_new false ((AsAbsoluteString false (mkPath ps) ++ "/") ++ raw) =
  match normalize false (split_on slash raw) ps with
  | Some qs => Return (mkPath qs)
  | None => Throw (Construction root_level_message)
  end.
Proof.
  intros Hn Hf Hfit. rewrite Path_new_unfold by exact Hfit.
  rewrite tokens_posix. rewrite append_assoc.
  change ("/" ++ raw) with (String slash raw).
  rewrite split_on_append_separator, normalize_app.
  rewrite normalize_AsAbsoluteString by assumption.
  destruct (AsAbsoluteString_posix_head ps) as [t ->]. reflexivity.
Qed.

Lemma split_on_free (p : string) : separator_free p -> split_on slash p = [p].
Proof. apply split_on_no_separator. Qed.

Lemma split_on_concat (toks : list string) :
  Forall separator_free toks ->
  split_on slash (String.concat "/" toks) =
  match toks with
  | [] => [""]
  | _ :: _ => toks
  end.
Proof.
  intros H. destruct toks as [|t toks]; [reflexivity|].
  inversion H as [|? ? Ht Hts]; subst.
  rewrite concat_cons, split_on_after_free by exact Ht.
  rewrite split_on_separator_prefixed by exact Hts.
  destruct toks; rewrite ?append_empty_r; reflexivity.
Qed.

Lemma normalize_empty_token (W : bool) (st : list string) :
  normalize W [""] st = Some st.
Proof. reflexivity. Qed.

Lemma removelast_firstn_length {A : Type} (l : list A) :
  removelast l = firstn (List.length l - 1) l.
Proof.
  destruct l as [|a l]; [reflexivity|].
  replace (List.length (a :: l) - 1) with (Nat.pred (List.length (a :: l)))
    by (cbn [List.length]; lia).
  apply removelast_firstn_len.
Qed.

(** [n] tokens ".." on a stack that holds at least [n] segments remove
    its last [n] segments. *)
Lemma normalize_ascend (n : nat) :
  forall (rest st : list string),
    n <= List.length st ->
    normalize false (repeat ".." n ++ rest) st =
    normalize false rest (firstn (List.length st - n) st).
Proof.
  induction n as [|n IH]; intros rest st H.
  - cbn [repeat app]. rewrite Nat.sub_0_r, firstn_all. reflexivity.
  - cbn [repeat app normalize String.eqb Ascii.eqb Bool.eqb reserved].
    destruct (Nat.leb_spec (List.length st) 0) as [L|L]; [lia|].
    rewrite IH.
    + rewrite removelast_firstn_length, firstn_firstn.
      rewrite length_firstn. f_equal. f_equal. lia.
    + rewrite removelast_firstn_length, length_firstn. lia.
Qed.

Lemma common_prefix_length_bound (a b : list string) :
  common_prefix_length a b <= List.length a /\
  common_prefix_length a b <= List.length b.
Proof.
  revert b. induction a as [|x a IH]; intros b; [cbn; lia|].
  destruct b as [|y b]; [cbn; lia|]. cbn [common_prefix_length List.length].
  destruct (String.eqb x y); [|lia]. specialize (IH b). lia.
Qed.

Lemma common_prefix_firstn (a b : list string) :
  firstn (common_prefix_length a b) a = firstn (common_prefix_length a b) b.
Proof.
  revert b. induction a as [|x a IH]; intros b; [destruct b; reflexivity|].
  destruct b as [|y b]; [reflexivity|]. cbn [common_prefix_length].
  destruct (String.eqb_spec x y) as [->|]; [|reflexivity].
  cbn [firstn]. rewrite IH. reflexivity.
Qed.

Lemma normalize_relative_tokens (here from : list string) :
  normalized here ->
  normalize false (relative_tokens here from) from = Some here.
Proof.
  intros Hn. unfold relative_tokens.
  destruct (common_prefix_length_bound here from) as [Hk1 Hk2].
  rewrite normalize_ascend by lia.
  replace (List.length from - (List.length from - common_prefix_length here from))
    with (common_prefix_length here from) by lia.
  rewrite normalize_segments.
  - rewrite <- common_prefix_firstn, firstn_skipn. reflexivity.
  - unfold normalized in *. rewrite <- (firstn_skipn (common_prefix_length here from) here) in Hn.
    apply Forall_app in Hn. apply Hn.
Qed.

Lemma Path_eta (p : Path) : mkPath (Parts p) = p.
Proof. destruct p. reflexivity. Qed.

(** X1. [Qualify] of a string that is not absolute resolves it against
    the working directory: the normalizer goes on from the working
    directory's segments over the "/"-delimited tokens of the string, so
    ".." climbs out of the working directory and raises a Construction
    error only above the root; a single segment gives the file of that
    name in the working directory.  When [getcwd] fails a System error
    is raised. *)
Theorem Qualify_relative :
  (forall (cwd raw : string) (d : DirectoryPath),
      fits cwd ->
      DirectoryPath_new false cwd = Return d ->
      IsAbsolute false raw = false ->
      fits ((AsAbsoluteString false d ++ "/") ++ raw) ->
      FilePath_Qualify false (Some cwd) raw =
        match normalize false (split_on slash raw) (Parts d) with
        | Some qs => Return (mkPath qs)
        | None => Throw (Construction root_level_message)
        end /\
      DirectoryPath_Qualify false (Some cwd) raw =
        FilePath_Qualify false (Some cwd) raw /\
      (is_segment raw -> separator_free raw ->
       FilePath_Qualify false (Some cwd) raw = Return (Select d raw))) /\
  (forall raw : string,
      IsAbsolute false raw = false ->
      FilePath_Qualify false None raw =
        Throw (System "Couldn't obtain working directory!")).
Proof.
  split.
  - intros cwd raw d Hfit Hd Hrel Hfit'.
    destruct (Path_new_posix_inv cwd d Hfit Hd) as (Hn & Hf & _).
    assert (Q : FilePath_Qualify false (Some cwd) raw =
                match normalize false (split_on slash raw) (Parts d) with
                | Some qs => Return (mkPath qs)
                | None => Throw (Construction root_level_message)
                end).
    { unfold FilePath_Qualify, LocateWorkingDirectory. rewrite Hrel, Hd. cbn [bind].
      unfold FilePath_new. rewrite <- (Path_eta d) at 1 2.
      rewrite <- (Path_eta d) in Hfit'. apply Path_new_under; assumption. }
    split; [exact Q | split].
    + unfold DirectoryPath_Qualify, FilePath_Qualify, DirectoryPath_new, FilePath_new.
      reflexivity.
    + intros (N1 & N2 & N3) Hs. rewrite Q, split_on_free by exact Hs.
      cbn [normalize].
      destruct (String.eqb_spec raw ""); [contradiction|].
      destruct (String.eqb_spec raw "."); [contradiction|].
      destruct (String.eqb_spec raw ".."); [contradiction|]. reflexivity.
  - intros raw Hrel. unfold FilePath_Qualify, LocateWorkingDirectory.
    rewrite Hrel. reflexivity.
Qed.

Lemma Qualify_relative_witness :
  FilePath_Qualify false (Some "/home/guest") "../shared/./notes.txt" =
    Return (mkPath ["home"; "shared"; "notes.txt"]) /\
  DirectoryPath_Qualify false (Some "/home/guest") "../shared/./notes.txt" =
    FilePath_Qualify false (Some "/home/guest") "../shared/./notes.txt" /\
  (is_segment "../shared/./notes.txt" -> separator_free "../shared/./notes.txt" ->
   FilePath_Qualify false (Some "/home/guest") "../shared/./notes.txt" =
     Return (Select (mkPath ["home"; "guest"]) "../shared/./notes.txt")).
Proof.
  apply (proj1 Qualify_relative "/home/guest" "../shared/./notes.txt"
               (mkPath ["home"; "guest"])).
  - reflexivity.
  - reflexivity.
  - reflexivity.
  - reflexivity.
Defined.

Lemma AsRelativeString_tokens (here from : Path) :
  AsRelativeString here from =
  String.concat "/" (relative_tokens (Parts here) (Parts from)).
Proof.
  unfold AsRelativeString, Path_FindCommonRoot, relative_tokens.
  rewrite FindCommonRoot_loop_spec. cbv zeta.
  rewrite (fold_left_constant AppendPart).
  change (fun st (Part : string) => AppendPart st Part) with AppendPart.
  rewrite <- fold_left_app, fold_AppendPart_first. cbn [fst].
  rewrite length_skipn. reflexivity.
Qed.

Lemma relative_tokens_free (here from : list string) :
  Forall separator_free here -> Forall separator_free (relative_tokens here from).
Proof.
  intros H. unfold relative_tokens. apply Forall_app. split.
  - apply Forall_forall. intros x Hx. apply repeat_spec in Hx. subst x. reflexivity.
  - rewrite <- (firstn_skipn (common_prefix_length here from) here) in H.
    apply Forall_app in H. apply H.
Qed.

(** X2. On a root-relative platform the relative string leads back:
    for a Path and an origin directory both constructed from strings,
    the origin's absolute string followed by "/" and the relative string
    of the Path from that origin parses to the Path itself. *)
Theorem AsRelativeString_leads_back
    (s1 s2 : string) (here : Path) (from : DirectoryPath) :
  fits s1 -> fits s2 ->
  Path_new false s1 = Return here ->
  DirectoryPath_new false s2 = Return from ->
  fits ((AsAbsoluteString false from ++ "/") ++ AsRelativeString here from) ->
  Path_new false ((AsAbsoluteString false from ++ "/") ++ AsRelativeString here from) =
  Return here.
Proof.
  intros Hf1 Hf2 H1 H2 Hfit.
  destruct (Path_new_posix_inv s1 here Hf1 H1) as (Hn1 & Hs1 & _).
  destruct (Path_new_posix_inv s2 from Hf2 H2) as (Hn2 & Hs2 & _).
  rewrite <- (Path_eta from) in Hfit |- * at 1.
  rewrite Path_new_under by assumption.
  rewrite AsRelativeString_tokens.
  rewrite split_on_concat by (apply relative_tokens_free; exact Hs1).
  pose proof (normalize_relative_tokens (Parts here) (Parts from) Hn1) as R.
  destruct (relative_tokens (Parts here) (Parts from)) as [|t ts].
  - cbn [normalize] in R |- *. rewrite String.eqb_refl. cbn [normalize].
    injection R as ->. rewrite Path_eta. reflexivity.
  - rewrite R, Path_eta. reflexivity.
Qed.

Lemma AsRelativeString_leads_back_witness :
  Path_new false ((AsAbsoluteString false (mkPath ["a"; "x"; "y"]) ++ "/")
                    ++ AsRelativeString (mkPath ["a"; "b"; "c"]) (mkPath ["a"; "x"; "y"])) =
  Return (mkPath ["a"; "b"; "c"]).
Proof.
  apply (AsRelativeString_leads_back "/a/b/c" "/a/x/y/"
           (mkPath ["a"; "b"; "c"]) (mkPath ["a"; "x"; "y"]));
    reflexivity.
Defined.

(** X3. On a root-relative platform two Paths constructed from strings
    have the same absolute string exactly when they have the same
    segments, no segment of a constructed Path contains "/", and the
    absolute string of a constructed Path is never longer than the
    string it was constructed from. *)
Theorem AsAbsoluteString_faithful
    (s1 s2 : string) (p q : Path) :
  fits s1 -> fits s2 ->
  Path_new false s1 = Return p ->
  Path_new false s2 = Return q ->
  (AsAbsoluteString false p = AsAbsoluteString false q <-> p = q) /\
  Forall separator_free (Parts p) /\
  String.length (AsAbsoluteString false p) <= String.length s1.
Proof.
  intros Hf1 Hf2 H1 H2.
  destruct (Path_new_posix_inv s1 p Hf1 H1) as (Hn1 & Hs1 & Hw1).
  destruct (Path_new_posix_inv s2 q Hf2 H2) as (Hn2 & Hs2 & _).
  split; [|split; [exact Hs1|]].
  - split; [|intros ->; reflexivity].
    intros E. apply (f_equal (fun x => normalize false (split_on slash x) [])) in E.
    rewrite <- (Path_eta p), <- (Path_eta q) in E.
    rewrite !normalize_AsAbsoluteString in E by assumption.
    injection E as E. rewrite <- (Path_eta p), <- (Path_eta q), E. reflexivity.
  - rewrite AsAbsoluteString_posix. destruct (Parts p) as [|a l] eqn:E.
    + rewrite Path_new_unfold in H1 by exact Hf1.
      destruct (empty s1) eqn:Ee; [discriminate|].
      destruct s1; [discriminate | cbn [String.length]; lia].
    + rewrite length_separator_prefixed. exact Hw1.
Qed.

Lemma AsAbsoluteString_faithful_witness :
  (AsAbsoluteString false (mkPath ["a"; "c"]) = AsAbsoluteString false (mkPath ["a"; "c"])
   <-> mkPath ["a"; "c"] = mkPath ["a"; "c"]) /\
  Forall separator_free (Parts (mkPath ["a"; "c"])) /\
  String.length (AsAbsoluteString false (mkPath ["a"; "c"])) <= String.length "/a/./b/../c".
Proof.
  apply (AsAbsoluteString_faithful "/a/./b/../c" "/a/c" (mkPath ["a"; "c"]) (mkPath ["a"; "c"]));
    reflexivity.
Defined.

(* ================================================================== *)
(** * Further properties: common roots and navigation *)

Lemma common_prefix_length_sym (a b : list string) :
  common_prefix_length a b = common_prefix_length b a.
Proof.
  revert b. induction a as [|x a IH]; intros b; [destruct b; reflexivity|].
  destruct b as [|y b]; [reflexivity|]. cbn [common_prefix_length].
  rewrite (String.eqb_sym y x). destruct (String.eqb x y); [|reflexivity].
  rewrite IH. reflexivity.
Qed.

Lemma common_prefix_length_greatest (c ra rb : list string) :
  List.length c <= common_prefix_length (c ++ ra) (c ++ rb).
Proof.
  induction c as [|x c IH]; [cbn; lia|].
  cbn [app common_prefix_length List.length]. rewrite String.eqb_refl. lia.
Qed.

Lemma DirectoryPath_FindCommonRoot_firstn (a b : DirectoryPath) :
  DirectoryPath_FindCommonRoot a b =
  mkPath (firstn (common_prefix_length (Parts a) (Parts b)) (Parts a)).
Proof.
  unfold DirectoryPath_FindCommonRoot, Path_FindCommonRoot.
  rewrite FindCommonRoot_loop_spec. reflexivity.
Qed.

(** X4. [DirectoryPath::FindCommonRoot] returns the longest common
    leading part of the two directories: its segments start both
    segment sequences, every sequence that starts both starts the
    result, the order of the two directories does not matter, and the
    common root of a directory with itself is that directory. *)
Theorem FindCommonRoot_greatest_common_prefix (a b : DirectoryPath) :
  (exists ra rb,
      Parts a = (Parts (DirectoryPath_FindCommonRoot a b) ++ ra)%list /\
      Parts b = (Parts (DirectoryPath_FindCommonRoot a b) ++ rb)%list /\
      (forall x y ra' rb', ra = x :: ra' -> rb = y :: rb' -> x <> y)) /\
  (forall c ra rb,
      Parts a = (c ++ ra)%list -> Parts b = (c ++ rb)%list ->
      exists r, Parts (DirectoryPath_FindCommonRoot a b) = (c ++ r)%list) /\
  DirectoryPath_FindCommonRoot a b = DirectoryPath_FindCommonRoot b a /\
  DirectoryPath_FindCommonRoot a a = a.
Proof.
  rewrite !DirectoryPath_FindCommonRoot_firstn. cbn [Parts].
  set (k := common_prefix_length (Parts a) (Parts b)).
  split; [|split; [|split]].
  - exists (skipn k (Parts a)), (skipn k (Parts b)).
    split; [symmetry; apply firstn_skipn|]. split.
    + unfold k. rewrite common_prefix_firstn. symmetry. apply firstn_skipn.
    + unfold k. clear k. generalize (Parts a) (Parts b). clear a b.
      intros a. induction a as [|u a IH]; intros b x y ra' rb' Ea Eb.
      * destruct b; discriminate.
      * destruct b as [|v b]; [discriminate|].
        cbn [common_prefix_length] in Ea, Eb.
        destruct (String.eqb_spec u v) as [->|N].
        -- cbn [skipn] in Ea, Eb. eapply IH; eassumption.
        -- cbn [skipn] in Ea, Eb. injection Ea as <- _. injection Eb as <- _. exact N.
  - intros c ra rb Ea Eb.
    pose proof (common_prefix_length_greatest c ra rb) as G.
    rewrite <- Ea, <- Eb in G. fold k in G.
    exists (firstn (k - List.length c) ra).
    rewrite Ea, firstn_app, firstn_all2 by exact G. reflexivity.
  - unfold k. rewrite (common_prefix_length_sym (Parts b) (Parts a)).
    rewrite common_prefix_firstn. reflexivity.
  - rewrite common_prefix_length_same, firstn_all. apply Path_eta.
Qed.

Lemma Return_inj {A : Type} (a b : A) : Return a = Return b -> a = b.
Proof. intros H. injection H as H. exact H. Qed.

Lemma unsigned_int_wrap_succ (z : Z) :
  unsigned_int_wrap (Z.of_N (unsigned_int_wrap z) + 1) = unsigned_int_wrap (z + 1).
Proof.
  unfold unsigned_int_wrap.
  rewrite Z2N.id by (apply Z.mod_pos_bound; lia).
  rewrite Z.add_mod_idemp_l by lia. reflexivity.
Qed.

Lemma unsigned_int_wrap_small (z : Z) :
  (0 <= z < 2 ^ 32)%Z -> unsigned_int_wrap z = Z.to_N z.
Proof. intros H. unfold unsigned_int_wrap. rewrite Z.mod_small by lia. reflexivity. Qed.

Lemma unsigned_int_wrap_bound (z : Z) : (unsigned_int_wrap z < 2 ^ 32)%N.
Proof.
  unfold unsigned_int_wrap. pose proof (Z.mod_pos_bound z (2 ^ 32) ltac:(lia)) as H.
  lia.
Qed.

(** X5. [Enter] and [Exit] undo each other and move [Depth] by one in
    [unsigned int]: leaving a directory just entered gives the directory
    back (with WINDOWS provided it had its drive segment), entering the
    last segment of the directory that [Exit] left gives it back, and
    [Exit] fails its assertion exactly on a root or, with WINDOWS, on an
    empty sequence, where [IsRoot] holds or fails as well.  A root has
    Depth 0; a Path of Depth 0 is a root as long as it has fewer than
    2^32 segments, and one with 2^32 segments after the reserved ones
    has Depth 0 without being a root. *)
Theorem Enter_Exit_inverse (W : bool) (d : DirectoryPath) (name : string) :
  (W = false \/ Parts d <> [] ->
   Exit W (Enter d name) = Return d /\
   Depth W (Enter d name) =
     (n <- Depth W d ;; Return (unsigned_int_wrap (Z.of_N n + 1))) /\
   IsRoot W (Enter d name) = Return false) /\
  (forall d', Exit W d = Return d' ->
              Enter d' (last (Parts d) "") = d /\
              Depth W d =
                (n <- Depth W d' ;; Return (unsigned_int_wrap (Z.of_N n + 1)))) /\
  (Exit W d = AssertFail <->
   IsRoot W d = Return true \/ IsRoot W d = AssertFail) /\
  (forall n, Depth W d = Return n ->
     (n < 2 ^ 32)%N /\
     (IsRoot W d = Return true -> n = 0%N) /\
     ((Z.of_nat (List.length (Parts d)) < 2 ^ 32)%Z ->
      n = N.of_nat (List.length (Parts d) - reserved W) /\
      (n = 0%N -> IsRoot W d = Return true))) /\
  (Z.of_nat (List.length (Parts d)) = (2 ^ 32 + Z.of_nat (reserved W))%Z ->
   Depth W d = Return 0%N /\ IsRoot W d = Return false).
Proof.
  destruct d as [ps]. unfold Exit, Enter, IsRoot, Depth, push_back, pop_back.
  cbn [Parts]. split; [|split; [|split; [|split]]].
  - intros H.
    assert (E : is_empty (ps ++ [name])%list = false) by (destruct ps; reflexivity).
    rewrite E, length_app. cbn [List.length].
    destruct W.
    + destruct H as [H|H]; [discriminate|].
      destruct ps as [|a l]; [contradiction|]. cbn [is_empty bind List.length].
      destruct (Nat.leb_spec (S (List.length l) + 1) 1) as [L|L]; [lia|].
      cbn [bind]. rewrite removelast_last, unsigned_int_wrap_succ.
      repeat split. do 2 f_equal. lia.
    + cbn [bind]. rewrite removelast_last, unsigned_int_wrap_succ. repeat split.
      do 2 f_equal. lia.
  - intros d' H.
    assert (ps <> [] /\ d' = mkPath (removelast ps) /\
            (W = true -> 2 <= List.length ps)) as (N & -> & L).
    { destruct W, ps as [|a l]; cbn [is_empty bind List.length] in H; try discriminate.
      - destruct (Nat.leb_spec (S (List.length l)) 1); cbn [bind] in H;
          [discriminate|]. injection H as <-.
        repeat split; [discriminate | intros _; cbn [List.length]; lia].
      - injection H as <-. repeat split; [discriminate | discriminate]. }
    cbn [Parts]. split.
    + f_equal. symmetry. apply app_removelast_last. exact N.
    + pose proof (app_removelast_last "" N) as E.
      apply (f_equal (@List.length string)) in E. rewrite length_app in E.
      cbn [List.length] in E.
      destruct W.
      * specialize (L eq_refl).
        destruct ps as [|a l]; [contradiction|]. cbn [is_empty].
        destruct (removelast (a :: l)) as [|b m] eqn:R;
          [cbn [List.length] in *; lia|].
        cbn [is_empty bind]. rewrite unsigned_int_wrap_succ. do 2 f_equal.
        cbn [List.length] in *. lia.
      * cbn [bind]. rewrite unsigned_int_wrap_succ. do 2 f_equal. lia.
  - destruct W, ps as [|a l]; cbn [is_empty bind List.length].
    + split; auto.
    + destruct (Nat.leb_spec (S (List.length l)) 1); cbn [bind].
      * split; auto.
      * split; [discriminate | intros [K|K]; discriminate].
    + split; auto.
    + split; [discriminate | intros [K|K]; discriminate].
  - intros n H. unfold reserved.
    destruct W, ps as [|a l]; try discriminate H; apply Return_inj in H;
      subst n; (split; [apply unsigned_int_wrap_bound|]).
    + destruct (Nat.leb_spec (List.length (a :: l)) 1) as [L|L].
      * cbn [List.length] in L.
        assert (E : List.length l = 0) by lia.
        cbn [List.length]. rewrite E. split; [reflexivity|].
        intros _. split; reflexivity.
      * split; [discriminate|]. intros B.
        rewrite unsigned_int_wrap_small by lia.
        split; [lia | intros Z0; exfalso; lia].
    + split; [reflexivity|]. intros _. split; reflexivity.
    + split; [discriminate|]. intros B.
      rewrite unsigned_int_wrap_small by lia. cbn [List.length] in *.
      split; [lia | intros Z0; exfalso; lia].
  - intros H. destruct W, ps as [|a l]; cbn [is_empty reserved List.length] in *;
      try lia.
    + destruct (Nat.leb_spec (S (List.length l)) 1) as [L|L]; [lia|].
      split; [|reflexivity]. f_equal. unfold unsigned_int_wrap.
      replace (Z.of_nat (S (List.length l)) - 1)%Z with (2 ^ 32)%Z by lia.
      reflexivity.
    + split; [|reflexivity]. f_equal. unfold unsigned_int_wrap. rewrite H.
      reflexivity.
Qed.

Lemma Enter_Exit_inverse_witness :
  Exit true (Enter (mkPath ["C:"]) "Users") = Return (mkPath ["C:"]) /\
  Depth true (Enter (mkPath ["C:"]) "Users") =
    (n <- Depth true (mkPath ["C:"]) ;; Return (unsigned_int_wrap (Z.of_N n + 1))) /\
  IsRoot true (Enter (mkPath ["C:"]) "Users") = Return false.
Proof.
  apply (proj1 (Enter_Exit_inverse true (mkPath ["C:"]) "Users")).
  right. discriminate.
Defined.

Lemma FindCommonRoot_greatest_common_prefix_witness :
  exists r,
    Parts (DirectoryPath_FindCommonRoot (mkPath ["a"; "b"; "c"]) (mkPath ["a"; "b"; "d"])) =
    (["a"] ++ r)%list.
Proof.
  apply (proj1 (proj2 (FindCommonRoot_greatest_common_prefix
                         (mkPath ["a"; "b"; "c"]) (mkPath ["a"; "b"; "d"])))
               ["a"] ["b"; "c"] ["b"; "d"]);
    reflexivity.
Defined.

(* ================================================================== *)
(** * Further properties: the drive segment *)

Lemma tokens_unfold (W : bool) (r : string) :
  tokens W r =
  match next_separator W r with
  | None => [r]
  | Some k => take k r :: tokens W (drop (S k) r)
  end.
Proof.
  unfold tokens at 1. destruct (String.length r) as [|n] eqn:E.
  - destruct r; [|discriminate]. destruct W; reflexivity.
  - cbn [tokens_upto]. destruct (next_separator W r) as [k|] eqn:Ek; [|reflexivity].
    f_equal. apply tokens_upto_enough. apply next_separator_bound in Ek.
    rewrite length_drop. lia.
Qed.

Lemma index_of_get (c : ascii) (r : string) :
  forall k, index_of c r = Some k -> String.get k r = Some c.
Proof.
  induction r as [|a t IH]; intros k H; cbn [index_of] in H; [discriminate|].
  destruct (Ascii.eqb_spec a c) as [->|].
  - injection H as <-. reflexivity.
  - destruct (index_of c t) as [j|]; [|discriminate]. injection H as <-.
    cbn [String.get]. apply IH. reflexivity.
Qed.

Lemma next_separator_get (W : bool) (r : string) (k : nat) :
  next_separator W r = Some k ->
  String.get k r = Some slash \/ String.get k r = Some backslash.
Proof.
  unfold next_separator. destruct (index_of slash r) as [j|] eqn:E.
  - intros H. injection H as <-. left. apply index_of_get. exact E.
  - destruct W; [|discriminate]. intros H. right. apply index_of_get. exact H.
Qed.

(** With WINDOWS, the tokens of a string that passes [IsAbsolute] start
    with a segment, after at most one empty token. *)
Lemma drive_token (s : string) :
  IsAbsolute true s = true ->
  exists t0 rest,
    is_segment t0 /\
    (tokens true s = t0 :: rest \/ tokens true s = "" :: t0 :: rest).
Proof.
  intros Ea. unfold IsAbsolute in Ea.
  destruct s as [|a [|b u]]; try discriminate.
  change (at_index (String a (String b u)) 1) with b in Ea.
  destruct (Ascii.eqb_spec b colon) as [->|];
    [|rewrite orb_true_r in Ea; discriminate].
  clear Ea.
  assert (Hcolon : forall v, exists t0 rest,
             is_segment t0 /\ tokens true (String colon v) = t0 :: rest).
  { intros v. rewrite tokens_unfold.
    destruct (next_separator true (String colon v)) as [k|] eqn:E.
    - destruct k as [|j].
      + apply next_separator_get in E. cbn in E. destruct E; discriminate.
      + do 2 eexists. split; [|reflexivity]. cbn [take].
        repeat split; intros K; discriminate.
    - do 2 eexists. split; [|reflexivity]. repeat split; intros K; discriminate. }
  rewrite tokens_unfold.
  destruct (next_separator true (String a (String colon u))) as [k|] eqn:E.
  - destruct k as [|[|j]].
    + cbn [take drop]. destruct (Hcolon u) as (t0 & rest & Ht & ->).
      exists t0, rest. auto.
    + apply next_separator_get in E. cbn in E. destruct E; discriminate.
    + do 2 eexists. split; [|left; reflexivity]. cbn [take].
      repeat split; intros K; discriminate.
  - do 2 eexists. split; [|left; reflexivity]. repeat split; intros K; discriminate.
Qed.

Lemma navigate_keeps_first (drive : string) (calls : list Navigation) :
  forall d selected d' selected' r,
    Parts d = drive :: r ->
    Forall (fun f : FilePath => exists r', Parts f = drive :: r') selected ->
    navigate true calls d selected = Return (d', selected') ->
    (exists r', Parts d' = drive :: r') /\
    Forall (fun f : FilePath => exists r', Parts f = drive :: r') selected'.
Proof.
  induction calls as [|c calls IH]; intros d sel d' sel' r Hd Hs H.
  - injection H as <- <-. split; [eauto | exact Hs].
  - destruct c as [name| |name]; cbn [navigate] in H.
    + eapply IH; [| exact Hs | exact H].
      unfold Enter, push_back. cbn [Parts]. rewrite Hd. reflexivity.
    + unfold Exit, IsRoot in H. rewrite Hd in H. cbn [is_empty bind List.length] in H.
      destruct r as [|b l]; [discriminate|].
      cbn [List.length Nat.leb bind pop_back] in H.
      eapply IH; [| exact Hs | exact H]. cbn [Parts].
      change (removelast (drive :: b :: l)) with (drive :: removelast (b :: l)).
      reflexivity.
    + eapply IH; [exact Hd | | exact H].
      apply Forall_app. split; [exact Hs|]. constructor; [|constructor].
      unfold Select, FilePath_of_parts, push_back. cbn [Parts]. rewrite Hd.
      eexists. reflexivity.
Qed.

(** X6. With WINDOWS the first segment is reserved: every Path
    constructed from a string has a first segment, so [IsRoot] and
    [Depth] never fail their assertion on it, the Path is a root exactly
    when nothing follows that segment, and [Depth] is the number of
    segments that follow, reduced into [unsigned int] (the number itself
    below 2^32); no sequence of Enter, Exit and Select calls removes or
    changes the first segment, in the directory or in any selected
    FilePath. *)
Theorem drive_segment_reserved (s : string) (p : Path) :
  fits s ->
  Path_new true s = Return p ->
  exists drive rest,
    Parts p = drive :: rest /\
    is_segment drive /\
    IsRoot true p = Return (is_empty rest) /\
    Depth true p = Return (unsigned_int_wrap (Z.of_nat (List.length rest))) /\
    ((Z.of_nat (List.length rest) < 2 ^ 32)%Z ->
     Depth true p = Return (N.of_nat (List.length rest))) /\
    (forall calls d' selected,
        navigate true calls p [] = Return (d', selected) ->
        (exists rest', Parts d' = drive :: rest') /\
        Forall (fun f : FilePath => exists r, Parts f = drive :: r) selected).
Proof.
  intros Hfit H. rewrite Path_new_unfold in H by exact Hfit.
  destruct (empty s); [discriminate|].
  destruct (IsAbsolute true s) eqn:Ea; cbn [negb] in H; [|discriminate].
  destruct (normalize true (tokens true s) []) as [ps|] eqn:En; [|discriminate].
  injection H as <-.
  destruct (drive_token s Ea) as (t0 & toks & (N1 & N2 & N3) & Ht).
  assert (En' : normalize true toks [t0] = Some ps).
  { destruct Ht as [Ht|Ht]; rewrite Ht in En; cbn [normalize String.eqb] in En;
      destruct (String.eqb_spec t0 ""); try contradiction;
      destruct (String.eqb_spec t0 "."); try contradiction;
      destruct (String.eqb_spec t0 ".."); try contradiction; exact En. }
  destruct (normalize_keeps_first _ _ _ _ En') as [rest ->].
  exists t0, rest. cbn [Parts]. split; [reflexivity|]. split; [repeat split; assumption|].
  assert (D : Depth true (mkPath (t0 :: rest)) =
              Return (unsigned_int_wrap (Z.of_nat (List.length rest)))).
  { unfold Depth. cbn [Parts is_empty List.length]. do 2 f_equal. lia. }
  split; [|split; [|split]].
  - unfold IsRoot. cbn [Parts is_empty List.length]. destruct rest; reflexivity.
  - exact D.
  - intros B. rewrite D, unsigned_int_wrap_small by lia. f_equal. lia.
  - intros calls d' selected Hnav.
    apply (navigate_keeps_first t0 calls (mkPath (t0 :: rest)) [] d' selected rest
             eq_refl (Forall_nil _) Hnav).
Qed.

Lemma drive_segment_reserved_witness :
  exists drive rest,
    Parts (mkPath ["C:"; "Users"]) = drive :: rest /\
    is_segment drive /\
    IsRoot true (mkPath ["C:"; "Users"]) = Return (is_empty rest) /\
    Depth true (mkPath ["C:"; "Users"]) =
      Return (unsigned_int_wrap (Z.of_nat (List.length rest))) /\
    ((Z.of_nat (List.length rest) < 2 ^ 32)%Z ->
     Depth true (mkPath ["C:"; "Users"]) = Return (N.of_nat (List.length rest))) /\
    (forall calls d' selected,
        navigate true calls (mkPath ["C:"; "Users"]) [] = Return (d', selected) ->
        (exists rest', Parts d' = drive :: rest') /\
        Forall (fun f : FilePath => exists r, Parts f = drive :: r) selected).
Proof.
  apply (drive_segment_reserved "C:\Users\guest\.." (mkPath ["C:"; "Users"]));
    reflexivity.
Defined.

(* ================================================================== *)
(** * Further properties: listing and walking any filesystem *)

Lemma filter_split_Permutation {A : Type} (f g : A -> bool) (l : list A) :
  (forall x, In x l -> g x = negb (f x)) ->
  Permutation (filter f l ++ filter g l) l.
Proof.
  induction l as [|a l IH]; intros H; [constructor|].
  cbn [filter]. rewrite (H a (or_introl eq_refl)).
  assert (IH' := IH (fun x Hx => H x (or_intror Hx))).
  destruct (f a); cbn [negb app].
  - constructor. exact IH'.
  - apply Permutation_sym, Permutation_cons_app, Permutation_sym. exact IH'.
Qed.

Lemma filter_within {A : Type} (f g : A -> bool) (l : list A) :
  (forall x, f x = true -> g x = true) -> filter f l = filter f (filter g l).
Proof.
  intros H. induction l as [|a l IH]; [reflexivity|]. cbn [filter].
  destruct (f a) eqn:Ef.
  - rewrite (H a Ef). cbn [filter]. rewrite Ef, IH. reflexivity.
  - destruct (g a); cbn [filter]; rewrite ?Ef; exact IH.
Qed.

(** X7. Every entry of a directory other than "." and ".." is reported
    exactly once by the two listings together: the names [ListFiles]
    returns followed by those [ListDirectories] returns are a
    rearrangement of the names of all such entries, and both listings
    are empty when the directory cannot be opened. *)
Theorem listings_partition
    (opendir : string -> option (list dirent)) (d : DirectoryPath) :
  Permutation
    (ListFiles opendir d ++ ListDirectories opendir d)
    (map d_name
         (filter (fun e => negb (is_dot (d_name e)))
                 (entries_of opendir (AsAbsoluteString false d)))) /\
  (opendir (AsAbsoluteString false d) = None ->
   ListFiles opendir d = [] /\ ListDirectories opendir d = []).
Proof.
  rewrite ListFiles_filter, ListDirectories_filter. split.
  - rewrite <- map_app. apply Permutation_map.
    set (es := entries_of opendir (AsAbsoluteString false d)).
    set (ordinary := fun e : dirent => negb (is_dot (d_name e))).
    assert (F : filter is_file es = filter is_file (filter ordinary es)).
    { apply filter_within. intros e H. unfold is_file in H.
      apply andb_prop in H. apply H. }
    assert (G : filter is_subdirectory es = filter is_subdirectory (filter ordinary es)).
    { apply filter_within. intros e H. unfold is_subdirectory in H.
      apply andb_prop in H. apply H. }
    rewrite F, G. apply filter_split_Permutation.
    intros e He. apply filter_In in He. destruct He as [_ He].
    unfold ordinary in He. unfold is_file, is_subdirectory. rewrite He.
    cbn [andb]. rewrite negb_involutive. reflexivity.
  - intros H. unfold entries_of. rewrite H. split; reflexivity.
Qed.

Lemma listings_partition_witness :
  ListFiles example_fs (mkPath ["R"; "E"]) = [] /\
  ListDirectories example_fs (mkPath ["R"; "E"]) = [].
Proof.
  apply (proj2 (listings_partition example_fs (mkPath ["R"; "E"]))).
  reflexivity.
Defined.

Section WalkerCalls.

Variable opendir : string -> option (list dirent).
Hypothesis nonempty : names_nonempty opendir.
Variable root : list string.

Lemma Descended_step (M : list string) (NextTransition : string) (rest : list string)
    (C : list FilePath) (st' : WalkState) :
  Pending opendir root M (NextTransition :: rest) ->
  Descended opendir root M ->
  Walk_body opendir (mkWalk rest (mkPath M) C) NextTransition = Return st' ->
  Descended opendir root (Parts (Marker st')).
Proof.
  intros HP HD H.
  destruct (String.eqb_spec NextTransition "") as [->|Hn].
  - destruct (Pending_ascend_target opendir nonempty root _ _ rest HP eq_refl)
      as (parent & x & -> & HP').
    rewrite Walk_body_ascend in H. injection H as <-. cbn [Marker Parts].
    destruct (Pending_depth opendir nonempty root _ _ HP') as (path & -> & _).
    inversion HD as [E | M0 name0 HD0 Hin E].
    + exfalso. apply (f_equal (@List.length string)) in E.
      rewrite !length_app in E. cbn [List.length] in E. lia.
    + apply app_inj_tail in E. destruct E as [-> _]. exact HD0.
  - rewrite Walk_body_descend in H by exact Hn. injection H as <-.
    cbn [Marker]. unfold Enter, push_back. cbn [Parts].
    apply Descended_below; [exact HD|].
    eapply Pending_descend_target; [exact HP | reflexivity | exact Hn].
Qed.

Lemma reported_step (M : list string) (NextTransition : string) (rest : list string)
    (C : list FilePath) (st' : WalkState) :
  Pending opendir root M (NextTransition :: rest) ->
  Descended opendir root M ->
  Forall (reported_below opendir root) C ->
  Walk_body opendir (mkWalk rest (mkPath M) C) NextTransition = Return st' ->
  Forall (reported_below opendir root) (Calls st').
Proof.
  intros HP HD HC H.
  pose proof (Descended_step M NextTransition rest C st' HP HD H) as HD'.
  destruct (String.eqb_spec NextTransition "") as [->|Hn].
  - destruct (Pending_ascend_target opendir nonempty root _ _ rest HP eq_refl)
      as (parent & x & -> & _).
    rewrite Walk_body_ascend in H. injection H as <-. exact HC.
  - rewrite Walk_body_descend in H by exact Hn. injection H as <-.
    cbn [Calls Marker] in *. apply Forall_app. split; [exact HC|].
    destruct (Pending_depth opendir nonempty root _ _ HP) as (path & -> & _).
    apply Forall_forall. intros f Hf. apply in_map_iff in Hf.
    destruct Hf as (file & <- & Hfile).
    exists (path ++ [NextTransition])%list, file.
    unfold Select, FilePath_of_parts, Enter, push_back in *. cbn [Parts] in *.
    rewrite <- !app_assoc in *. repeat split; assumption.
Qed.

Lemma reported_after (n : nat) :
  forall st st',
    Pending opendir root (Parts (Marker st)) (Transitions st) ->
    Descended opendir root (Parts (Marker st)) ->
    Forall (reported_below opendir root) (Calls st) ->
    Walk_after opendir n st = Return st' ->
    Descended opendir root (Parts (Marker st')) /\
    Forall (reported_below opendir root) (Calls st').
Proof.
  induction n as [|n IH]; intros st st' HP HD HC H.
  - injection H as <-. split; assumption.
  - destruct st as [T [M] C]. cbn [Marker Transitions Parts Calls] in *.
    cbn [Walk_after Transitions Marker Calls] in H.
    destruct T as [|NextTransition rest]; [injection H as <-; split; assumption|].
    destruct (Pending_step opendir nonempty root M NextTransition rest C HP)
      as (st1 & B & HP1).
    rewrite B in H. cbn [bind] in H.
    apply (IH st1 st' HP1); [| |exact H].
    + eapply Descended_step; eassumption.
    + eapply reported_step; eassumption.
Qed.

End WalkerCalls.

Lemma reported_begin (opendir : string -> option (list dirent)) (this : DirectoryPath) :
  Forall (reported_below opendir (Parts this)) (Calls (Walk_begin opendir this)).
Proof.
  unfold Walk_begin, QueueNewTransitions, Path_copy. rewrite ProcessFiles_calls.
  cbn [Transitions Marker Calls app]. apply Forall_forall. intros f Hf.
  apply in_map_iff in Hf. destruct Hf as (file & <- & Hfile).
  exists [], file. cbn [app]. rewrite app_nil_r.
  split; [reflexivity|]. split; [apply Descended_root | exact Hfile].
Qed.

Lemma Walk_begin_marker (opendir : string -> option (list dirent))
    (this : DirectoryPath) :
  Parts (Marker (Walk_begin opendir this)) = Parts this.
Proof.
  unfold Walk_begin, QueueNewTransitions, Path_copy. rewrite ProcessFiles_calls.
  reflexivity.
Qed.

(** X8. On any filesystem, finite or not, in which [readdir] never
    reports an empty name, [Walk] stays below its root: at every point
    of the walk, and when it returns, the marker stands in the root or
    in a directory reached from it through names that [ListDirectories]
    returned, each for the directory before, and each argument passed
    to the callback so far consists of the segments of such a directory
    and a name that [ListFiles] returns for it. *)
Theorem Walk_stays_below_root
    (opendir : string -> option (list dirent)) (this : DirectoryPath) :
  names_nonempty opendir ->
  (forall n st,
      Walk_after opendir n (Walk_begin opendir this) = Return st ->
      Descended opendir (Parts this) (Parts (Marker st)) /\
      Forall (reported_below opendir (Parts this)) (Calls st)) /\
  (forall fuel st,
      Walk opendir fuel this = Return st ->
      Forall (reported_below opendir (Parts this)) (Calls st)).
Proof.
  intros Hne.
  assert (A : forall n st,
             Walk_after opendir n (Walk_begin opendir this) = Return st ->
             Descended opendir (Parts this) (Parts (Marker st)) /\
             Forall (reported_below opendir (Parts this)) (Calls st)).
  { intros n st H.
    eapply reported_after;
      [exact Hne | apply Pending_begin
       | rewrite Walk_begin_marker; apply Descended_root | apply reported_begin
       | exact H]. }
  split; [exact A|].
  intros fuel st H. apply Walk_loop_after in H. destruct H as [H _].
  eapply A. exact H.
Qed.

Lemma cyclic_names_nonempty : names_nonempty cyclic_fs.
Proof.
  intros name es e H Hin. injection H as <-. cbn [In] in Hin.
  repeat (destruct Hin as [<-|Hin]; [discriminate|]). contradiction.
Qed.

Lemma Walk_stays_below_root_witness :
  Descended cyclic_fs ["loop"] ["loop"; "again"; "again"] /\
  Forall (reported_below cyclic_fs ["loop"])
         [mkPath ["loop"; "note"]; mkPath ["loop"; "again"; "note"];
          mkPath ["loop"; "again"; "again"; "note"]].
Proof.
  exact (proj1 (Walk_stays_below_root cyclic_fs (mkPath ["loop"]) cyclic_names_nonempty)
           2 _ eq_refl).
Defined.

Lemma Descended_prefix (opendir : string -> option (list dirent))
    (root M : list string) :
  Descended opendir root M -> exists path, M = (root ++ path)%list.
Proof.
  induction 1 as [|M name HD [path ->] Hin].
  - exists []. rewrite app_nil_r. reflexivity.
  - exists (path ++ [name])%list. rewrite app_assoc. reflexivity.
Qed.

(** As long as the directories reached list a subdirectory, every
    iteration of the loop descends into the first one listed. *)
Lemma Walk_descends_run (opendir : string -> option (list dirent))
    (root : list string) :
  names_nonempty opendir ->
  forall (k : nat) (st : WalkState),
    Descended opendir root (Parts (Marker st)) ->
    (exists rest,
        Transitions st = (ListDirectories opendir (Marker st) ++ rest)%list) ->
    (forall M, Descended opendir root M ->
               List.length M < List.length (Parts (Marker st)) + k ->
               ListDirectories opendir (mkPath M) <> []) ->
    Walk_loop opendir k st = OutOfFuel /\
    exists st',
      Walk_after opendir k st = Return st' /\
      Parts (Marker st') = (Parts (Marker st) ++ Walk_executed opendir k st)%list /\
      List.length (Walk_executed opendir k st) = k /\
      Forall (fun NextTransition => NextTransition <> "") (Walk_executed opendir k st) /\
      Descended opendir root (Parts (Marker st')) /\
      exists rest,
        Transitions st' = (ListDirectories opendir (Marker st') ++ rest)%list.
Proof.
  intros Hne. induction k as [|k IH]; intros st HD [rest HT] Hsub.
  - split; [reflexivity|]. exists st. cbn [Walk_after Walk_executed List.length].
    rewrite app_nil_r. repeat split; try assumption; [constructor | exists rest; exact HT].
  - destruct st as [T [M] C]. cbn [Transitions Marker Calls Parts] in *.
    destruct (ListDirectories opendir (mkPath M)) as [|x xs] eqn:EL.
    { exfalso. apply (Hsub M HD); [lia | exact EL]. }
    assert (Hx : x <> "").
    { eapply ListDirectories_names; [exact Hne|]. rewrite EL. left. reflexivity. }
    assert (HD1 : Descended opendir root (M ++ [x])%list).
    { apply Descended_below; [exact HD|]. rewrite EL. left. reflexivity. }
    subst T. cbn [app].
    destruct (IH (mkWalk (ListDirectories opendir (Enter (mkPath M) x) ++
                          "" :: xs ++ rest)%list
                         (Enter (mkPath M) x)
                         (C ++ map (Select (Enter (mkPath M) x))
                                   (ListFiles opendir (Enter (mkPath M) x)))%list))
      as (L & st' & A & P & Len & F & D & R).
    + exact HD1.
    + eexists. reflexivity.
    + intros M' HM' HL. apply (Hsub M' HM').
      cbn [Marker Enter Parts push_back] in HL. unfold Enter, push_back in HL.
      cbn [Parts] in HL. rewrite length_app in HL. cbn [List.length] in HL. lia.
    + split.
      * rewrite Walk_loop_step, Walk_body_descend by exact Hx. cbn [bind]. exact L.
      * exists st'. cbn [Walk_after Walk_executed Transitions Marker Calls].
        rewrite Walk_body_descend by exact Hx. cbn [bind].
        split; [exact A|]. split.
        { rewrite P. unfold Enter, push_back. cbn [Marker Parts].
          rewrite <- app_assoc. reflexivity. }
        split; [cbn [List.length]; rewrite Len; reflexivity|].
        split; [constructor; assumption|]. split; assumption.
Qed.

(** X9. [Walk] goes down before it does anything else, and nothing but
    the filesystem bounds how far: if every directory reached from the
    walk root through listed subdirectories and fewer than [n] levels
    below it lists a subdirectory, then each of the first [n] loop
    iterations is a descend, the marker after [fuel <= n] of them is the
    root followed by the transitions executed, with the subdirectories
    of the marker at the front of the pending entries, and a bound of
    [n] iterations or fewer is reached with the loop still running. *)
Theorem Walk_descends_first
    (opendir : string -> option (list dirent)) (this : DirectoryPath) (n fuel : nat) :
  names_nonempty opendir ->
  (forall M, Descended opendir (Parts this) M ->
             List.length M < List.length (Parts this) + n ->
             ListDirectories opendir (mkPath M) <> []) ->
  fuel <= n ->
  Walk opendir fuel this = OutOfFuel /\
  exists st,
    Walk_after opendir fuel (Walk_begin opendir this) = Return st /\
    Parts (Marker st) =
      (Parts this ++ Walk_executed opendir fuel (Walk_begin opendir this))%list /\
    List.length (Walk_executed opendir fuel (Walk_begin opendir this)) = fuel /\
    Forall (fun NextTransition => NextTransition <> "")
           (Walk_executed opendir fuel (Walk_begin opendir this)) /\
    exists rest,
      Transitions st = (ListDirectories opendir (Marker st) ++ rest)%list.
Proof.
  intros Hne Hsub Hfuel.
  destruct (Walk_descends_run opendir (Parts this) Hne fuel (Walk_begin opendir this))
    as (L & st & A & P & Len & F & _ & R).
  - rewrite Walk_begin_marker. apply Descended_root.
  - exists []. unfold Walk_begin, QueueNewTransitions, Path_copy.
    rewrite ProcessFiles_calls. reflexivity.
  - intros M HM HL. rewrite Walk_begin_marker in HL. apply (Hsub M HM). lia.
  - split; [exact L|]. exists st. rewrite Walk_begin_marker in P.
    repeat split; assumption.
Qed.

Lemma nested_names_nonempty : names_nonempty nested_fs.
Proof.
  intros name es e H Hin. unfold nested_fs in H.
  destruct (String.eqb name "/srv");
    [|destruct (String.eqb name "/srv/www");
      [|destruct (String.eqb name "/srv/www/site"); [|discriminate]]];
    injection H as <-; cbn [In] in Hin;
    repeat (destruct Hin as [<-|Hin]; [discriminate|]); contradiction.
Qed.

Lemma Walk_descends_first_witness :
  Walk nested_fs 2 (mkPath ["srv"]) = OutOfFuel /\
  exists st,
    Walk_after nested_fs 2 (Walk_begin nested_fs (mkPath ["srv"])) = Return st /\
    Parts (Marker st) =
      (["srv"] ++ Walk_executed nested_fs 2 (Walk_begin nested_fs (mkPath ["srv"])))%list /\
    List.length (Walk_executed nested_fs 2 (Walk_begin nested_fs (mkPath ["srv"]))) = 2 /\
    Forall (fun NextTransition => NextTransition <> "")
           (Walk_executed nested_fs 2 (Walk_begin nested_fs (mkPath ["srv"]))) /\
    exists rest,
      Transitions st = (ListDirectories nested_fs (Marker st) ++ rest)%list.
Proof.
  apply (Walk_descends_first nested_fs (mkPath ["srv"]) 2 2 nested_names_nonempty);
    [|apply le_n].
  intros M HD HL. cbn [Parts List.length] in HD, HL.
  inversion HD as [E | M0 name0 HD0 Hin0 E]; [vm_compute; discriminate|].
  subst M. rewrite length_app in HL. cbn [List.length] in HL.
  inversion HD0 as [E0 | M1 name1 HD1 Hin1 E1].
  - subst M0. vm_compute in Hin0. destruct Hin0 as [<-|[]].
    vm_compute. discriminate.
  - subst M0. destruct (Descended_prefix _ _ _ HD1) as [path ->].
    rewrite !length_app in HL. cbn [List.length] in HL. lia.
Defined.


(* ================================================================== *)
(** * Further properties: the tokenizer *)

Lemma concat_split_on (s : string) : String.concat "/" (split_on slash s) = s.
Proof.
  induction s as [|a t IH]; [reflexivity|]. cbn [split_on].
  pose proof (split_on_nonempty slash t) as N.
  destruct (Ascii.eqb_spec a slash) as [->|Na].
  - rewrite concat_cons. destruct (split_on slash t) as [|h r]; [contradiction|].
    rewrite concat_cons in IH. cbn [separator_prefixed append].
    rewrite IH. reflexivity.
  - destruct (split_on slash t) as [|h r]; [contradiction|].
    rewrite concat_cons in IH |- *. cbn [append]. rewrite IH. reflexivity.
Qed.

Lemma length_split_on (s : string) :
  List.length (split_on slash s) = S (occurrences slash s).
Proof.
  induction s as [|a t IH]; [reflexivity|]. cbn [split_on occurrences].
  pose proof (split_on_nonempty slash t) as N.
  destruct (Ascii.eqb a slash).
  - cbn [List.length]. rewrite IH. reflexivity.
  - destruct (split_on slash t) as [|h r]; [contradiction|].
    cbn [List.length] in *. lia.
Qed.

Lemma length_take (k : nat) :
  forall r, k <= String.length r -> String.length (take k r) = k.
Proof.
  induction k as [|k IH]; intros r H; [destruct r; reflexivity|].
  destruct r as [|a t]; cbn [String.length] in H; [lia|].
  cbn [take String.length]. rewrite IH by lia. reflexivity.
Qed.

Lemma weight_tokens_upto (W : bool) (n : nat) :
  forall r, String.length r <= n -> weight (tokens_upto W n r) = S (String.length r).
Proof.
  induction n as [|n IH]; intros r H.
  - destruct r; [|cbn in H; lia]. destruct W; reflexivity.
  - cbn [tokens_upto]. destruct (next_separator W r) as [k|] eqn:E;
      [|cbn [weight]; lia].
    apply next_separator_bound in E. cbn [weight].
    rewrite IH by (rewrite length_drop; lia).
    rewrite length_take, length_drop by lia. lia.
Qed.

(** X10. [PathStringIterator] loses nothing: on either platform the
    tokens it reads, taken with one separator between neighbours, have
    exactly the characters of the string, and [FindNext] answers true
    once per token and false on the call after the last one.  Without
    WINDOWS the tokens hold no "/", there is one more token than the
    string has "/" characters, and joining the tokens with "/" gives
    the string back. *)
Theorem PathStringIterator_reads_everything (W : bool) (s : string) :
  fits s ->
  Tokenize W (S (List.length (tokens W s))) (PathStringIterator_new s) =
    Return (tokens W s) /\
  Tokenize W (List.length (tokens W s)) (PathStringIterator_new s) = OutOfFuel /\
  weight (tokens W s) = S (String.length s) /\
  String.concat "/" (tokens false s) = s /\
  List.length (tokens false s) = S (occurrences slash s) /\
  Forall separator_free (tokens false s).
Proof.
  intros Hfit.
  assert (T : forall fuel m prev,
             m <= String.length s ->
             (List.length (tokens W (drop m s)) < fuel ->
              Tokenize W fuel (mkIterator s prev (N.of_nat m)) =
              Return (tokens W (drop m s))) /\
             (fuel <= List.length (tokens W (drop m s)) ->
              Tokenize W fuel (mkIterator s prev (N.of_nat m)) = OutOfFuel)).
  { induction fuel as [|fuel IH]; intros m prev Hm.
    - split; [lia | reflexivity].
    - cbn [Tokenize]. rewrite (FindNext_at W s Hfit prev m Hm).
      rewrite (tokens_unfold W (drop m s)).
      destruct (next_separator W (drop m s)) as [k|] eqn:E.
      + pose proof (next_separator_bound _ _ _ E) as Hk. rewrite length_drop in Hk.
        rewrite (Read_separated s Hfit) by lia. cbn [bind].
        rewrite drop_drop. replace (m + S k) with (m + k + 1) by lia.
        destruct (IH (m + k + 1) (N.of_nat m) ltac:(lia)) as [I1 I2].
        cbn [List.length]. split; intros L.
        * rewrite I1 by lia. reflexivity.
        * rewrite I2 by lia. reflexivity.
      + rewrite (Read_final s Hfit) by exact Hm. cbn [bind List.length].
        split; intros L.
        * destruct fuel as [|fuel']; [lia|]. cbn [Tokenize].
          rewrite FindNext_done by reflexivity. reflexivity.
        * destruct fuel as [|fuel']; [reflexivity | lia]. }
  destruct (T (S (List.length (tokens W s))) 0 0%N ltac:(lia)) as [T1 _].
  destruct (T (List.length (tokens W s)) 0 0%N ltac:(lia)) as [_ T2].
  cbn [drop] in T1, T2. change (N.of_nat 0) with 0%N in T1, T2.
  split; [apply T1; lia|]. split; [apply T2; lia|]. split; [|split; [|split]].
  - apply weight_tokens_upto. lia.
  - rewrite tokens_posix. apply concat_split_on.
  - rewrite tokens_posix. apply length_split_on.
  - rewrite tokens_posix. apply split_on_separator_free.
Qed.

Lemma PathStringIterator_reads_everything_witness :
  Tokenize false (S (List.length (tokens false "//usr/lib/")))
           (PathStringIterator_new "//usr/lib/") =
    Return (tokens false "//usr/lib/") /\
  Tokenize false (List.length (tokens false "//usr/lib/"))
           (PathStringIterator_new "//usr/lib/") = OutOfFuel /\
  weight (tokens false "//usr/lib/") = S (String.length "//usr/lib/") /\
  String.concat "/" (tokens false "//usr/lib/") = "//usr/lib/" /\
  List.length (tokens false "//usr/lib/") = S (occurrences slash "//usr/lib/") /\
  Forall separator_free (tokens false "//usr/lib/").
Proof.
  apply (PathStringIterator_reads_everything false "//usr/lib/").
  reflexivity.
Defined.

(* ================================================================== *)
(** * Further properties: temporary files and the locators *)

Lemma Read_not_System (it : PathStringIterator) (what : string) :
  Read it <> Throw (System what).
Proof.
  unfold Read, substr.
  destruct (negb _); [discriminate|].
  destruct (_ =? 0)%N; [discriminate|].
  destruct (_ <? _)%N; discriminate.
Qed.

Lemma Path_scan_not_System (W : bool) (what : string) (fuel : nat) :
  forall it ps, Path_scan W fuel it ps <> Throw (System what).
Proof.
  induction fuel as [|fuel IH]; intros it ps; [discriminate|].
  cbn [Path_scan]. destruct (FindNext W it) as [more it'].
  destruct more; [|discriminate].
  destruct (Read it') as [Part|e| | |] eqn:R; cbn [bind]; try discriminate.
  - destruct (String.eqb Part ""); [apply IH|].
    destruct (String.eqb Part "..").
    + destruct (is_empty ps); [discriminate|].
      destruct (W && Nat.eqb (List.length ps) 1); [discriminate | apply IH].
    + destruct (String.eqb Part "."); apply IH.
  - intros H. injection H as ->. exact (Read_not_System it' what R).
Qed.

(** The constructor raises [Error::Construction] (or lets the
    [std::out_of_range] of [substr] through), never [Error::System]. *)
Lemma Path_new_not_System (W : bool) (s what : string) :
  Path_new W s <> Throw (System what).
Proof.
  unfold Path_new, Path_new_fuel.
  destruct (empty s); [discriminate|].
  destruct (negb (IsAbsolute W s)); [discriminate|].
  destruct (Path_scan W _ _ _) as [ps|e| | |] eqn:E; cbn [bind]; try discriminate.
  intros H. injection H as ->. exact (Path_scan_not_System W what _ _ _ E).
Qed.

Lemma Path_new_relative (s : string) :
  IsAbsolute false s = false -> exists what, Path_new false s = Throw (Construction what).
Proof.
  intros H. unfold Path_new, Path_new_fuel. rewrite H.
  destruct (empty s); eexists; reflexivity.
Qed.

Lemma six_characters_segment (p : string) : String.length p = 6 -> is_segment p.
Proof. intros H. repeat split; intros ->; discriminate. Qed.

Lemma last_snoc (ps : list string) (p d : string) : last (ps ++ [p])%list d = p.
Proof. apply last_last. Qed.

(** X11. [CreateTemporaryFile] names a file of the directory it is
    given.  For a directory made by the constructor, whenever [mkstemp]
    keeps to its contract (it succeeds by rewriting the six X of the
    template into six characters other than "/"), the FilePath returned
    is the one [Select] gives for those six characters: its file name is
    the generated name and its directory is [TempDirectory] (the root
    directory, whose template starts with two separators, included).
    When [mkstemp] fails the function raises [Error::System] and
    constructs no path. *)
Theorem CreateTemporaryFile_in_directory
    (mkstemp : string -> option string) (s : string) (d : DirectoryPath)
    (suffix : string) :
  fits s -> DirectoryPath_new false s = Return d ->
  fits (AsAbsoluteString false d ++ "/XXXXXX") ->
  String.length suffix = 6 -> separator_free suffix ->
  (mkstemp (AsAbsoluteString false d ++ "/XXXXXX") =
     Some ((AsAbsoluteString false d ++ "/") ++ suffix) ->
   CreateTemporaryFile mkstemp d = Return (Select d suffix) /\
   File (Select d suffix) = Return suffix /\
   Directory (Select d suffix) = Return d) /\
  (mkstemp (AsAbsoluteString false d ++ "/XXXXXX") = None ->
   exists what, CreateTemporaryFile mkstemp d = Throw (System what)).
Proof.
  intros Hs Hd Hfit Hlen Hfree.
  destruct (Path_new_posix_inv s d Hs Hd) as (Hn & Hf & _).
  destruct d as [ps]. cbn [Parts] in Hn, Hf. split.
  - intros Hm. split; [|split].
    + unfold CreateTemporaryFile. cbv zeta. rewrite Hm. unfold FilePath_new.
      rewrite Path_new_under; [| exact Hn | exact Hf |].
      * rewrite split_on_free by exact Hfree.
        rewrite (normalize_segments false [suffix] ps)
          by (constructor; [apply six_characters_segment; exact Hlen | constructor]).
        reflexivity.
      * unfold fits, size in *. rewrite !length_append in *.
        rewrite Hlen. cbn [String.length] in *. lia.
    + unfold File, Select, FilePath_of_parts, push_back. cbn [Parts].
      rewrite last_snoc. destruct ps; reflexivity.
    + unfold Directory, Select, FilePath_of_parts, push_back. cbn [Parts].
      rewrite removelast_last. destruct ps; reflexivity.
  - intros Hm. unfold CreateTemporaryFile. cbv zeta. rewrite Hm.
    eexists. reflexivity.
Qed.

Lemma CreateTemporaryFile_in_directory_witness :
  (CreateTemporaryFile (fun _ => Some "/var/tmp/k3Vq0z") (mkPath ["var"; "tmp"]) =
     Return (Select (mkPath ["var"; "tmp"]) "k3Vq0z") /\
   File (Select (mkPath ["var"; "tmp"]) "k3Vq0z") = Return "k3Vq0z" /\
   Directory (Select (mkPath ["var"; "tmp"]) "k3Vq0z") = Return (mkPath ["var"; "tmp"])).
Proof.
  apply (CreateTemporaryFile_in_directory
           (fun _ => Some "/var/tmp/k3Vq0z") "/var//tmp/" (mkPath ["var"; "tmp"])
           "k3Vq0z");
    reflexivity.
Defined.

(** X12. The configuration file locators without WINDOWS.  The global
    ones do not look at the environment: the file is in "/etc", below
    the project directory when one is named.  The user ones raise
    [Error::System] exactly when neither XDG_CONFIG_HOME nor HOME is
    set; a set XDG_CONFIG_HOME is the only directory tried, so a
    relative (or empty) value raises [Error::Construction] whatever HOME
    holds; and any file returned carries the given names, unchecked, as
    its last segments below the directory of the first variable that is
    set. *)
Theorem config_file_locators (getenv : string -> option string)
    (Project Filename : string) :
  LocateGlobalConfigFile Filename = Return (mkPath ["etc"; Filename]) /\
  LocateGlobalConfigFile_in Project Filename =
    Return (mkPath ["etc"; Project; Filename]) /\
  ((exists what, LocateUserConfigFile getenv Filename = Throw (System what)) <->
   getenv "XDG_CONFIG_HOME" = None /\ getenv "HOME" = None) /\
  ((exists what, LocateUserConfigFile_in getenv Project Filename = Throw (System what)) <->
   getenv "XDG_CONFIG_HOME" = None /\ getenv "HOME" = None) /\
  (forall v, getenv "XDG_CONFIG_HOME" = Some v -> IsAbsolute false v = false ->
     exists what, LocateUserConfigFile getenv Filename = Throw (Construction what)) /\
  (forall f, LocateUserConfigFile_in getenv Project Filename = Return f ->
     exists dir d,
       (getenv "XDG_CONFIG_HOME" = Some dir \/
        getenv "XDG_CONFIG_HOME" = None /\ getenv "HOME" = Some dir) /\
       DirectoryPath_new false dir = Return d /\
       Parts f = (Parts d ++ [Project; Filename])%list /\
       File f = Return Filename /\
       Directory f = Return (Enter d Project)).
Proof.
  assert (S1 : forall (dir : string) (k : DirectoryPath -> FilePath) what,
             (d <- DirectoryPath_new false dir ;; Return (k d)) <> Throw (System what)).
  { intros dir k what. unfold DirectoryPath_new.
    destruct (Path_new false dir) as [d|e| | |] eqn:E; cbn [bind]; try discriminate.
    intros H. injection H as ->. exact (Path_new_not_System _ _ _ E). }
  split; [reflexivity|]. split; [reflexivity|].
  unfold LocateUserConfigFile, LocateUserConfigFile_in, GetUserConfigDirectory.
  destruct (getenv "XDG_CONFIG_HOME") as [x|] eqn:X;
    [|destruct (getenv "HOME") as [h|] eqn:Hh]; cbn [bind].
  - split; [|split; [|split]].
    + split; [intros [what H]; exfalso; exact (S1 _ (fun d => Select d Filename) _ H) | intros [K _]; discriminate K].
    + split; [intros [what H]; exfalso; exact (S1 _ (fun d => Select (Enter d Project) Filename) _ H) | intros [K _]; discriminate K].
    + intros v V Ha. injection V as <-.
      destruct (Path_new_relative x Ha) as [what E].
      exists what. unfold DirectoryPath_new. rewrite E. reflexivity.
    + intros f H. unfold DirectoryPath_new in *.
      destruct (Path_new false x) as [d|e| | |] eqn:E; cbn [bind] in H; try discriminate.
      injection H as <-. exists x, d. split; [left; reflexivity|].
      split; [exact E|].
      unfold Select, Enter, FilePath_of_parts, push_back, File, Directory.
      cbn [Parts]. rewrite last_snoc, removelast_last.
      split; [rewrite <- app_assoc; reflexivity|].
      destruct (Parts d); split; reflexivity.
  - split; [|split; [|split]].
    + split; [intros [what H]; exfalso; exact (S1 _ (fun d => Select d Filename) _ H) | intros [_ K]; discriminate K].
    + split; [intros [what H]; exfalso; exact (S1 _ (fun d => Select (Enter d Project) Filename) _ H) | intros [_ K]; discriminate K].
    + intros v V. discriminate V.
    + intros f H. unfold DirectoryPath_new in *.
      destruct (Path_new false h) as [d|e| | |] eqn:E; cbn [bind] in H; try discriminate.
      injection H as <-. exists h, d. split; [right; split; reflexivity|].
      split; [exact E|].
      unfold Select, Enter, FilePath_of_parts, push_back, File, Directory.
      cbn [Parts]. rewrite last_snoc, removelast_last.
      split; [rewrite <- app_assoc; reflexivity|].
      destruct (Parts d); split; reflexivity.
  - split; [|split; [|split]].
    + split; [intros _; split; reflexivity | intros _; eexists; reflexivity].
    + split; [intros _; split; reflexivity | intros _; eexists; reflexivity].
    + intros v V. discriminate V.
    + intros f F. discriminate F.
Qed.

(** X13. The directory locators without WINDOWS.
    [LocateDocumentDirectory] raises [Error::System] exactly when HOME
    is not set, and the project form appends the project as one more
    segment, so [Exit] leads back.  [LocateTemporaryDirectory] never raises
    [Error::System]: with TMPDIR and P_tmpdir both unset it is the
    directory "/tmp", a set TMPDIR is used whatever P_tmpdir holds, and
    a relative or empty value of the variable used raises
    [Error::Construction] instead of falling through to the next
    candidate. *)
Theorem directory_locators (getenv : string -> option string) (Project : string) :
  ((exists what, LocateDocumentDirectory getenv = Throw (System what)) <->
   getenv "HOME" = None) /\
  (forall d, LocateDocumentDirectory getenv = Return d ->
     exists e, LocateDocumentDirectory_in getenv Project = Return e /\
               Parts e = (Parts d ++ [Project])%list /\
               Exit false e = Return d) /\
  (forall what, LocateTemporaryDirectory getenv <> Throw (System what)) /\
  (getenv "TMPDIR" = None /\ getenv "P_tmpdir" = None ->
   LocateTemporaryDirectory getenv = Return (mkPath ["tmp"])) /\
  (forall v, getenv "TMPDIR" = Some v \/
             getenv "TMPDIR" = None /\ getenv "P_tmpdir" = Some v ->
     LocateTemporaryDirectory getenv = DirectoryPath_new false v /\
     (IsAbsolute false v = false ->
      exists what, LocateTemporaryDirectory getenv = Throw (Construction what))).
Proof.
  split; [|split; [|split; [|split]]].
  - unfold LocateDocumentDirectory. destruct (getenv "HOME") as [h|].
    + split; [|discriminate]. intros [what H]. exfalso.
      exact (Path_new_not_System _ _ _ H).
    + split; [reflexivity|]. intros _. eexists. reflexivity.
  - intros d H. exists (Enter d Project). unfold LocateDocumentDirectory_in.
    rewrite H. cbn [bind]. split; [reflexivity|].
    split; [reflexivity|].
    destruct d as [ps]. unfold Exit, IsRoot, Enter, push_back, pop_back.
    cbn [Parts]. rewrite removelast_last.
    destruct (ps ++ [Project])%list eqn:E;
      [destruct ps; discriminate|].
    reflexivity.
  - intros what. unfold LocateTemporaryDirectory. cbv zeta.
    apply Path_new_not_System.
  - intros [T P]. unfold LocateTemporaryDirectory. rewrite T, P. reflexivity.
  - intros v H.
    assert (E : LocateTemporaryDirectory getenv = DirectoryPath_new false v).
    { unfold LocateTemporaryDirectory.
      destruct H as [T|[T P]]; rewrite T; [|rewrite P]; reflexivity. }
    split; [exact E|]. intros Ha. rewrite E. apply Path_new_relative. exact Ha.
Qed.

(* ================================================================== *)
(** * Further properties: file streams *)

Lemma nul_free_cons (a : ascii) (t : string) :
  nul_free (String a t) -> Ascii.eqb a NUL = false /\ nul_free t.
Proof.
  unfold nul_free. cbn [index_of]. destruct (Ascii.eqb a NUL); [discriminate|].
  destruct (index_of NUL t); [discriminate|]. split; reflexivity.
Qed.

Lemma without_last_cons (a b : ascii) (t : string) :
  without_last (String a (String b t)) = String a (without_last (String b t)).
Proof.
  unfold without_last. cbn [String.length]. rewrite !Nat.sub_succ, !Nat.sub_0_r.
  reflexivity.
Qed.

Lemma strip_from_nul_free (rest : string) :
  forall prev,
    nul_free rest ->
    strip_from prev (rest ++ String NUL "") =
    Some (without_last (String prev rest) ++ String NUL (String NUL "")).
Proof.
  induction rest as [|a t IH]; intros prev H.
  - reflexivity.
  - apply nul_free_cons in H. destruct H as [Ha Ht].
    cbn [append strip_from]. rewrite Ha, (IH a Ht). cbn [option_map].
    rewrite without_last_cons. reflexivity.
Qed.

Lemma c_str_terminated (s t : string) : nul_free s -> c_str (s ++ String NUL t) = s.
Proof.
  induction s as [|a s IH]; intros H.
  - reflexivity.
  - apply nul_free_cons in H. destruct H as [Ha Hs].
    cbn [append c_str]. rewrite Ha, (IH Hs). reflexivity.
Qed.

Lemma nul_free_take (n : nat) : forall s, nul_free s -> nul_free (take n s).
Proof.
  induction n as [|n IH]; intros s H; [destruct s; reflexivity|].
  destruct s as [|a t]; [reflexivity|].
  apply nul_free_cons in H. destruct H as [Ha Ht].
  unfold nul_free. cbn [take index_of]. rewrite Ha.
  specialize (IH t Ht). unfold nul_free in IH. rewrite IH. reflexivity.
Qed.

Lemma without_last_append (s : string) (a : ascii) :
  without_last (s ++ String a "") = s.
Proof.
  induction s as [|b s IH]; [reflexivity|].
  destruct s as [|c s].
  - reflexivity.
  - cbn [append] in *. rewrite without_last_cons, IH. reflexivity.
Qed.

Lemma nul_free_append (s : string) (a : ascii) :
  nul_free s -> Ascii.eqb a NUL = false -> nul_free (s ++ String a "").
Proof.
  induction s as [|b s IH]; intros H Ha.
  - unfold nul_free. cbn [append index_of]. rewrite Ha. reflexivity.
  - apply nul_free_cons in H. destruct H as [Hb Hs].
    unfold nul_free. cbn [append index_of]. rewrite Hb.
    specialize (IH Hs Ha). unfold nul_free in IH. rewrite IH. reflexivity.
Qed.

Section FileInputLoop.

Import FileStreams.

Variable World : Type.
Variable fgets : N -> World -> option string * World.
Variable errno : World -> Z.
Variable EINVAL : Z.

Lemma FileInput_read_loop_bound (n : nat) :
  forall (fuel1 fuel2 : nat) (BufferSize : N) (w : World) (Data : string),
    (10485760 <= BufferSize * 2 ^ N.of_nat n)%N ->
    n < fuel1 -> n < fuel2 ->
    FileInput_read_loop fgets errno EINVAL fuel1 BufferSize w Data =
    FileInput_read_loop fgets errno EINVAL fuel2 BufferSize w Data /\
    FileInput_read_loop fgets errno EINVAL fuel1 BufferSize w Data <> OutOfFuel.
Proof.
  induction n as [|n IH]; intros fuel1 fuel2 B w Data HB H1 H2;
    (destruct fuel1 as [|fuel1]; [lia|]); (destruct fuel2 as [|fuel2]; [lia|]);
    cbn [FileInput_read_loop]; change (1024 * 1024 * 10)%N with 10485760%N.
  - change (2 ^ N.of_nat 0)%N with 1%N in HB.
    destruct (N.ltb_spec B 10485760) as [L|L]; [lia|]. split; [reflexivity | discriminate].
  - destruct (N.ltb_spec B 10485760) as [L|L]; [|split; [reflexivity | discriminate]].
    destruct (fgets B w) as [[c|] w'].
    + split; [reflexivity|].
      unfold fgets_buffer. destruct (B <=? size c)%N; cbn [bind]; [discriminate|].
      unfold strip. destruct (c ++ String NUL "") as [|b0 rest]; [discriminate|].
      destruct (strip_from b0 rest); discriminate.
    + destruct (negb (errno w' =? EINVAL)%Z); [split; [reflexivity | discriminate]|].
      assert (E : size_t_wrap (Z.of_N B * 2) = (B * 2)%N).
      { unfold size_t_wrap, size_t_modulus. rewrite Z.mod_small by lia. lia. }
      rewrite E. apply IH; [|lia|lia].
      rewrite Nat2N.inj_succ, N.pow_succ_r' in HB. lia.
Qed.

Lemma FileInput_read_chunk (fuel : nat) (BufferSize : N) (w w' : World)
    (Data c : string) :
  (BufferSize < 10485760)%N ->
  fgets BufferSize w = (Some c, w') ->
  c <> "" -> nul_free c -> (size c < BufferSize)%N ->
  FileInput_read_loop fgets errno EINVAL (S fuel) BufferSize w Data =
  Return (without_last c, w').
Proof.
  intros HB Hg Hc Hn Hs. cbn [FileInput_read_loop].
  change (1024 * 1024 * 10)%N with 10485760%N.
  destruct (N.ltb_spec BufferSize 10485760) as [_|L]; [|lia].
  rewrite Hg. unfold fgets_buffer.
  destruct (N.leb_spec BufferSize (size c)) as [L|_]; [lia|]. cbn [bind].
  destruct c as [|a t]; [contradiction|].
  apply nul_free_cons in Hn. destruct Hn as [Ha Ht].
  unfold strip. cbn [append]. rewrite (strip_from_nul_free t a Ht). cbn [bind].
  rewrite c_str_terminated; [reflexivity|].
  unfold without_last. apply nul_free_take.
  unfold nul_free. cbn [index_of]. rewrite Ha.
  unfold nul_free in Ht. rewrite Ht. reflexivity.
Qed.

End FileInputLoop.

(** X14. [FileInput::operator >>(String &)] reads one [fgets] chunk and
    drops its last character.  Whatever [fgets] and errno do, the loop
    ends within its thirteen tests.  When the first [fgets] stores a
    non-empty chunk without null characters, [Data] becomes that chunk
    without its last character after this single call: a line that
    ends in a line feed is returned without the line feed, and a chunk
    that does not end in one (the last line of a file without a final
    line feed, or the first 4095 characters of a longer line) loses a
    character of its text.  When [fgets] returns null and errno is not
    EINVAL, [Data] keeps its old value. *)
Theorem FileInput_read_drops_last_character (World : Type)
    (fgets : N -> World -> option string * World) (errno : World -> Z)
    (EINVAL : Z) (w : World) (Data : string) :
  (forall k,
     FileStreams.FileInput_read_loop fgets errno EINVAL (13 + k) 4096 w Data =
     FileStreams.FileInput_read_String fgets errno EINVAL w Data) /\
  FileStreams.FileInput_read_String fgets errno EINVAL w Data <> OutOfFuel /\
  (forall c w',
     fgets 4096%N w = (Some c, w') ->
     c <> "" -> nul_free c -> (size c < 4096)%N ->
     FileStreams.FileInput_read_String fgets errno EINVAL w Data =
     Return (without_last c, w')) /\
  (forall line w',
     fgets 4096%N w = (Some (line ++ String newline ""), w') ->
     nul_free line -> (size line < 4095)%N ->
     FileStreams.FileInput_read_String fgets errno EINVAL w Data =
     Return (line, w')) /\
  (forall w',
     fgets 4096%N w = (None, w') -> errno w' <> EINVAL ->
     FileStreams.FileInput_read_String fgets errno EINVAL w Data =
     Return (Data, w')).
Proof.
  unfold FileStreams.FileInput_read_String. change (1024 * 4)%N with 4096%N.
  split; [|split; [|split; [|split]]].
  - intros k.
    apply (FileInput_read_loop_bound World fgets errno EINVAL 12); [|lia|lia].
    vm_compute. discriminate.
  - apply (FileInput_read_loop_bound World fgets errno EINVAL 12 13 13); [|lia|lia].
    vm_compute. discriminate.
  - intros c w' Hg Hc Hn Hs.
    apply FileInput_read_chunk; [reflexivity | exact Hg | exact Hc | exact Hn | exact Hs].
  - intros line w' Hg Hn Hs.
    rewrite (FileInput_read_chunk World fgets errno EINVAL 12 4096 w w' Data
               (line ++ String newline "")); [| reflexivity | exact Hg | | |].
    + rewrite without_last_append. reflexivity.
    + destruct line; discriminate.
    + apply nul_free_append; [exact Hn | reflexivity].
    + unfold size in *. rewrite length_append. cbn [String.length]. lia.
  - intros w' Hg He. cbn [FileStreams.FileInput_read_loop].
    change (4096 <? 1024 * 1024 * 10)%N with true. cbv iota. rewrite Hg.
    destruct (Z.eqb_spec (errno w') EINVAL) as [E|_]; [contradiction|]. reflexivity.
Qed.

Section FileOutputErrors.

Import FileStreams.

Variable World : Type.
Variable FILE : Type.
Variable feof ferror : FILE -> World -> bool.

Lemma size_t_wrap_int (r : Z) :
  (- 2 ^ 31 <= r < 2 ^ 31)%Z -> ((size_t_wrap r <=? 0)%N = true <-> r = 0%Z).
Proof.
  intros Hr. unfold size_t_wrap, size_t_modulus.
  destruct (N.leb_spec (Z.to_N (r mod 2 ^ 64)) 0) as [L|L]; split; intros E;
    try reflexivity; try discriminate.
  - destruct (Z.ltb_spec r 0) as [Neg|Pos].
    + replace (r mod 2 ^ 64)%Z with (r + 2 ^ 64)%Z in L; [lia|].
      apply Z.mod_unique with (q := (-1)%Z); lia.
    + rewrite Z.mod_small in L by lia. lia.
  - subst r. change (0 mod 2 ^ 64)%Z with 0%Z in L. cbn in L. lia.
Qed.

Lemma HexToken_loop_result (print_hex_stdout : ascii -> World -> Z * World)
    (Data : list ascii) :
  forall Result w,
    HexToken_loop print_hex_stdout Data Result w =
    (Result, after_prints print_hex_stdout Data w).
Proof.
  induction Data as [|byte Data IH]; intros Result w; [reflexivity|].
  cbn [HexToken_loop after_prints fold_left].
  destruct (print_hex_stdout byte w) as [r w'] eqn:E. cbn [snd].
  destruct (N.ltb_spec (size_t_wrap r) 0) as [L|_]; [lia|].
  cbn [andb]. apply IH.
Qed.

End FileOutputErrors.

(** X15. What the write operators of [FileOutput] report.  An operator
    that formats with [fprintf] raises exactly when the stream was at
    end-of-file or in error before the call, or [fprintf] returned 0 and
    the stream is in error or at end-of-file after it: the negative int
    of a failed [fprintf] becomes a positive size_t, so the write that
    fails is not the one that raises.  The operator for a HexToken
    prints every byte to the standard output and keeps 0 as its result
    whatever the calls return, so it raises exactly when the stream of
    the FileOutput, which it does not write to, is in error or at
    end-of-file afterwards. *)
Theorem FileOutput_failed_write_unreported (World FILE : Type)
    (feof ferror : FILE -> World -> bool)
    (print : FILE -> World -> Z * World) (f : FILE) (w w' : World) (r : Z) :
  print f w = (r, w') -> (- 2 ^ 31 <= r < 2 ^ 31)%Z ->
  ((exists e, FileStreams.FileOutput_print feof ferror print (Some f) w = Throw e) <->
   feof f w = true \/ ferror f w = true \/
   (r = 0%Z /\ (ferror f w' = true \/ feof f w' = true))) /\
  (feof f w = false -> ferror f w = false -> (r < 0)%Z ->
   FileStreams.FileOutput_print feof ferror print (Some f) w = Return w') /\
  (forall (print_hex_stdout : ascii -> World -> Z * World) File Data w0,
     FileStreams.FileOutput_HexToken feof ferror print_hex_stdout File Data w0 =
     (_ <- FileStreams.CheckWriteResult feof ferror File 0
             (after_prints print_hex_stdout Data w0) ;;
      Return (after_prints print_hex_stdout Data w0)) /\
     ((exists e, FileStreams.FileOutput_HexToken feof ferror print_hex_stdout
                   File Data w0 = Throw e) <->
      exists f0, File = Some f0 /\
                 (ferror f0 (after_prints print_hex_stdout Data w0) = true \/
                  feof f0 (after_prints print_hex_stdout Data w0) = true))).
Proof.
  intros Hp Hr. pose proof (size_t_wrap_int r Hr) as Hz.
  assert (P : FileStreams.FileOutput_print feof ferror print (Some f) w =
              if feof f w then Throw (System "Received end-of-file while writing to file.")
              else if ferror f w then Throw (System "File is in the error state.")
              else if (size_t_wrap r <=? 0)%N then
                if ferror f w' then
                  Throw (System "Encountered error while writing; write failed.")
                else if feof f w' then
                  Throw (System "Received end-of-file while writing; write failed.")
                else Return w'
              else Return w').
  { unfold FileStreams.FileOutput_print, FileStreams.CheckOutput,
      FileStreams.CheckWriteResult.
    destruct (feof f w); [reflexivity|]. destruct (ferror f w); [reflexivity|].
    cbn [bind]. rewrite Hp. destruct (size_t_wrap r <=? 0)%N; [|reflexivity].
    destruct (ferror f w'); [reflexivity|]. destruct (feof f w'); reflexivity. }
  split; [|split].
  - rewrite P. destruct (feof f w) eqn:E1.
    { split; [intros _; left; reflexivity | intros _; eexists; reflexivity]. }
    destruct (ferror f w) eqn:E2.
    { split; [intros _; right; left; reflexivity | intros _; eexists; reflexivity]. }
    destruct (size_t_wrap r <=? 0)%N eqn:E3.
    + assert (R0 : r = 0%Z) by (apply Hz; reflexivity).
      destruct (ferror f w') eqn:E4.
      { split; [intros _; right; right; split; [exact R0 | left; reflexivity]
               | intros _; eexists; reflexivity]. }
      destruct (feof f w') eqn:E5.
      { split; [intros _; right; right; split; [exact R0 | right; reflexivity]
               | intros _; eexists; reflexivity]. }
      split; [intros [e K]; discriminate K|].
      intros [K|[K|[_ [K|K]]]]; discriminate K.
    + split; [intros [e K]; discriminate K|].
      intros [K|[K|[R0 _]]]; try discriminate K.
      apply Hz in R0. discriminate R0.
  - intros E1 E2 Neg. rewrite P, E1, E2.
    destruct (size_t_wrap r <=? 0)%N eqn:E3; [|reflexivity].
    assert (R0 : r = 0%Z) by (apply Hz; reflexivity). lia.
  - intros print_hex_stdout File Data w0.
    assert (Q : FileStreams.FileOutput_HexToken feof ferror print_hex_stdout File Data w0 =
                (_ <- FileStreams.CheckWriteResult feof ferror File 0
                        (after_prints print_hex_stdout Data w0) ;;
                 Return (after_prints print_hex_stdout Data w0))).
    { unfold FileStreams.FileOutput_HexToken. rewrite HexToken_loop_result. reflexivity. }
    split; [exact Q|]. rewrite Q. unfold FileStreams.CheckWriteResult.
    change (0 <=? 0)%N with true. cbv iota.
    destruct File as [f0|].
    + destruct (ferror f0 _) eqn:E4; cbn [bind].
      { split; [intros _; exists f0; split; [reflexivity | left; exact E4]
               | intros _; eexists; reflexivity]. }
      destruct (feof f0 _) eqn:E5; cbn [bind].
      { split; [intros _; exists f0; split; [reflexivity | right; exact E5]
               | intros _; eexists; reflexivity]. }
      split; [intros [e K]; discriminate K|].
      intros [f1 [F [K|K]]]; injection F as <-; congruence.
    + cbn [bind]. split; [intros [e K]; discriminate K|].
      intros [f1 [F _]]. discriminate F.
Qed.

Lemma FileOutput_failed_write_unreported_witness :
  FileStreams.FileOutput_print (fun (_ : unit) (_ : bool) => false)
    (fun (_ : unit) (failed : bool) => failed)
    (fun (_ : unit) (_ : bool) => ((-1)%Z, true)) (Some tt) false = Return true.
Proof.
  apply (proj1 (proj2 (FileOutput_failed_write_unreported bool unit
                         (fun _ _ => false) (fun _ failed => failed)
                         (fun _ _ => ((-1)%Z, true)) tt false true (-1)%Z
                         eq_refl ltac:(lia))));
    [reflexivity | reflexivity | lia].
Defined.
